(** * A shallow embedding of the Texas Hold'em rules engine

    The development follows the layout of the Python package [game]:
    [card.py], [player.py], [hand_evaluator.py], [pot.py] and
    [game_engine.py].  Python integers are unbounded, so every chip count
    and every index is a [Z].  A Python [dict] keyed by player objects is a
    [gmap] keyed by the player's reference; a player reference is the
    position of the object in the store of players (for the orchestrator
    that store is [Game.players], the seat list).  Code that can raise is
    embedded in the [result] monad below. *)

From Stdlib Require Import ZArith Lia Bool String.
From stdpp Require Import base tactics option list sorting gmap.

Local Open Scope Z_scope.

(** ** Exceptions *)

Inductive exn : Type :=
| ValueError
| IndexError
| TypeError.

Inductive result (A : Type) : Type :=
| Ok (a : A)
| Raise (e : exn).
Arguments Ok {A} a.
Arguments Raise {A} e.

#[global] Instance result_ret : MRet result := λ A a, Ok a.

#[global] Instance result_bind : MBind result := λ A B k m,
  match m with
  | Ok a => k a
  | Raise e => Raise e
  end.

Definition is_Ok {A : Type} (m : result A) : Prop := ∃ a, m = Ok a.

(** ** card.py *)

Module Card.

Inductive Suit : Type := HEARTS | DIAMONDS | CLUBS | SPADES.

Inductive Rank : Type :=
| TWO | THREE | FOUR | FIVE | SIX | SEVEN | EIGHT | NINE | TEN
| JACK | QUEEN | KING | ACE.

#[global] Instance Suit_eq_dec : EqDecision Suit.
Proof. solve_decision. Defined.

#[global] Instance Rank_eq_dec : EqDecision Rank.
Proof. solve_decision. Defined.

(** [Rank.value] *)
Definition value (r : Rank) : Z :=
  match r with
  | TWO => 2 | THREE => 3 | FOUR => 4 | FIVE => 5 | SIX => 6
  | SEVEN => 7 | EIGHT => 8 | NINE => 9 | TEN => 10
  | JACK => 11 | QUEEN => 12 | KING => 13 | ACE => 14
  end.

Record Card : Type := mkCard { suit : Suit; rank : Rank }.

#[global] Instance Card_eq_dec : EqDecision Card.
Proof. solve_decision. Defined.

(** [Deck]: the list of cards; [deal_card] pops from the end. *)
Definition Deck : Type := list Card.

Definition deal_card (d : Deck) : option Card * Deck :=
  match last d with
  | None => (None, d)
  | Some c => (Some c, removelast d)
  end.

(** [deal_cards]: the loop stops at the first [None]. *)
Fixpoint deal_cards (count : nat) (d : Deck) : list Card * Deck :=
  match count with
  | O => ([], d)
  | S n =>
      match deal_card d with
      | (None, d') => ([], d')
      | (Some c, d') =>
          let '(cs, d'') := deal_cards n d' in (c :: cs, d'')
      end
  end.

(** [for suit in Suit] and [for rank in Rank] run through the members in
    the order of their definition. *)
Definition all_suits : list Suit := [HEARTS; DIAMONDS; CLUBS; SPADES].

Definition all_ranks : list Rank :=
  [TWO; THREE; FOUR; FIVE; SIX; SEVEN; EIGHT; NINE; TEN; JACK; QUEEN; KING; ACE].

(** [Deck.reset]: the cards the deck holds afterwards. *)
Definition reset : Deck :=
  flat_map (λ s, map (λ r, mkCard s r) all_ranks) all_suits.

Definition cards_remaining (d : Deck) : Z := Z.of_nat (length d).

Definition is_empty (d : Deck) : bool := bool_decide (length d = 0%nat).

End Card.

(** ** player.py *)

Module Player.

Inductive PlayerStatus : Type := ACTIVE | FOLDED | ALL_IN | SITTING_OUT.

Inductive PlayerAction : Type := FOLD | CHECK | CALL | RAISE | ALLIN.

#[global] Instance PlayerStatus_eq_dec : EqDecision PlayerStatus.
Proof. solve_decision. Defined.

#[global] Instance PlayerAction_eq_dec : EqDecision PlayerAction.
Proof. solve_decision. Defined.

Record Player : Type := mkPlayer {
  name : string;
  chips : Z;
  position : Z;
  hole_cards : list Card.Card;
  status : PlayerStatus;
  current_bet : Z;
  total_bet : Z;
  last_action : option PlayerAction;
  hands_played : Z;
  hands_won : Z;
  total_winnings : Z
}.

Definition set_status (s : PlayerStatus) (p : Player) : Player :=
  mkPlayer (name p) (chips p) (position p) (hole_cards p) s
           (current_bet p) (total_bet p) (last_action p)
           (hands_played p) (hands_won p) (total_winnings p).

Definition set_last_action (a : option PlayerAction) (p : Player) : Player :=
  mkPlayer (name p) (chips p) (position p) (hole_cards p) (status p)
           (current_bet p) (total_bet p) a
           (hands_played p) (hands_won p) (total_winnings p).

(** Assignment to [chips], [current_bet], [total_bet], [status] and
    [last_action] at once, as the betting methods do. *)
Definition set_bets (c cb tb : Z) (s : PlayerStatus)
    (a : option PlayerAction) (p : Player) : Player :=
  mkPlayer (name p) c (position p) (hole_cards p) s cb tb a
           (hands_played p) (hands_won p) (total_winnings p).

Definition can_act (p : Player) : bool :=
  bool_decide (status p = ACTIVE).

Definition is_in_hand (p : Player) : bool :=
  bool_decide (status p = ACTIVE) || bool_decide (status p = ALL_IN).

Definition sit_in (p : Player) : Player :=
  if 0 <? chips p then set_status ACTIVE p else p.

Definition fold (p : Player) : Player :=
  if bool_decide (status p ≠ SITTING_OUT)
  then set_last_action (Some FOLD) (set_status FOLDED p)
  else p.

Definition sit_out (p : Player) : Player :=
  fold (set_status SITTING_OUT p).

Definition check (p : Player) : bool * Player :=
  if (current_bet p =? 0) && bool_decide (status p = ACTIVE)
  then (true, set_last_action (Some CHECK) p)
  else (false, p).

(** [call(amount)]: returns the amount actually moved. *)
Definition call (amount : Z) (p : Player) : Z * Player :=
  if bool_decide (status p ≠ ACTIVE) then (0, p)
  else
    let call_amount := amount - current_bet p in
    if call_amount <=? 0 then (0, p)
    else if chips p <=? call_amount then
      let actual_bet := chips p in
      (actual_bet,
       set_bets 0 (current_bet p + actual_bet) (total_bet p + actual_bet)
                ALL_IN (Some ALLIN) p)
    else
      (call_amount,
       set_bets (chips p - call_amount) (current_bet p + call_amount)
                (total_bet p + call_amount) (status p) (Some CALL) p).

Definition raise_bet (total_amount : Z) (p : Player) : Z * Player :=
  if bool_decide (status p ≠ ACTIVE) then (0, p)
  else
    let raise_amount := total_amount - current_bet p in
    if raise_amount <=? 0 then (0, p)
    else if chips p <=? raise_amount then
      let actual_bet := chips p in
      (actual_bet,
       set_bets 0 (current_bet p + actual_bet) (total_bet p + actual_bet)
                ALL_IN (Some ALLIN) p)
    else
      (raise_amount,
       set_bets (chips p - raise_amount) (current_bet p + raise_amount)
                (total_bet p + raise_amount) (status p) (Some RAISE) p).

Definition all_in (p : Player) : Z * Player :=
  if bool_decide (status p ≠ ACTIVE) || (chips p =? 0) then (0, p)
  else
    let all_in_amount := chips p in
    (all_in_amount,
     set_bets 0 (current_bet p + all_in_amount) (total_bet p + all_in_amount)
              ALL_IN (Some ALLIN) p).

Definition new_betting_round (p : Player) : Player :=
  let p1 := set_bets (chips p) 0 (total_bet p) (status p) None p in
  if bool_decide (status p1 = FOLDED) then p1
  else if bool_decide (status p1 = ALL_IN) then p1
  else if 0 <? chips p1 then set_status ACTIVE p1
  else p1.

Definition new_hand (p : Player) : Player :=
  mkPlayer (name p) (chips p) (position p) []
           (if 0 <? chips p then ACTIVE else SITTING_OUT)
           0 0 None
           (hands_played p) (hands_won p) (total_winnings p).

Definition win_chips (amount : Z) (p : Player) : Player :=
  mkPlayer (name p) (chips p + amount) (position p) (hole_cards p)
           (status p) (current_bet p) (total_bet p) (last_action p)
           (hands_played p) (hands_won p + 1) (total_winnings p + amount).

(** [post_blind] assigns the contributions, it does not accumulate. *)
Definition post_blind (amount : Z) (p : Player) : Z * Player :=
  if chips p <=? amount then
    let actual_amount := chips p in
    (actual_amount,
     set_bets 0 actual_amount actual_amount ALL_IN (last_action p) p)
  else
    (amount,
     set_bets (chips p - amount) amount amount (status p) (last_action p) p).

(** Assignments the orchestrator makes to a player object. *)
Definition set_position (pos : Z) (p : Player) : Player :=
  mkPlayer (name p) (chips p) pos (hole_cards p) (status p)
           (current_bet p) (total_bet p) (last_action p)
           (hands_played p) (hands_won p) (total_winnings p).

Definition set_hole_cards (cs : list Card.Card) (p : Player) : Player :=
  mkPlayer (name p) (chips p) (position p) cs (status p)
           (current_bet p) (total_bet p) (last_action p)
           (hands_played p) (hands_won p) (total_winnings p).

Definition add_hand_played (p : Player) : Player :=
  mkPlayer (name p) (chips p) (position p) (hole_cards p) (status p)
           (current_bet p) (total_bet p) (last_action p)
           (hands_played p + 1) (hands_won p) (total_winnings p).

End Player.

(** ** Python built-ins used by the evaluator and the pot ledger *)

Section builtins.
Context {A : Type}.

(** [sorted]/[list.sort] are stable; the embedding is a stable insertion
    sort.  [before x y] says that [x] may stand before an [y] that came
    later in the input. *)
Fixpoint insert_sorted (before : A → A → bool) (x : A) (l : list A) : list A :=
  match l with
  | [] => [x]
  | y :: l' =>
      if before x y then x :: y :: l' else y :: insert_sorted before x l'
  end.

Definition sort_by (before : A → A → bool) (l : list A) : list A :=
  foldr (insert_sorted before) [] l.

(** [sorted(l, key=key, reverse=reverse)] *)
Definition sorted (key : A → Z) (reverse : bool) (l : list A) : list A :=
  sort_by (λ x y, if reverse then key y <=? key x else key x <=? key y) l.

(** [itertools.combinations(l, k)], in the order itertools yields them. *)
Fixpoint combinations (l : list A) (k : nat) : list (list A) :=
  match k, l with
  | O, _ => [[]]
  | S _, [] => []
  | S k', x :: l' => map (cons x) (combinations l' k') ++ combinations l' k
  end.

(** [l.remove(x)]: drops the first occurrence. *)
Fixpoint remove_first `{!EqDecision A} (x : A) (l : list A) : list A :=
  match l with
  | [] => []
  | y :: l' => if decide (y = x) then l' else y :: remove_first x l'
  end.

(** [l.index(x)] *)
Fixpoint index_of `{!EqDecision A} (x : A) (l : list A) : option nat :=
  match l with
  | [] => None
  | y :: l' => if decide (y = x) then Some O else S <$> index_of x l'
  end.
End builtins.

(** [max(l)] for a list of integers that is not empty (on the empty list
    Python raises; the one call is guarded by a length test). *)
Definition max_of (l : list Z) : Z :=
  match l with
  | [] => 0
  | x :: l' => fold_left Z.max l' x
  end.

(** [collections.Counter] over rank values: the items come in the order
    of first occurrence. *)
Fixpoint counter_add (x : Z) (c : list (Z * Z)) : list (Z * Z) :=
  match c with
  | [] => [(x, 1)]
  | (k, n) :: c' =>
      if bool_decide (k = x) then (k, n + 1) :: c' else (k, n) :: counter_add x c'
  end.

Definition Counter (l : list Z) : list (Z * Z) :=
  fold_left (λ c x, counter_add x c) l [].

(** ** hand_evaluator.py *)

Module HandEvaluator.
Import Card.

Inductive HandRank : Type :=
| HIGH_CARD | ONE_PAIR | TWO_PAIR | THREE_OF_A_KIND | STRAIGHT
| FLUSH | FULL_HOUSE | FOUR_OF_A_KIND | STRAIGHT_FLUSH | ROYAL_FLUSH.

#[global] Instance HandRank_eq_dec : EqDecision HandRank.
Proof. solve_decision. Defined.

(** [HandRank.value] *)
Definition hr_value (h : HandRank) : Z :=
  match h with
  | HIGH_CARD => 1 | ONE_PAIR => 2 | TWO_PAIR => 3 | THREE_OF_A_KIND => 4
  | STRAIGHT => 5 | FLUSH => 6 | FULL_HOUSE => 7 | FOUR_OF_A_KIND => 8
  | STRAIGHT_FLUSH => 9 | ROYAL_FLUSH => 10
  end.

(** The [description] text of the Python class is presentation only and
    is left out. *)
Record HandResult : Type := mkHandResult {
  hand_rank : HandRank;
  cards : list Card;
  rank_values : list Z
}.

(** The loop over [zip(self.rank_values, other.rank_values)]. *)
Fixpoint lt_values (a b : list Z) : bool :=
  match a, b with
  | x :: a', y :: b' => if bool_decide (x ≠ y) then x <? y else lt_values a' b'
  | _, _ => false
  end.

(** [HandResult.__lt__] *)
Definition lt (self other : HandResult) : bool :=
  if bool_decide (hr_value (hand_rank self) ≠ hr_value (hand_rank other))
  then hr_value (hand_rank self) <? hr_value (hand_rank other)
  else lt_values (rank_values self) (rank_values other).

(** [a > b] has no [__gt__] of its own and runs the reflected [b < a]. *)
Definition gt (self other : HandResult) : bool := lt other self.

(** [HandResult.__eq__] *)
Definition eq (self other : HandResult) : bool :=
  bool_decide (hand_rank self = hand_rank other)
  && bool_decide (rank_values self = rank_values other).

Definition rank_value_of (c : Card) : Z := value (rank c).

Definition ranks_of (cards : list Card) : list Z := map rank_value_of cards.

(** [len(set(suits)) == 1] *)
Definition _is_flush (cards : list Card) : bool :=
  bool_decide (length (remove_dups (map suit cards)) = 1%nat).

Definition _is_royal_flush (cards : list Card) : bool :=
  if negb (_is_flush cards) then false
  else bool_decide (sorted id false (ranks_of cards) = [10; 11; 12; 13; 14]).

(** [ranks[0]] raises on the empty list. *)
Definition _is_straight (cards : list Card) : result bool :=
  let ranks := sorted id false (ranks_of cards) in
  match ranks with
  | [] => Raise IndexError
  | r0 :: _ =>
      if bool_decide (ranks = seqZ r0 5) then Ok true
      else if bool_decide (ranks = [2; 3; 4; 5; 14]) then Ok true
      else Ok false
  end.

Definition _is_straight_flush (cards : list Card) : result bool :=
  if _is_flush cards then _is_straight cards else Ok false.

Definition _get_straight_high_card (cards : list Card) : result Z :=
  let ranks := sorted id false (ranks_of cards) in
  if bool_decide (ranks = [2; 3; 4; 5; 14]) then Ok 5
  else match last ranks with
       | Some r => Ok r
       | None => Raise IndexError
       end.

(** [[r for r, c in rank_counts.items() if c == n]] *)
Definition ranks_with_count (n : Z) (rank_counts : list (Z * Z)) : list Z :=
  map fst (filter (λ rc, rc.2 = n) rank_counts).

Definition _check_four_of_a_kind (cards : list Card)
    : result (option HandResult) :=
  let rank_counts := Counter (ranks_of cards) in
  match ranks_with_count 4 rank_counts with
  | rank :: _ =>
      match ranks_with_count 1 rank_counts with
      | kicker :: _ =>
          Ok (Some (mkHandResult FOUR_OF_A_KIND cards [rank; kicker]))
      | [] => Raise IndexError
      end
  | [] => Ok None
  end.

(** The loop keeps the last rank seen with count 3 and the last with
    count 2; [three_rank and pair_rank] is the truth value of both. *)
Definition _check_full_house (cards : list Card) : option HandResult :=
  let rank_counts := Counter (ranks_of cards) in
  let '(three_rank, pair_rank) :=
    fold_left (λ (st : option Z * option Z) (rc : Z * Z),
                 if bool_decide (rc.2 = 3) then (Some rc.1, st.2)
                 else if bool_decide (rc.2 = 2) then (st.1, Some rc.1)
                 else st)
              rank_counts (None, None) in
  match three_rank, pair_rank with
  | Some t, Some p =>
      if bool_decide (t ≠ 0) && bool_decide (p ≠ 0)
      then Some (mkHandResult FULL_HOUSE cards [t; p])
      else None
  | _, _ => None
  end.

Definition _check_three_of_a_kind (cards : list Card) : option HandResult :=
  let rank_counts := Counter (ranks_of cards) in
  match ranks_with_count 3 rank_counts with
  | rank :: _ =>
      let kickers := sorted id true (ranks_with_count 1 rank_counts) in
      Some (mkHandResult THREE_OF_A_KIND cards (rank :: kickers))
  | [] => None
  end.

Definition _check_two_pair (cards : list Card) : result (option HandResult) :=
  let rank_counts := Counter (ranks_of cards) in
  let pairs := ranks_with_count 2 rank_counts in
  if bool_decide (length pairs = 2%nat) then
    match ranks_with_count 1 rank_counts with
    | kicker :: _ =>
        Ok (Some (mkHandResult TWO_PAIR cards (sorted id true pairs ++ [kicker])))
    | [] => Raise IndexError
    end
  else Ok None.

Definition _check_one_pair (cards : list Card) : option HandResult :=
  let rank_counts := Counter (ranks_of cards) in
  match ranks_with_count 2 rank_counts with
  | rank :: _ =>
      let kickers := sorted id true (ranks_with_count 1 rank_counts) in
      Some (mkHandResult ONE_PAIR cards (rank :: kickers))
  | [] => None
  end.

Definition _evaluate_five_cards (cards : list Card) : result HandResult :=
  if bool_decide (length cards ≠ 5%nat) then Raise ValueError
  else
    let sorted_cards := sorted rank_value_of true cards in
    if _is_royal_flush sorted_cards
    then Ok (mkHandResult ROYAL_FLUSH sorted_cards [14])
    else
      sf ← _is_straight_flush sorted_cards;
      if sf : bool then
        high_card ← _get_straight_high_card sorted_cards;
        Ok (mkHandResult STRAIGHT_FLUSH sorted_cards [high_card])
      else
        four_kind_result ← _check_four_of_a_kind sorted_cards;
        match four_kind_result with
        | Some r => Ok r
        | None =>
        match _check_full_house sorted_cards with
        | Some r => Ok r
        | None =>
        if _is_flush sorted_cards
        then Ok (mkHandResult FLUSH sorted_cards (ranks_of sorted_cards))
        else
          st ← _is_straight sorted_cards;
          if st : bool then
            high_card ← _get_straight_high_card sorted_cards;
            Ok (mkHandResult STRAIGHT sorted_cards [high_card])
          else
            match _check_three_of_a_kind sorted_cards with
            | Some r => Ok r
            | None =>
            two_pair_result ← _check_two_pair sorted_cards;
            match two_pair_result with
            | Some r => Ok r
            | None =>
            match _check_one_pair sorted_cards with
            | Some r => Ok r
            | None =>
                Ok (mkHandResult HIGH_CARD sorted_cards (ranks_of sorted_cards))
            end end end
        end end.

(** One turn of the loop over the five-card combinations. *)
Definition best_step (best_hand : option HandResult) (five_cards : list Card)
    : result (option HandResult) :=
  hand_result ← _evaluate_five_cards five_cards;
  match best_hand with
  | None => Ok (Some hand_result)
  | Some b => if gt hand_result b then Ok (Some hand_result) else Ok (Some b)
  end.

Fixpoint best_loop (best_hand : option HandResult) (combos : list (list Card))
    : result (option HandResult) :=
  match combos with
  | [] => Ok best_hand
  | five_cards :: rest =>
      b ← best_step best_hand five_cards;
      best_loop b rest
  end.

(** [evaluate_hand]: the value is [best_hand], [None] before the first
    combination has been seen. *)
Definition evaluate_hand (cards : list Card) : result (option HandResult) :=
  if bool_decide (length cards ≠ 7%nat) then Raise ValueError
  else best_loop None (combinations cards 5).

(** [compare_hands]: 1, -1 or 0; a [None] from [evaluate_hand] cannot be
    compared. *)
Definition compare_hands (hand1 hand2 : list Card) : result Z :=
  result1 ← evaluate_hand hand1;
  result2 ← evaluate_hand hand2;
  match result1, result2 with
  | Some r1, Some r2 =>
      if gt r1 r2 then Ok 1
      else if lt r1 r2 then Ok (-1)
      else Ok 0
  | _, _ => Raise TypeError
  end.

End HandEvaluator.

(** ** pot.py *)

Module Pot.

(** A reference to a player object: its position in the store. *)
Definition PlayerRef : Type := nat.

Record SidePot : Type := mkSidePot {
  amount : Z;
  eligible_players : list PlayerRef
}.

Record Pot : Type := mkPot {
  main_pot : Z;
  side_pots : list SidePot;
  player_contributions : gmap nat Z
}.

(** [Pot()] and [reset] *)
Definition new : Pot := mkPot 0 [] ∅.

Definition reset (pot : Pot) : Pot := new.

Definition add_bet (player : PlayerRef) (amount : Z) (pot : Pot) : Pot :=
  let contributions :=
    match player_contributions pot !! player with
    | None => <[player := 0]> (player_contributions pot)
    | Some _ => player_contributions pot
    end in
  mkPot (main_pot pot + amount) (side_pots pot)
        (<[player := default 0 (contributions !! player) + amount]> contributions).

Definition get_total_pot (pot : Pot) : Z := main_pot pot.

(** [p.is_in_hand()] through the reference [p]. *)
Definition ref_is_in_hand (store : list Player.Player) (p : PlayerRef) : bool :=
  from_option Player.is_in_hand false (store !! p).

(** The state of the loop of [create_side_pots]. *)
Record LayerState : Type := mkLayerState {
  ls_side_pots : list SidePot;
  previous_amount : Z;
  remaining_players : list PlayerRef
}.

Definition layer_step (store : list Player.Player) (st : LayerState)
    (entry : PlayerRef * Z) : LayerState :=
  let '(current_player, current_amount) := entry in
  let st1 :=
    if previous_amount st <? current_amount then
      let pot_amount :=
        (current_amount - previous_amount st)
        * Z.of_nat (length (remaining_players st)) in
      let pots :=
        if 0 <? pot_amount then
          let eligible := filter (λ p, ref_is_in_hand store p = true)
                                 (remaining_players st) in
          match eligible with
          | [] => ls_side_pots st
          | _ :: _ => ls_side_pots st ++ [mkSidePot pot_amount eligible]
          end
        else ls_side_pots st in
      mkLayerState pots current_amount (remaining_players st)
    else st in
  if bool_decide (current_player ∈ remaining_players st1)
  then mkLayerState (ls_side_pots st1) (previous_amount st1)
                    (remove_first current_player (remaining_players st1))
  else st1.

(** [[(p, contributions[p]) for p in players if p in contributions]] *)
Definition contributions_of (pot : Pot) (players : list PlayerRef)
    : list (PlayerRef * Z) :=
  omap (λ p, pair p <$> player_contributions pot !! p) players.

Definition create_side_pots (store : list Player.Player)
    (players : list PlayerRef) (pot : Pot) : Pot :=
  if bool_decide (player_contributions pot = ∅) then pot
  else
    let contributions := sorted snd false (contributions_of pot players) in
    let final := fold_left (layer_step store) contributions
                           (mkLayerState [] 0 players) in
    mkPot (main_pot pot) (ls_side_pots final) (player_contributions pot).

(** The inner loop of [distribute_winnings], [j] counting the winners
    already paid. *)
Fixpoint pay_winners (j : Z) (amount_per_winner remainder : Z)
    (pot_winners : list PlayerRef) (winnings : gmap nat Z) : gmap nat Z :=
  match pot_winners with
  | [] => winnings
  | winner :: rest =>
      let w0 := default 0 (winnings !! winner) in
      let w1 := w0 + amount_per_winner in
      let w2 := if j <? remainder then w1 + 1 else w1 in
      pay_winners (j + 1) amount_per_winner remainder rest
                  (<[winner := w2]> winnings)
  end.

Definition pay_side_pot (side_pot : SidePot) (winners : list PlayerRef)
    (winnings : gmap nat Z) : gmap nat Z :=
  let pot_winners :=
    filter (λ p, p ∈ eligible_players side_pot) winners in
  match pot_winners with
  | [] => winnings
  | _ :: _ =>
      let n := Z.of_nat (length pot_winners) in
      pay_winners 0 (amount side_pot `div` n) (amount side_pot `mod` n)
                  pot_winners winnings
  end.

(** The outer loop: side pot [i] is paid only while [i] is below
    [len(winners_by_pot)]. *)
Fixpoint distribute_loop (pots : list SidePot)
    (winners_by_pot : list (list PlayerRef)) (winnings : gmap nat Z)
    : gmap nat Z :=
  match pots, winners_by_pot with
  | side_pot :: pots', winners :: rest =>
      distribute_loop pots' rest (pay_side_pot side_pot winners winnings)
  | _, _ => winnings
  end.

Definition distribute_winnings (winners_by_pot : list (list PlayerRef))
    (pot : Pot) : gmap nat Z :=
  distribute_loop (side_pots pot) winners_by_pot ∅.

Definition has_side_pots (pot : Pot) : bool :=
  bool_decide (0 < length (side_pots pot))%nat.

End Pot.

(** ** game_engine.py *)

Module Game.
Import Player.

Inductive GamePhase : Type :=
| WAITING | PRE_FLOP | FLOP | TURN | RIVER | SHOWDOWN | HAND_COMPLETE.

#[global] Instance GamePhase_eq_dec : EqDecision GamePhase.
Proof. solve_decision. Defined.

(** The attributes of [Game] that the hand logic reads or writes
    ([mode] and [hand_history] are never used by it).  A player object
    is referred to by its seat, the position in [players]. *)
Record Game : Type := mkGame {
  small_blind : Z;
  big_blind : Z;
  phase : GamePhase;
  hand_number : Z;
  players : list Player;
  deck : Card.Deck;
  community_cards : list Card.Card;
  pot : Pot.Pot;
  dealer_position : Z;
  current_player_index : Z;
  last_raiser_index : Z;
  current_bet : Z;
  min_raise : Z
}.

Definition set_players (ps : list Player) (g : Game) : Game :=
  mkGame (small_blind g) (big_blind g) (phase g) (hand_number g) ps
         (deck g) (community_cards g) (pot g) (dealer_position g)
         (current_player_index g) (last_raiser_index g)
         (current_bet g) (min_raise g).

Definition set_phase (ph : GamePhase) (g : Game) : Game :=
  mkGame (small_blind g) (big_blind g) ph (hand_number g) (players g)
         (deck g) (community_cards g) (pot g) (dealer_position g)
         (current_player_index g) (last_raiser_index g)
         (current_bet g) (min_raise g).

Definition set_pot (pt : Pot.Pot) (g : Game) : Game :=
  mkGame (small_blind g) (big_blind g) (phase g) (hand_number g) (players g)
         (deck g) (community_cards g) pt (dealer_position g)
         (current_player_index g) (last_raiser_index g)
         (current_bet g) (min_raise g).

Definition set_current_player_index (i : Z) (g : Game) : Game :=
  mkGame (small_blind g) (big_blind g) (phase g) (hand_number g) (players g)
         (deck g) (community_cards g) (pot g) (dealer_position g)
         i (last_raiser_index g) (current_bet g) (min_raise g).

(** Assignment to [current_bet], [min_raise] and [last_raiser_index]. *)
Definition set_betting (cb mr lr : Z) (g : Game) : Game :=
  mkGame (small_blind g) (big_blind g) (phase g) (hand_number g) (players g)
         (deck g) (community_cards g) (pot g) (dealer_position g)
         (current_player_index g) lr cb mr.

Definition set_cards (d : Card.Deck) (cc : list Card.Card) (g : Game) : Game :=
  mkGame (small_blind g) (big_blind g) (phase g) (hand_number g) (players g)
         d cc (pot g) (dealer_position g)
         (current_player_index g) (last_raiser_index g)
         (current_bet g) (min_raise g).

(** [[i for i, p in enumerate(self.players) if P(p)]] *)
Definition seats_where (P : Player → bool) (ps : list Player) : list Z :=
  map fst (filter (λ ip, P ip.2 = true) (zip (seqZ 0 (Z.of_nat (length ps))) ps)).

(** [[p for p in self.players if P(p)]], as references. *)
Definition refs_where (P : Player → bool) (ps : list Player) : list nat :=
  map fst (filter (λ ip, P ip.2 = true) (zip (seq 0 (length ps)) ps)).

Definition nplayers (g : Game) : Z := Z.of_nat (length (players g)).

(** In both blind positions the index into [active_players] is taken
    modulo its length, so the lookup is in range; [default] is never
    used. *)
Definition _get_small_blind_position (g : Game) : Z :=
  let active_players := seats_where (λ p, 0 <? chips p) (players g) in
  let n := Z.of_nat (length active_players) in
  if n <? 2 then 0
  else
    let dealer_idx := dealer_position g in
    if n =? 2 then dealer_idx
    else
      let dealer_pos_in_active :=
        Z.of_nat (default O (index_of dealer_idx active_players)) in
      default 0 (active_players !! Z.to_nat ((dealer_pos_in_active + 1) `mod` n)).

Definition _get_big_blind_position (g : Game) : Z :=
  let active_players := seats_where (λ p, 0 <? chips p) (players g) in
  let n := Z.of_nat (length active_players) in
  if n <? 2 then 1
  else
    let dealer_idx := dealer_position g in
    let dealer_pos_in_active :=
      Z.of_nat (default O (index_of dealer_idx active_players)) in
    if n =? 2
    then default 0 (active_players !! Z.to_nat ((dealer_pos_in_active + 1) `mod` n))
    else default 0 (active_players !! Z.to_nat ((dealer_pos_in_active + 2) `mod` n)).

(** [for i in range(lo, hi): pos = (start + i) % n; if pos in active: ...]:
    the first position found, if any. *)
Definition first_seat_from (start lo hi n : Z) (active : list Z) : option Z :=
  List.find (λ pos, bool_decide (pos ∈ active))
            (map (λ i, (start + i) `mod` n) (seqZ lo (hi - lo))).

Definition _set_first_player_to_act (g : Game) : Game :=
  let active_players := seats_where can_act (players g) in
  match active_players with
  | [] => g
  | first_active :: _ =>
      let n := nplayers g in
      if bool_decide (phase g = PRE_FLOP) then
        if n =? 2 then set_current_player_index (dealer_position g) g
        else
          let big_blind_pos := _get_big_blind_position g in
          match first_seat_from big_blind_pos 1 n n active_players with
          | Some next_pos => set_current_player_index next_pos g
          | None => g
          end
      else
        if n =? 2 then
          let non_dealer := (dealer_position g + 1) `mod` n in
          if bool_decide (non_dealer ∈ active_players)
          then set_current_player_index non_dealer g
          else set_current_player_index (dealer_position g) g
        else
          let small_blind_pos := _get_small_blind_position g in
          match first_seat_from small_blind_pos 0 n n active_players with
          | Some check_pos => set_current_player_index check_pos g
          | None => set_current_player_index first_active g
          end
  end.

Definition _move_to_next_active_player (g : Game) : Game :=
  let active_players := seats_where can_act (players g) in
  match active_players with
  | [] => g
  | first_active :: _ =>
      let n := nplayers g in
      match first_seat_from (current_player_index g) 1 (n + 1) n active_players with
      | Some next_pos => set_current_player_index next_pos g
      | None => set_current_player_index first_active g
      end
  end.

Definition _next_player (g : Game) : Game := _move_to_next_active_player g.

Definition index_in_range (g : Game) : bool :=
  (0 <=? current_player_index g) && (current_player_index g <? nplayers g).

(** [get_current_player]: the player returned (as a reference) and the
    game, whose actor index the call may have moved. *)
Definition get_current_player (g : Game) : option nat * Game :=
  if index_in_range g then
    match players g !! Z.to_nat (current_player_index g) with
    | Some current_player =>
        if negb (can_act current_player) then
          let g' := _move_to_next_active_player g in
          if index_in_range g'
          then (Some (Z.to_nat (current_player_index g')), g')
          else (None, g')
        else (Some (Z.to_nat (current_player_index g)), g)
    | None => (None, g)
    end
  else (None, g).

Definition get_valid_actions (g : Game) (player : Player) : list PlayerAction :=
  if negb (can_act player) then []
  else
    let actions := [FOLD] in
    let actions :=
      if Player.current_bet player =? current_bet g
      then actions ++ [CHECK]
      else
        let call_amount := current_bet g - Player.current_bet player in
        if call_amount <=? chips player then actions ++ [CALL] else actions in
    let min_raise_amount := current_bet g + min_raise g in
    let actions :=
      if min_raise_amount - Player.current_bet player <=? chips player
      then actions ++ [RAISE] else actions in
    if 0 <? chips player then actions ++ [ALLIN] else actions.

Definition _is_betting_round_complete (g : Game) : bool :=
  let active_players := filter (λ p, can_act p = true) (players g) in
  if (length active_players <=? 1)%nat then true
  else if negb (forallb (λ p, bool_decide (last_action p ≠ None)) active_players)
  then false
  else
    let in_hand_players := filter (λ p, is_in_hand p = true) (players g) in
    if (length in_hand_players <=? 1)%nat then true
    else
      let max_bet := max_of (map Player.current_bet in_hand_players) in
      forallb (λ p, bool_decide (status p = ALL_IN)
                    || bool_decide (Player.current_bet p = max_bet))
              in_hand_players.

(** Burn one card, then deal [n] community cards. *)
Definition deal_community (n : nat) (g : Game) : Game :=
  let '(_, d1) := Card.deal_card (deck g) in
  let '(cs, d2) := Card.deal_cards n d1 in
  set_cards d2 (community_cards g ++ cs) g.

Definition _deal_flop (g : Game) : Game := deal_community 3 g.
Definition _deal_turn (g : Game) : Game := deal_community 1 g.
Definition _deal_river (g : Game) : Game := deal_community 1 g.

(** The players that satisfy [P], each with its reference, in seat order. *)
Definition seated_where (P : Player → bool) (ps : list Player)
    : list (nat * Player) :=
  filter (λ ip, P ip.2 = true) (zip (seq 0 (length ps)) ps).

(** [max(player_hands.values())]: the first maximal value. *)
Definition best_of (first : HandEvaluator.HandResult)
    (rest : list HandEvaluator.HandResult) : HandEvaluator.HandResult :=
  fold_left (λ best h, if HandEvaluator.gt h best then h else best) rest first.

(** [player_hands] is a dict filled in seat order: an association list. *)
Definition _determine_winners
    (player_hands : list (nat * HandEvaluator.HandResult)) : list nat :=
  match player_hands with
  | [] => []
  | (_, h) :: rest =>
      let best_hand := best_of h (map snd rest) in
      map fst (filter (λ ph, HandEvaluator.eq ph.2 best_hand = true) player_hands)
  end.

(** The hands of the players at showdown.  [evaluate_hand] returns an
    object for every seven-card input; a [None] among the values would
    make the comparison in [max] raise. *)
Fixpoint evaluate_players (community : list Card.Card)
    (active : list (nat * Player))
    : result (list (nat * HandEvaluator.HandResult)) :=
  match active with
  | [] => Ok []
  | (r, player) :: rest =>
      hand_result ← HandEvaluator.evaluate_hand (hole_cards player ++ community);
      match hand_result with
      | None => Raise TypeError
      | Some h =>
          hands ← evaluate_players community rest;
          Ok ((r, h) :: hands)
      end
  end.

(** The payout loop of [_showdown], [i] counting the winners paid. *)
Fixpoint pay_showdown (i : Z) (amount_per_winner remainder : Z)
    (winners : list nat) (ps : list Player) : list Player :=
  match winners with
  | [] => ps
  | winner :: rest =>
      let amount :=
        if i <? remainder then amount_per_winner + 1 else amount_per_winner in
      pay_showdown (i + 1) amount_per_winner remainder rest
                   (alter (win_chips amount) winner ps)
  end.

Definition _showdown (g : Game) : result Game :=
  let active_players := seated_where is_in_hand (players g) in
  match active_players with
  | [] => Ok (set_phase HAND_COMPLETE g)
  | [(winner, _)] =>
      Ok (set_phase HAND_COMPLETE
            (set_players
               (alter (win_chips (Pot.get_total_pot (pot g))) winner (players g))
               g))
  | _ =>
      player_hands ← evaluate_players (community_cards g) active_players;
      let winners := _determine_winners player_hands in
      match winners with
      | [] => Ok (set_phase HAND_COMPLETE g)
      | _ :: _ =>
          let total_pot := Pot.get_total_pot (pot g) in
          let n := Z.of_nat (length winners) in
          Ok (set_phase HAND_COMPLETE
                (set_players
                   (pay_showdown 0 (total_pot `div` n) (total_pot `mod` n)
                                 winners (players g))
                   g))
      end
  end.

Definition _handle_single_winner (g : Game) : Game :=
  let players_in_hand := seated_where is_in_hand (players g) in
  let g1 :=
    match players_in_hand with
    | [(winner, _)] =>
        set_players
          (alter (win_chips (Pot.get_total_pot (pot g))) winner (players g)) g
    | _ => g
    end in
  set_phase HAND_COMPLETE g1.

Definition _advance_to_next_phase (g : Game) : result Game :=
  let g1 := set_players (new_betting_round <$> players g) g in
  let g2 := set_betting 0 (big_blind g1) (last_raiser_index g1) g1 in
  g3 ← match phase g2 with
       | PRE_FLOP => Ok (set_phase FLOP (_deal_flop g2))
       | FLOP => Ok (set_phase TURN (_deal_turn g2))
       | TURN => Ok (set_phase RIVER (_deal_river g2))
       | RIVER => _showdown g2
       | _ => Ok g2
       end;
  if bool_decide (phase g3 ∈ [FLOP; TURN; RIVER])
  then Ok (_set_first_player_to_act g3)
  else Ok g3.

(** The branch of [player_action] for one action, on the acting player
    at seat [i]; [None] is the early [return False]. *)
Definition apply_action (g : Game) (i : nat) (player : Player)
    (action : PlayerAction) (amount : Z) : option Game :=
  match action with
  | FOLD => Some (set_players (<[i := fold player]> (players g)) g)
  | CHECK =>
      if bool_decide (Player.current_bet player ≠ current_bet g) then None
      else Some (set_players
                   (<[i := set_last_action (Some CHECK) player]> (players g)) g)
  | CALL =>
      let '(actual_amount, player') := call (current_bet g) player in
      Some (set_pot (Pot.add_bet i actual_amount (pot g))
              (set_players (<[i := player']> (players g)) g))
  | RAISE =>
      if amount <? current_bet g + min_raise g then None
      else
        let '(actual_amount, player') := raise_bet amount player in
        let g1 := set_pot (Pot.add_bet i actual_amount (pot g))
                    (set_players (<[i := player']> (players g)) g) in
        let new_bet := Player.current_bet player' in
        Some (set_betting new_bet (amount - (new_bet - actual_amount))
                          (current_player_index g1) g1)
  | ALLIN =>
      let '(actual_amount, player') := all_in player in
      let g1 := set_pot (Pot.add_bet i actual_amount (pot g))
                  (set_players (<[i := player']> (players g)) g) in
      if current_bet g1 <? Player.current_bet player' then
        let old_bet := current_bet g1 in
        Some (set_betting (Player.current_bet player')
                          (Player.current_bet player' - old_bet)
                          (current_player_index g1) g1)
      else Some g1
  end.

(** [player_action(player, action, amount)] for the player object seated
    at [i].  The value is the boolean returned and the game afterwards;
    [Raise] is an exception that escapes from the showdown. *)
Definition player_action (g : Game) (i : nat) (action : PlayerAction)
    (amount : Z) : result (bool * Game) :=
  match players g !! i with
  | None => Ok (false, g)
  | Some player =>
      if negb (can_act player) then Ok (false, g)
      else
        let '(current, g0) := get_current_player g in
        if bool_decide (current ≠ Some i) then Ok (false, g0)
        else
          let valid_actions := get_valid_actions g0 player in
          if bool_decide (action ∉ valid_actions) then Ok (false, g0)
          else
            match apply_action g0 i player action amount with
            | None => Ok (false, g0)
            | Some g1 =>
                let g2 := _next_player g1 in
                let players_in_hand := seated_where is_in_hand (players g2) in
                if (length players_in_hand <=? 1)%nat
                then Ok (true, _handle_single_winner g2)
                else if _is_betting_round_complete g2 then
                  g3 ← _advance_to_next_phase g2;
                  Ok (true, g3)
                else Ok (true, g2)
            end
  end.

(** [add_player]: the player object joins at the end of the seat list. *)
Definition add_player (player : Player) (g : Game) : bool * Game :=
  if (6 <=? length (players g))%nat then (false, g)
  else if existsb (λ p, bool_decide (name p = name player)) (players g)
  then (false, g)
  else
    let seated := sit_in (set_position (nplayers g) player) in
    (true, set_players (players g ++ [seated]) g).

(** [remove_player], on the seat list: the first seat with the name is
    dropped and the positions are renumbered. *)
Fixpoint drop_named (player_name : string) (ps : list Player)
    : option (list Player) :=
  match ps with
  | [] => None
  | p :: ps' =>
      if bool_decide (name p = player_name) then Some ps'
      else cons p <$> drop_named player_name ps'
  end.

Definition renumber (ps : list Player) : list Player :=
  imap (λ j p, set_position (Z.of_nat j) p) ps.

Definition remove_player_seats (player_name : string) (ps : list Player)
    : bool * list Player :=
  match drop_named player_name ps with
  | Some ps' => (true, renumber ps')
  | None => (false, ps)
  end.

(** [remove_player] on the game: only the seat list changes.

    A player is named here by the seat index and the ledger of the pot
    is keyed by these names, whereas the Python dict is keyed by the
    player objects.  After a removal in the middle of a hand the entries
    of the ledger therefore still carry the seat numbers from before the
    renumbering; the statements about [remove_player] speak of the seat
    list only and none reads the pot after a removal.  [start_new_hand]
    starts from a fresh pot, after which the two views agree again. *)
Definition remove_player (player_name : string) (g : Game) : bool * Game :=
  let '(removed, ps) := remove_player_seats player_name (players g) in
  (removed, set_players ps g).

Definition can_start_game (g : Game) : bool :=
  (2 <=? length (filter (λ p, (0 < chips p)%Z) (players g)))%nat.

Definition set_dealer_position (d : Z) (g : Game) : Game :=
  mkGame (small_blind g) (big_blind g) (phase g) (hand_number g) (players g)
         (deck g) (community_cards g) (pot g) d
         (current_player_index g) (last_raiser_index g)
         (current_bet g) (min_raise g).

Definition _move_dealer_button (g : Game) : Game :=
  let active_players := seats_where (λ p, 0 <? chips p) (players g) in
  match active_players with
  | [] => g
  | _ :: _ =>
      let n := nplayers g in
      match first_seat_from (dealer_position g) 1 (n + 1) n active_players with
      | Some current_dealer => set_dealer_position current_dealer g
      | None => g
      end
  end.

(** One card from the deck to the player at [r], when there is one. *)
Definition deal_to (r : nat) (g : Game) : Game :=
  match Card.deal_card (deck g) with
  | (Some card, d) =>
      set_cards d (community_cards g)
        (set_players
           (alter (λ p, set_hole_cards (hole_cards p ++ [card]) p) r (players g))
           g)
  | (None, d) => set_cards d (community_cards g) g
  end.

Definition _deal_hole_cards (g : Game) : Game :=
  let active_players := map fst (seated_where (λ p, 0 <? chips p) (players g)) in
  fold_left (λ g r, deal_to r g) (active_players ++ active_players) g.

(** [self.players[idx]]: a negative index counts from the end. *)
Definition seat_at (idx : Z) (g : Game) : result nat :=
  let n := nplayers g in
  if (0 <=? idx) && (idx <? n) then Ok (Z.to_nat idx)
  else if (- n <=? idx) && (idx <? 0) then Ok (Z.to_nat (n + idx))
  else Raise IndexError.

(** [player.post_blind(amount)] on the seat [r], and the bet added to the
    pot. *)
Definition post_blind_at (r : nat) (amount : Z) (g : Game) : Game :=
  match players g !! r with
  | Some player =>
      let '(actual, player') := post_blind amount player in
      set_pot (Pot.add_bet r actual (pot g))
        (set_players (<[r := player']> (players g)) g)
  | None => g
  end.

Definition _post_blinds (g : Game) : result Game :=
  let active_players := seats_where (λ p, 0 <? chips p) (players g) in
  if (length active_players <? 2)%nat then Ok g
  else
    let small_blind_idx := _get_small_blind_position g in
    let big_blind_idx := _get_big_blind_position g in
    sb ← seat_at small_blind_idx g;
    let g1 := post_blind_at sb (small_blind g) g in
    bb ← seat_at big_blind_idx g1;
    let g2 := post_blind_at bb (big_blind g1) g1 in
    Ok (set_betting (big_blind g2) (min_raise g2) (last_raiser_index g2) g2).

(** [start_new_hand]; [shuffled] is the deck as [random.shuffle] leaves
    it, some arrangement of the 52 cards. *)
Definition start_new_hand (shuffled : Card.Deck) (g : Game) : result Game :=
  if negb (can_start_game g) then Raise ValueError
  else
    let g1 :=
      mkGame (small_blind g) (big_blind g) PRE_FLOP (hand_number g + 1)
             ((λ p, add_hand_played (new_hand p)) <$> players g)
             (deck g) [] Pot.new (dealer_position g)
             (current_player_index g) (-1) 0 (big_blind g) in
    let g2 := _move_dealer_button g1 in
    let g3 := set_cards shuffled (community_cards g2) g2 in
    let g4 := _deal_hole_cards g3 in
    g5 ← _post_blinds g4;
    Ok (_set_first_player_to_act g5).

Definition is_hand_complete (g : Game) : bool :=
  bool_decide (phase g = HAND_COMPLETE).

End Game.

(** * Statements: auxiliary definitions

    Traces, reference definitions and the concrete tables used by the
    theorems below. *)

Module PlayerHand.
Import Player.

(** What the orchestrator does to one player object between two deals:
    [new_hand], at most one [post_blind] right after it, then any number
    of betting operations and round resets. *)
Inductive PlayerOp : Type :=
| OpCall (amount : Z)
| OpRaise (total_amount : Z)
| OpAllIn
| OpFold
| OpCheck
| OpSetCheck
| OpNewBettingRound.

Definition run_op (p : Player) (op : PlayerOp) : Player :=
  match op with
  | OpCall amount => (call amount p).2
  | OpRaise total_amount => (raise_bet total_amount p).2
  | OpAllIn => (all_in p).2
  | OpFold => fold p
  | OpCheck => (check p).2
  | OpSetCheck => set_last_action (Some CHECK) p
  | OpNewBettingRound => new_betting_round p
  end.

Definition play_hand (blind : option Z) (ops : list PlayerOp) (p : Player)
    : Player :=
  let p0 := new_hand p in
  let p1 := match blind with
            | Some b => (post_blind b p0).2
            | None => p0
            end in
  fold_left run_op ops p1.

(** The operation [op] leaves [chips + total_bet] alone and returns what
    left the stack. *)
Definition conserves (op : Player → Z * Player) (p : Player) : Prop :=
  chips (op p).2 + total_bet (op p).2 = chips p + total_bet p
  ∧ (op p).1 = chips p - chips (op p).2.

(** The invariant of a hand that started with the stack [stack0]. *)
Definition hand_inv (stack0 : Z) (p : Player) : Prop :=
  0 ≤ chips p ∧ 0 ≤ current_bet p ∧ current_bet p ≤ total_bet p
  ∧ total_bet p ≤ stack0 ∧ chips p + total_bet p = stack0.

Definition alice : Player :=
  mkPlayer "Alice" 1000 0 [] ACTIVE 0 0 None 0 0 0.

End PlayerHand.


(** The completion rule for a betting round, as the specification words
    it: every seat that can act has acted, and every in-hand seat that is
    not all-in has matched the highest current-round contribution among
    the in-hand seats. *)
Module RoundSpec.
Import Player Game.

Definition max_in_hand_bet (g : Game) : Z :=
  max_of (map Player.current_bet
              (filter (λ p, is_in_hand p = true) (players g))).

Definition all_have_acted (g : Game) : Prop :=
  ∀ p, p ∈ players g → can_act p = true → last_action p ≠ None.

Definition all_have_matched (g : Game) : Prop :=
  ∀ p, p ∈ players g → is_in_hand p = true → status p ≠ ALL_IN →
       Player.current_bet p = max_in_hand_bet g.

Definition spec_round_complete (g : Game) : Prop :=
  all_have_acted g ∧ all_have_matched g.

(** The number of seats that can act. *)
Definition n_can_act (g : Game) : nat :=
  length (filter (λ p, can_act p = true) (players g)).

End RoundSpec.

(** Concrete tables. *)
Module Tables.
Import Player Game.

Definition seat (name : string) (chips : Z) (pos : Z) (st : PlayerStatus)
    (cb tb : Z) (la : option PlayerAction) : Player :=
  mkPlayer name chips pos [] st cb tb la 0 0 0.

Definition table (ps : list Player) (pot : Pot.Pot) (ph : GamePhase)
    (dealer idx cb mr : Z) : Game :=
  mkGame 10 20 ph 1 ps [] [] pot dealer idx (-1) cb mr.

(** Heads-up, pre-flop: Bob has moved all-in for 500, Alice has only
    posted the big blind and has not acted. *)
Definition facing_all_in : Game :=
  table [seat "Alice" 980 0 ACTIVE 20 20 None;
         seat "Bob" 0 1 ALL_IN 500 500 (Some ALLIN)]
        (Pot.mkPot 520 [] {[ 0%nat := 20; 1%nat := 500 ]})
        PRE_FLOP 1 0 500 480.

(** A player with 50 chips facing a bet of 100. *)
Definition short_stack : Player := seat "Carol" 50 2 ACTIVE 0 0 None.

Definition bet_of_100 : Game :=
  table [seat "Alice" 900 0 ACTIVE 100 100 (Some RAISE);
         seat "Bob" 900 1 ACTIVE 100 100 (Some CALL);
         short_stack]
        (Pot.mkPot 200 [] {[ 0%nat := 100; 1%nat := 100 ]})
        FLOP 0 2 100 100.

(** The flop has been checked around. *)
Definition all_checked : Game :=
  table [seat "Alice" 900 0 ACTIVE 0 100 (Some CHECK);
         seat "Bob" 900 1 ACTIVE 0 100 (Some CHECK);
         seat "Carol" 0 2 ALL_IN 0 50 None]
        (Pot.mkPot 250 [] {[ 0%nat := 100; 1%nat := 100; 2%nat := 50 ]})
        FLOP 0 0 0 20.

End Tables.

(** Concrete hands. *)
Module Hands.
Import Card.

Definition card (r : Rank) (s : Suit) : Card := mkCard s r.

Definition wheel : list Card :=
  [card FIVE CLUBS; card ACE HEARTS; card THREE SPADES;
   card TWO SPADES; card FOUR DIAMONDS].

Definition six_high : list Card :=
  [card SIX CLUBS; card TWO HEARTS; card THREE SPADES;
   card FIVE SPADES; card FOUR DIAMONDS].

Definition steel_wheel : list Card :=
  [card FIVE CLUBS; card ACE CLUBS; card THREE CLUBS;
   card TWO CLUBS; card FOUR CLUBS].

Definition royal_seven : list Card :=
  [card ACE SPADES; card KING SPADES; card QUEEN SPADES; card JACK SPADES;
   card TEN SPADES; card TWO HEARTS; card THREE HEARTS].

End Hands.

(** An even split with the remainder handed out chip by chip, as the
    specification words it: of a pot [total] split [n] ways, the winner
    in place [j] (counting from 0) gets the quotient, and one chip more
    when [j] is below the remainder. *)
Module Split.

Definition share (total n j : Z) : Z :=
  total `div` n + (if j <? total `mod` n then 1 else 0).

(** What the payout loops credit to the winner in place [i]. *)
Definition amount_at (amount_per_winner remainder i : Z) : Z :=
  if i <? remainder then amount_per_winner + 1 else amount_per_winner.

Definition sum_list_Z (l : list Z) : Z := foldr Z.add 0 l.

End Split.

(** A showdown where the board plays: three players tie. *)
Module TieTable.
Import Card Player Game Hands.

Definition holder (name : string) (pos : Z) (h : list Card) : Player :=
  mkPlayer name 0 pos h ALL_IN 0 0 None 1 0 0.

Definition three_way_tie : Game :=
  mkGame 10 20 RIVER 1
    [holder "Alice" 0 [card TWO HEARTS; card THREE HEARTS];
     holder "Bob" 1 [card TWO DIAMONDS; card THREE DIAMONDS];
     holder "Carol" 2 [card TWO CLUBS; card THREE CLUBS]]
    []
    [card ACE SPADES; card KING SPADES; card QUEEN SPADES;
     card JACK SPADES; card TEN SPADES]
    (Pot.mkPot 100 [] {[ 0%nat := 34; 1%nat := 33; 2%nat := 33 ]})
    0 0 (-1) 0 20.

Definition tie_hands : list (nat * HandEvaluator.HandResult) :=
  match evaluate_players (community_cards three_way_tie)
          (seated_where is_in_hand (players three_way_tie)) with
  | Ok hands => hands
  | Raise _ => []
  end.

End TieTable.

(** Heads-up, right after the blinds: Bob, on the button, had 5 chips and
    is all-in on the small blind of 10; Alice has posted the big blind.
    The actor index is the button, as [_set_first_player_to_act] leaves
    it. *)
Module ShortBlind.
Import Player Game Tables.

Definition short_blind : Game :=
  table [seat "Alice" 980 0 ACTIVE 20 20 None;
         seat "Bob" 0 1 ALL_IN 5 5 None]
        (Pot.mkPot 25 [] {[ 1%nat := 5; 0%nat := 20 ]})
        PRE_FLOP 1 1 20 20.

End ShortBlind.

(** Alice folds to Bob's all-in. *)
Module AfterFold.
Import Player Game Tables.

Definition after_fold : Game :=
  match player_action facing_all_in 0 FOLD 0 with
  | Ok (_, g) => g
  | Raise _ => facing_all_in
  end.

End AfterFold.

(** The side-pot layers as the specification words them: the distinct
    positive contribution levels in ascending order; the layer of a level
    holds the difference to the level below times the number of players
    who contributed at least the level, and is open to those of them who
    are still in the hand. *)
Module LayerSpec.
Import Pot Split.

Definition contribution (pot : Pot) (p : PlayerRef) : Z :=
  default 0 (player_contributions pot !! p).

Definition is_levels (pot : Pot) (players : list PlayerRef)
    (levels : list Z) : Prop :=
  StronglySorted Z.lt (0 :: levels)
  ∧ ∀ l, l ∈ levels ↔ 0 < l ∧ ∃ p, p ∈ players ∧ contribution pot p = l.

Definition spec_layer (store : list Player.Player) (pot : Pot)
    (players : list PlayerRef) (below level : Z) : SidePot :=
  mkSidePot
    ((level - below)
     * Z.of_nat (length (filter (λ p, level ≤ contribution pot p) players)))
    (filter (λ p, level ≤ contribution pot p ∧ ref_is_in_hand store p = true)
            players).

Fixpoint spec_layers (store : list Player.Player) (pot : Pot)
    (players : list PlayerRef) (below : Z) (levels : list Z) : list SidePot :=
  match levels with
  | [] => []
  | level :: rest =>
      spec_layer store pot players below level
      :: spec_layers store pot players level rest
  end.

(** The distinct levels above [below] met along an ascending list. *)
Fixpoint levels_from (below : Z) (l : list Z) : list Z :=
  match l with
  | [] => []
  | a :: l' =>
      if below <? a then a :: levels_from a l' else levels_from below l'
  end.

(** A layer that some player can still win. *)
Definition open_layer (sp : SidePot) : Prop := eligible_players sp ≠ [].

Definition total_amount (pots : list SidePot) : Z :=
  sum_list_Z (map amount pots).

Definition total_contributed (pot : Pot) (players : list PlayerRef) : Z :=
  sum_list_Z (map (contribution pot) players).

(** Alice has put in 100 and folded; Bob is all-in for 50. *)
Definition folded_leader : list Player.Player :=
  [Tables.seat "Alice" 900 0 Player.FOLDED 0 100 (Some Player.FOLD);
   Tables.seat "Bob" 0 1 Player.ALL_IN 0 50 (Some Player.ALLIN)].

Definition folded_leader_pot : Pot :=
  mkPot 150 [] {[ 0%nat := 100; 1%nat := 50 ]}.

(** Alice (50 chips) and Bob (200 chips) are both all-in. *)
Definition two_all_in : list Player.Player :=
  [Tables.seat "Alice" 0 0 Player.ALL_IN 50 50 (Some Player.ALLIN);
   Tables.seat "Bob" 0 1 Player.ALL_IN 200 200 (Some Player.ALLIN)].

Definition two_all_in_pot : Pot :=
  mkPot 250 [] {[ 0%nat := 50; 1%nat := 200 ]}.

End LayerSpec.


(** Totals over the pot ledger's dictionaries. *)
Module Ledger.
Import Pot Split.

(** The sum of the values of a dictionary keyed by players. *)
Definition map_total (m : gmap nat Z) : Z :=
  map_fold (λ _ v acc, v + acc) 0 m.

(** A hand's chip movements, in order: who bet and how much. *)
Definition record_bets (bets : list (PlayerRef * Z)) : Pot :=
  fold_left (λ pot b, add_bet b.1 b.2 pot) bets Pot.new.

(** What [distribute_winnings] owes for one side pot: its amount when one
    of the listed winners is eligible for it, nothing otherwise. *)
Definition owed (side_pot : SidePot) (winners : list PlayerRef) : Z :=
  match filter (λ p, p ∈ eligible_players side_pot) winners with
  | [] => 0
  | _ :: _ => amount side_pot
  end.

End Ledger.

Module Bank.
Import Player Game Split.

(** The chips in the stacks of the seated players. *)
Definition chips_total (ps : list Player) : Z := sum_list_Z (chips <$> ps).

(** All the chips on the table: the stacks and the pot. *)
Definition table_total (g : Game) : Z :=
  chips_total (players g) + Pot.get_total_pot (pot g).

End Bank.

Module Seats.
Import Player Game.

(** The seat list as [add_player] and [remove_player] keep it: no name
    twice, at most six seats, and each player's [position] is the index
    of the seat. *)
Definition seats_ok (ps : list Player) : Prop :=
  NoDup (name <$> ps)
  ∧ (length ps ≤ 6)%nat
  ∧ ∀ (j : nat) p, ps !! j = Some p → position p = Z.of_nat j.

(** A player apart from the seat number. *)
Definition unseated (p : Player) : Player := set_position 0 p.

Definition empty_table : Game :=
  mkGame 10 20 WAITING 0 [] [] [] Pot.new 0 0 (-1) 0 20.

Definition bob : Player := mkPlayer "Bob" 500 0 [] SITTING_OUT 0 0 None 0 0 0.

End Seats.

Module Dealing.
Import Player Game.

(** The game apart from the deck and the hole cards. *)
Definition strip (g : Game) : Game :=
  set_cards [] (community_cards g)
    (set_players (set_hole_cards [] <$> players g) g).

(** The seats with chips, in seat order: the players that are dealt in. *)
Definition funded_seats (g : Game) : list nat :=
  map fst (seated_where (λ p, 0 <? chips p) (players g)).

(** Two players with chips at a fresh table, and their first hand dealt
    from the deck in its initial order. *)
Definition heads_up : Game :=
  mkGame 10 20 WAITING 0
    [mkPlayer "Alice" 1000 0 [] ACTIVE 0 0 None 0 0 0;
     mkPlayer "Bob" 500 1 [] ACTIVE 0 0 None 0 0 0]
    Card.reset [] Pot.new 0 0 (-1) 0 20.

Definition first_hand : Game :=
  match start_new_hand Card.reset heads_up with
  | Ok g => g
  | Raise _ => heads_up
  end.

End Dealing.

Module Replay.
Import Player Game Tables Bank.

(** Heads-up before the flop: Bob, on the button, has posted the small
    blind and Alice the big blind. *)
Definition blinds_posted : Game :=
  table [seat "Alice" 980 0 ACTIVE 20 20 None;
         seat "Bob" 990 1 ACTIVE 10 10 None]
        (Pot.mkPot 30 [] {[ 1%nat := 10; 0%nat := 20 ]})
        PRE_FLOP 1 1 20 20.

(** Bob folds: the hand is over and Alice has been paid the pot. *)
Definition won_by_fold : Game :=
  match player_action blinds_posted 1 FOLD 0 with
  | Ok (_, g) => g
  | Raise _ => blinds_posted
  end.

End Replay.

Module Payout.
Import Pot Split.

(** What the player [w] is due from one pot of [amount] that is split
    among [pot_winners], in the order of that list: the share of every
    place that [w] holds in it. *)
Definition due (amount : Z) (pot_winners : list PlayerRef) (w : PlayerRef)
    : Z :=
  sum_list_Z
    (imap (λ j x, if decide (x = w)
                  then share amount (Z.of_nat (length pot_winners)) (Z.of_nat j)
                  else 0)
          pot_winners).

(** The winners of a side pot are the listed winners that are eligible
    for it. *)
Definition due_from (side_pot : SidePot) (winners : list PlayerRef)
    (w : PlayerRef) : Z :=
  due (amount side_pot)
      (filter (λ p, p ∈ eligible_players side_pot) winners) w.

End Payout.

(** ** The hand categories, as the rules of the game define them

    The conditions below are stated on the cards themselves (how often a
    rank occurs, whether the suits agree, whether the ranks form a run)
    and not through the checks of the evaluator; they are what the
    evaluator is compared with. *)
Module Category.
Import Card HandEvaluator.

(** How often the rank [r] occurs among the ranks [rs]. *)
Fixpoint times (r : Z) (rs : list Z) : Z :=
  match rs with
  | [] => 0
  | x :: rs' => (if bool_decide (x = r) then 1 else 0) + times r rs'
  end.

(** Some rank occurs exactly [n] times. *)
Definition has_times (n : Z) (rs : list Z) : bool :=
  existsb (λ r, times r rs =? n) rs.

(** Two different ranks occur exactly twice each. *)
Definition two_pairs (rs : list Z) : bool :=
  existsb (λ r, existsb (λ r', negb (bool_decide (r = r'))
                              && (times r rs =? 2) && (times r' rs =? 2)) rs)
          rs.

(** All the cards share one suit. *)
Definition one_suit (cs : list Card) : bool :=
  match cs with
  | [] => false
  | c :: cs' => forallb (λ c', bool_decide (suit c' = suit c)) cs'
  end.

(** Each of the ranks [wanted] occurs. *)
Definition has_all (wanted rs : list Z) : bool :=
  forallb (λ r, bool_decide (r ∈ rs)) wanted.

(** Among five cards: five distinct ranks forming a contiguous run, or
    the wheel 2, 3, 4, 5, 14. *)
Definition straight (rs : list Z) : bool :=
  existsb (λ lo, has_all (seqZ lo 5) rs) rs || has_all [2; 3; 4; 5; 14] rs.

(** The condition of each category on a five-card hand. *)
Definition holds (category : HandRank) (cs : list Card) : bool :=
  let rs := ranks_of cs in
  match category with
  | ROYAL_FLUSH => one_suit cs && has_all [10; 11; 12; 13; 14] rs
  | STRAIGHT_FLUSH => one_suit cs && straight rs
  | FOUR_OF_A_KIND => has_times 4 rs
  | FULL_HOUSE => has_times 3 rs && has_times 2 rs
  | FLUSH => one_suit cs
  | STRAIGHT => straight rs
  | THREE_OF_A_KIND => has_times 3 rs
  | TWO_PAIR => two_pairs rs
  | ONE_PAIR => has_times 2 rs
  | HIGH_CARD => true
  end.

(** The categories in descending priority. *)
Definition priority : list HandRank :=
  [ROYAL_FLUSH; STRAIGHT_FLUSH; FOUR_OF_A_KIND; FULL_HOUSE; FLUSH; STRAIGHT;
   THREE_OF_A_KIND; TWO_PAIR; ONE_PAIR; HIGH_CARD].

(** The first category, in descending priority, whose condition holds. *)
Definition category (cs : list Card) : HandRank :=
  default HIGH_CARD (List.find (λ c, holds c cs) priority).

End Category.
(** * Player state: chip conservation *)

Section player_proofs.
Import Player PlayerHand.

Ltac unfold_ops :=
  unfold conserves, call, raise_bet, all_in, post_blind, check, fold,
    new_betting_round, new_hand, set_bets, set_status, set_last_action.

Ltac split_ifs :=
  repeat (case_bool_decide || case_match); simpl in *.

Lemma call_conserves amount p : conserves (call amount) p.
Proof. unfold_ops. split_ifs; lia. Qed.

Lemma raise_bet_conserves amount p : conserves (raise_bet amount) p.
Proof. unfold_ops. split_ifs; lia. Qed.

Lemma all_in_conserves p : conserves all_in p.
Proof. unfold_ops. split_ifs; lia. Qed.

Lemma post_blind_moved amount p :
  (post_blind amount p).1 = chips p - chips (post_blind amount p).2.
Proof. unfold_ops. split_ifs; lia. Qed.

Lemma post_blind_sum amount p :
  chips (post_blind amount p).2 + total_bet (post_blind amount p).2
  = chips p.
Proof. unfold_ops. split_ifs; lia. Qed.

Lemma run_op_inv stack0 p op : hand_inv stack0 p → hand_inv stack0 (run_op p op).
Proof.
  unfold hand_inv. intros (?&?&?&?&?).
  destruct op; simpl; unfold_ops; split_ifs; lia.
Qed.

Lemma run_ops_inv stack0 ops p :
  hand_inv stack0 p → hand_inv stack0 (fold_left run_op ops p).
Proof.
  revert p. induction ops as [|op ops IH]; intros p Hp; simpl; [done|].
  apply IH. by apply run_op_inv.
Qed.

Lemma new_hand_inv p : 0 ≤ chips p → hand_inv (chips p) (new_hand p).
Proof. unfold hand_inv, new_hand. simpl. lia. Qed.

Lemma post_blind_inv b p :
  0 ≤ b → 0 ≤ chips p → hand_inv (chips p) (post_blind b (new_hand p)).2.
Proof. unfold hand_inv. unfold_ops. intros. split_ifs; lia. Qed.

(** C9 (as amended): [call], [raise_bet] and [all_in] keep
    [chips + total_bet] and return exactly what left the stack, in every
    state; [post_blind] returns what left the stack and keeps the sum
    exactly when nothing was contributed to the hand before it; and over
    a hand (new_hand, an optional non-negative blind, then any betting
    operations) current_bet ≤ total_bet ≤ the stack at hand start, with
    chips + total_bet equal to that stack. *)
Theorem C9_chip_conservation (p : Player) (blind : option Z)
    (ops : list PlayerOp) :
  0 ≤ chips p →
  (∀ b, blind = Some b → 0 ≤ b) →
  (∀ q amount,
      conserves (call amount) q ∧ conserves (raise_bet amount) q
      ∧ conserves all_in q)
  ∧ (∀ q amount,
      (post_blind amount q).1 = chips q - chips (post_blind amount q).2
      ∧ (chips (post_blind amount q).2 + total_bet (post_blind amount q).2
         = chips q + total_bet q ↔ total_bet q = 0))
  ∧ (let p' := play_hand blind ops p in
     current_bet p' ≤ total_bet p' ∧ total_bet p' ≤ chips p
     ∧ chips p' + total_bet p' = chips p).
Proof.
  intros Hchips Hblind. split; [|split].
  - intros q amount.
    eauto using call_conserves, raise_bet_conserves, all_in_conserves.
  - intros q amount. split; [apply post_blind_moved|].
    rewrite post_blind_sum. lia.
  - assert (hand_inv (chips p) (play_hand blind ops p)) as (?&?&?&?&?).
    { unfold play_hand. apply run_ops_inv.
      destruct blind as [b|]; [apply post_blind_inv; auto|by apply new_hand_inv]. }
    simpl. lia.
Qed.

Lemma C9_chip_conservation_witness :
  let p' := play_hand (Some 50) [OpCall 100; OpRaise 200; OpNewBettingRound; OpAllIn] alice in
  current_bet p' ≤ total_bet p' ∧ total_bet p' ≤ 1000
  ∧ chips p' + total_bet p' = 1000.
Proof.
  refine (proj2 (proj2 (C9_chip_conservation alice (Some 50)
            [OpCall 100; OpRaise 200; OpNewBettingRound; OpAllIn] _ _))).
  - simpl. lia.
  - intros b [= <-]. lia.
Defined.

(** C9 as stated fails for [post_blind]: it overwrites [total_bet], so on
    a player who has already contributed 30 the sum drops from 130 to
    100. *)
Lemma C9_post_blind_counterexample :
  let p := mkPlayer "Alice" 100 0 [] ACTIVE 30 30 None 0 0 0 in
  chips (post_blind 20 p).2 + total_bet (post_blind 20 p).2
  ≠ chips p + total_bet p.
Proof. vm_compute. discriminate. Qed.

End player_proofs.

(** * Legal actions and the end of a betting round *)

Section game_rules.
Import Player Game RoundSpec Tables.

(** C3 (as amended): for a player who can act, Fold is always legal;
    Check iff the player's current-round contribution equals the table
    bet; Call iff the contribution differs from the table bet and the
    stack covers the gap; Raise iff the stack covers the table bet plus
    the minimum raise above the player's contribution; All-In iff the
    player holds chips. *)
Theorem C3_valid_actions (g : Game) (p : Player) :
  can_act p = true →
  let actions := get_valid_actions g p in
  FOLD ∈ actions
  ∧ (CHECK ∈ actions ↔ Player.current_bet p = current_bet g)
  ∧ (CALL ∈ actions ↔
       Player.current_bet p ≠ current_bet g
       ∧ current_bet g - Player.current_bet p ≤ chips p)
  ∧ (RAISE ∈ actions ↔
       current_bet g + min_raise g - Player.current_bet p ≤ chips p)
  ∧ (ALLIN ∈ actions ↔ 0 < chips p).
Proof.
  intros Hact. unfold get_valid_actions. rewrite Hact. simpl.
  repeat case_match;
    rewrite ?Z.eqb_eq, ?Z.eqb_neq, ?Z.leb_le, ?Z.leb_gt, ?Z.ltb_lt, ?Z.ltb_ge in *;
    simpl; rewrite ?elem_of_cons, ?elem_of_nil;
    intuition (try lia; try discriminate).
Qed.

Lemma C3_valid_actions_witness :
  let actions := get_valid_actions bet_of_100 (seat "Bob" 900 1 ACTIVE 40 40 None) in
  FOLD ∈ actions
  ∧ (CHECK ∈ actions ↔ 40 = 100)
  ∧ (CALL ∈ actions ↔ 40 ≠ 100 ∧ 100 - 40 ≤ 900)
  ∧ (RAISE ∈ actions ↔ 100 + 100 - 40 ≤ 900)
  ∧ (ALLIN ∈ actions ↔ 0 < 900).
Proof.
  apply (C3_valid_actions bet_of_100 (seat "Bob" 900 1 ACTIVE 40 40 None)).
  reflexivity.
Defined.

(** C3 as stated fails on Call: a player with 50 chips facing a bet of
    100 has a non-zero gap and holds chips, yet Call is not offered. *)
Lemma C3_call_counterexample :
  let actions := get_valid_actions bet_of_100 short_stack in
  can_act short_stack = true
  ∧ ¬ (CALL ∈ actions ↔
         current_bet bet_of_100 - Player.current_bet short_stack ≠ 0
         ∧ 0 < chips short_stack).
Proof.
  split; [reflexivity|]. intros [_ H].
  assert (CALL ∈ get_valid_actions bet_of_100 short_stack) as Hin.
  { apply H. vm_compute. split; [discriminate|reflexivity]. }
  change (get_valid_actions bet_of_100 short_stack) with [FOLD; ALLIN] in Hin.
  rewrite !elem_of_cons, elem_of_nil in Hin. intuition discriminate.
Qed.

Lemma filter_length_mono {A} (P Q : A → Prop)
    `{!∀ x, Decision (P x)} `{!∀ x, Decision (Q x)} (l : list A) :
  (∀ x, P x → Q x) → (length (filter P l) ≤ length (filter Q l))%nat.
Proof.
  intros HPQ. induction l as [|x l IH]; simpl; [done|].
  rewrite !filter_cons. repeat case_decide; simpl; try lia.
  exfalso; eauto.
Qed.

Lemma can_act_in_hand p : can_act p = true → is_in_hand p = true.
Proof. unfold can_act, is_in_hand. intros ->. done. Qed.

Lemma forallb_elem_of {A} (f : A → bool) (l : list A) :
  forallb f l = true ↔ ∀ x, x ∈ l → f x = true.
Proof.
  rewrite forallb_forall. by setoid_rewrite list_elem_of_In.
Qed.

(** With two seats or more able to act, the code and the worded rule
    agree. *)
Lemma round_complete_two_actors g :
  (2 ≤ n_can_act g)%nat →
  _is_betting_round_complete g = true ↔ spec_round_complete g.
Proof.
  unfold n_can_act, _is_betting_round_complete, spec_round_complete,
    all_have_acted, all_have_matched, max_in_hand_bet.
  intros Hn.
  pose proof (filter_length_mono (λ p, can_act p = true)
                (λ p, is_in_hand p = true) (players g) can_act_in_hand) as Hle.
  destruct (Nat.leb_spec (length (filter (λ p, can_act p = true) (players g))) 1);
    [lia|].
  destruct (Nat.leb_spec (length (filter (λ p, is_in_hand p = true) (players g))) 1);
    [lia|].
  set (m := max_of _).
  destruct (forallb _ (filter (λ p, can_act p = true) (players g))) eqn:Hacted;
    simpl.
  - rewrite forallb_elem_of in Hacted. rewrite forallb_elem_of.
    split.
    + intros Hm. split.
      * intros p Hp Hact.
        assert (p ∈ filter (λ p, can_act p = true) (players g)) as Hf
          by (by apply list_elem_of_filter).
        apply Hacted in Hf. by apply bool_decide_eq_true_1 in Hf.
      * intros p Hp Hin Hst.
        assert (p ∈ filter (λ p, is_in_hand p = true) (players g)) as Hf
          by (by apply list_elem_of_filter).
        apply Hm in Hf.
        apply orb_true_iff in Hf as [Hf|Hf];
          apply bool_decide_eq_true_1 in Hf; done.
    + intros [_ Hm] p Hp. apply list_elem_of_filter in Hp as [Hin Hp].
      destruct (decide (status p = ALL_IN)) as [Hst|Hst].
      * rewrite (bool_decide_eq_true_2 _ Hst). done.
      * rewrite (bool_decide_eq_true_2 _ (Hm p Hp Hin Hst)).
        apply orb_true_r.
  - split; [done|]. intros [Hall _].
    apply not_true_iff_false in Hacted. destruct Hacted.
    apply forallb_elem_of. intros p Hp.
    apply list_elem_of_filter in Hp as [Hact Hp].
    apply bool_decide_eq_true_2. by apply Hall.
Qed.

Lemma round_complete_few_actors g :
  (n_can_act g ≤ 1)%nat → _is_betting_round_complete g = true.
Proof.
  unfold n_can_act, _is_betting_round_complete. intros Hn.
  by destruct (Nat.leb_spec (length (filter (λ p, can_act p = true) (players g))) 1);
    [|lia].
Qed.

(** C2 (as amended): when two or more seats can act, the betting round is
    judged complete iff every seat that can act has acted and every
    in-hand seat that is not all-in has matched the highest current-round
    contribution among in-hand seats; when no seat can act it is judged
    complete; when exactly one seat can act and the in-hand seats that
    are not all-in have matched that highest contribution it is judged
    complete, whether or not the seat has acted. *)
Theorem C2_round_complete (g : Game) :
  ((2 ≤ n_can_act g)%nat →
     (_is_betting_round_complete g = true ↔ spec_round_complete g))
  ∧ (n_can_act g = 0%nat → _is_betting_round_complete g = true)
  ∧ (n_can_act g = 1%nat → all_have_matched g →
       _is_betting_round_complete g = true).
Proof.
  split; [apply round_complete_two_actors|].
  split; intros; apply round_complete_few_actors; lia.
Qed.

Lemma C2_round_complete_witness :
  (_is_betting_round_complete bet_of_100 = true
     ↔ spec_round_complete bet_of_100)
  ∧ _is_betting_round_complete all_checked = true.
Proof.
  split.
  - apply (proj1 (C2_round_complete bet_of_100)). vm_compute. lia.
  - apply (proj1 (C2_round_complete all_checked)); [vm_compute; lia|].
    split.
    + intros p Hp Hact. simpl in Hp.
      rewrite !elem_of_cons, elem_of_nil in Hp.
      destruct Hp as [->|[->|[->|[]]]]; by vm_compute in Hact.
    + intros p Hp Hin Hst. simpl in Hp.
      rewrite !elem_of_cons, elem_of_nil in Hp.
      destruct Hp as [->|[->|[->|[]]]]; done.
Defined.

(** C2 as stated fails when one seat is left to act: facing Bob's all-in
    of 500, Alice has contributed 20 and has not acted, and the round is
    judged complete. *)
Lemma C2_counterexample :
  ¬ (_is_betting_round_complete facing_all_in = true
     ↔ spec_round_complete facing_all_in).
Proof.
  intros [H _]. destruct (H eq_refl) as [Hacted _].
  apply (Hacted (seat "Alice" 980 0 ACTIVE 20 20 None)); [|done..].
  apply list_elem_of_here.
Qed.

End game_rules.

(** * The hand evaluator *)

Section sorting_facts.
Context {A : Type}.

Lemma insert_sorted_Permutation (before : A → A → bool) x l :
  insert_sorted before x l ≡ₚ x :: l.
Proof.
  induction l as [|y l IH]; simpl; [done|].
  destruct (before x y); [done|]. rewrite IH. apply Permutation_swap.
Qed.

Lemma sort_by_Permutation (before : A → A → bool) l : sort_by before l ≡ₚ l.
Proof.
  induction l as [|x l IH]; simpl; [done|].
  rewrite insert_sorted_Permutation. by rewrite IH.
Qed.

Lemma sorted_Permutation (key : A → Z) reverse l : sorted key reverse l ≡ₚ l.
Proof. apply sort_by_Permutation. Qed.

Lemma length_sorted (key : A → Z) reverse l :
  length (sorted key reverse l) = length l.
Proof. apply Permutation_length, sorted_Permutation. Qed.

(** Ascending sort: the keys of the result are in order. *)
Lemma insert_sorted_asc (key : A → Z) x l :
  Sorted (λ a b, key a ≤ key b) l →
  Sorted (λ a b, key a ≤ key b)
         (insert_sorted (λ a b, key a <=? key b) x l).
Proof.
  induction 1 as [|y l Hl IH Hhd]; simpl.
  - repeat constructor.
  - destruct (Z.leb_spec (key x) (key y)).
    + repeat constructor; done.
    + constructor; [done|].
      destruct Hhd as [|z l' Hz]; simpl.
      * constructor. lia.
      * destruct (Z.leb_spec (key x) (key z)); constructor; lia.
Qed.

Lemma sorted_asc_Sorted (key : A → Z) l :
  Sorted (λ a b, key a ≤ key b) (sorted key false l).
Proof.
  unfold sorted, sort_by. induction l as [|x l IH]; simpl; [constructor|].
  by apply insert_sorted_asc.
Qed.
End sorting_facts.

Lemma sorted_Z_perm (l1 l2 : list Z) :
  l1 ≡ₚ l2 → sorted id false l1 = sorted id false l2.
Proof.
  intros Hp. apply (Sorted_unique Z.le).
  - apply (sorted_asc_Sorted id).
  - apply (sorted_asc_Sorted id).
  - by rewrite !sorted_Permutation.
Qed.

Section evaluator_facts.
Import Card HandEvaluator.

Lemma ranks_of_Permutation cs1 cs2 : cs1 ≡ₚ cs2 → ranks_of cs1 ≡ₚ ranks_of cs2.
Proof. intros H. unfold ranks_of. by rewrite H. Qed.

Lemma sorted_ranks_perm cs1 cs2 :
  cs1 ≡ₚ cs2 → sorted id false (ranks_of cs1) = sorted id false (ranks_of cs2).
Proof. intros H. by apply sorted_Z_perm, ranks_of_Permutation. Qed.

Lemma _is_flush_perm cs1 cs2 : cs1 ≡ₚ cs2 → _is_flush cs1 = _is_flush cs2.
Proof.
  intros H. unfold _is_flush.
  assert (remove_dups (map suit cs1) ≡ₚ remove_dups (map suit cs2)) as Hd.
  { apply NoDup_Permutation; try apply NoDup_remove_dups.
    intros s. rewrite !elem_of_remove_dups. by rewrite H. }
  by rewrite (Permutation_length Hd).
Qed.

Lemma _is_straight_perm cs1 cs2 :
  cs1 ≡ₚ cs2 → _is_straight cs1 = _is_straight cs2.
Proof. intros H. unfold _is_straight. by rewrite (sorted_ranks_perm _ _ H). Qed.

Lemma _is_royal_flush_perm cs1 cs2 :
  cs1 ≡ₚ cs2 → _is_royal_flush cs1 = _is_royal_flush cs2.
Proof.
  intros H. unfold _is_royal_flush.
  by rewrite (sorted_ranks_perm _ _ H), (_is_flush_perm _ _ H).
Qed.

Lemma _get_straight_high_card_perm cs1 cs2 :
  cs1 ≡ₚ cs2 → _get_straight_high_card cs1 = _get_straight_high_card cs2.
Proof.
  intros H. unfold _get_straight_high_card. by rewrite (sorted_ranks_perm _ _ H).
Qed.

Lemma five_cards (cs : list Card) :
  length cs = 5%nat → ∃ c1 c2 c3 c4 c5, cs = [c1; c2; c3; c4; c5].
Proof.
  destruct cs as [|c1 [|c2 [|c3 [|c4 [|c5 [|]]]]]]; try discriminate.
  intros _. by exists c1, c2, c3, c4, c5.
Qed.

Lemma sorted_ranks_nonempty cs :
  cs ≠ [] → sorted id false (ranks_of cs) ≠ [].
Proof.
  intros Hcs Hs. apply Hcs.
  apply (f_equal length) in Hs. rewrite length_sorted in Hs.
  unfold ranks_of in Hs. rewrite length_map in Hs.
  by destruct cs.
Qed.

Lemma _is_straight_total cs : cs ≠ [] → is_Ok (_is_straight cs).
Proof.
  intros H%sorted_ranks_nonempty. unfold _is_straight, is_Ok.
  destruct (sorted id false (ranks_of cs)); [done|].
  repeat case_bool_decide; eauto.
Qed.

Lemma _get_straight_high_card_total cs :
  cs ≠ [] → is_Ok (_get_straight_high_card cs).
Proof.
  intros H%sorted_ranks_nonempty. unfold _get_straight_high_card, is_Ok.
  case_bool_decide; [eauto|].
  destruct (last _) eqn:Hl; [eauto|]. by apply last_None in Hl.
Qed.

Lemma ranks_with_count_nil n : ranks_with_count n [] = [].
Proof. done. Qed.

Lemma ranks_with_count_cons n k m c :
  ranks_with_count n ((k, m) :: c)
  = if m =? n then k :: ranks_with_count n c else ranks_with_count n c.
Proof.
  unfold ranks_with_count. rewrite filter_cons. simpl.
  destruct (Z.eqb_spec m n); case_decide; done.
Qed.

(** Case analysis on which of five ranks coincide (52 patterns). *)
Ltac split_rank :=
  match goal with
  | |- context [bool_decide (?a = ?b)] =>
      is_var a; is_var b;
      let e := fresh "e" in
      destruct (decide (a = b)) as [e|e];
      [rewrite (bool_decide_eq_true_2 (a = b) e); try subst b
      |rewrite (bool_decide_eq_false_2 (a = b) e); try congruence];
      cbn [counter_add fold_left]
  end.

Ltac count_ranks :=
  change (1 + 1) with 2; change (2 + 1) with 3; change (3 + 1) with 4;
  change (4 + 1) with 5;
  rewrite ?ranks_with_count_cons, ?ranks_with_count_nil;
  cbn [Z.eqb Pos.eqb];
  rewrite ?ranks_with_count_cons, ?ranks_with_count_nil;
  cbn [Z.eqb Pos.eqb length].

Ltac five_ranks c1 c2 c3 c4 c5 :=
  unfold ranks_of; cbn [map];
  generalize (rank_value_of c1) (rank_value_of c2) (rank_value_of c3)
    (rank_value_of c4) (rank_value_of c5);
  intros ?z ?z ?z ?z ?z;
  unfold Counter; cbn [counter_add fold_left];
  repeat split_rank; count_ranks.

Lemma _check_four_of_a_kind_total c1 c2 c3 c4 c5 :
  is_Ok (_check_four_of_a_kind [c1; c2; c3; c4; c5]).
Proof.
  unfold _check_four_of_a_kind, is_Ok.
  five_ranks c1 c2 c3 c4 c5; eauto.
Qed.

Lemma _check_two_pair_total c1 c2 c3 c4 c5 :
  is_Ok (_check_two_pair [c1; c2; c3; c4; c5]).
Proof.
  unfold _check_two_pair, is_Ok.
  five_ranks c1 c2 c3 c4 c5; case_bool_decide; try discriminate; eauto.
Qed.

Lemma _check_four_of_a_kind_rank cs r :
  _check_four_of_a_kind cs = Ok (Some r) → hand_rank r = FOUR_OF_A_KIND ∧ cards r = cs.
Proof.
  unfold _check_four_of_a_kind. repeat case_match; intros [= <-]; done.
Qed.

Lemma _check_full_house_rank cs r :
  _check_full_house cs = Some r → hand_rank r = FULL_HOUSE ∧ cards r = cs.
Proof.
  unfold _check_full_house. repeat case_match; intros [= <-]; done.
Qed.

Lemma _check_three_of_a_kind_rank cs r :
  _check_three_of_a_kind cs = Some r → hand_rank r = THREE_OF_A_KIND ∧ cards r = cs.
Proof.
  unfold _check_three_of_a_kind. repeat case_match; intros [= <-]; done.
Qed.

Lemma _check_two_pair_rank cs r :
  _check_two_pair cs = Ok (Some r) → hand_rank r = TWO_PAIR ∧ cards r = cs.
Proof.
  unfold _check_two_pair. repeat case_match; intros [= <-]; done.
Qed.

Lemma _check_one_pair_rank cs r :
  _check_one_pair cs = Some r → hand_rank r = ONE_PAIR ∧ cards r = cs.
Proof.
  unfold _check_one_pair. repeat case_match; intros [= <-]; done.
Qed.
End evaluator_facts.

Section evaluate_five.
Import Card HandEvaluator.

Local Ltac leaf :=
  eexists; split; [done|]; simpl; repeat split; eauto; discriminate.

Local Ltac checked Hr Hc :=
  eexists; split; [done|]; rewrite Hr, Hc; repeat split; eauto; discriminate.

(** What the cascade of [_evaluate_five_cards] yields on five cards. *)
Lemma _evaluate_five_cards_cascade cs :
  length cs = 5%nat →
  ∃ r, _evaluate_five_cards cs = Ok r
     ∧ cards r = sorted rank_value_of true cs
     ∧ (_is_flush cs = true → _is_straight cs = Ok true →
          hand_rank r = STRAIGHT_FLUSH ∨ hand_rank r = ROYAL_FLUSH)
     ∧ (hand_rank r = FLUSH →
          _is_flush cs = true ∧ _is_straight cs = Ok false)
     ∧ (hand_rank r = STRAIGHT →
          _is_flush cs = false ∧ _is_straight cs = Ok true
          ∧ ∃ high, _get_straight_high_card cs = Ok high
                    ∧ rank_values r = [high]).
Proof.
  intros Hlen. unfold _evaluate_five_cards.
  rewrite bool_decide_eq_false_2 by (by rewrite Hlen; intros []).
  set (sc := sorted rank_value_of true cs).
  assert (sc ≡ₚ cs) as Hperm by apply sorted_Permutation.
  rewrite <- (_is_flush_perm _ _ Hperm), <- (_is_straight_perm _ _ Hperm),
    <- (_get_straight_high_card_perm _ _ Hperm).
  destruct (five_cards sc) as (c1 & c2 & c3 & c4 & c5 & Hsc).
  { by rewrite (Permutation_length Hperm). }
  assert (sc ≠ []) as Hne by (by rewrite Hsc).
  destruct (_is_straight_total sc Hne) as [st Hst].
  destruct (_get_straight_high_card_total sc Hne) as [high Hhigh].
  destruct (_check_four_of_a_kind_total c1 c2 c3 c4 c5) as [four Hfour].
  destruct (_check_two_pair_total c1 c2 c3 c4 c5) as [two Htwo].
  rewrite <- Hsc in Hfour, Htwo. clear Hsc c1 c2 c3 c4 c5.
  clearbody sc.
  destruct (_is_royal_flush sc) eqn:Hroyal.
  { leaf. }
  unfold _is_straight_flush. rewrite Hst, Hhigh, Hfour, Htwo.
  destruct (_is_flush sc) eqn:Hflush, st; simpl; [leaf|..].
  all: destruct four as [r|]; simpl;
    [destruct (_check_four_of_a_kind_rank _ _ Hfour) as [Hr Hc]; checked Hr Hc|].
  all: destruct (_check_full_house sc) as [r|] eqn:Hfull; simpl;
    [destruct (_check_full_house_rank _ _ Hfull) as [Hr Hc]; checked Hr Hc|].
  1-2: leaf.
  destruct (_check_three_of_a_kind sc) as [r|] eqn:Hthree; simpl;
    [destruct (_check_three_of_a_kind_rank _ _ Hthree) as [Hr Hc]; checked Hr Hc|].
  destruct two as [r|]; simpl;
    [destruct (_check_two_pair_rank _ _ Htwo) as [Hr Hc]; checked Hr Hc|].
  destruct (_check_one_pair sc) as [r|] eqn:Hone; simpl;
    [destruct (_check_one_pair_rank _ _ Hone) as [Hr Hc]; checked Hr Hc|].
  leaf.
Qed.
End evaluate_five.

Section descending_sort.
Context {A : Type}.

Lemma sort_by_ext (b1 b2 : A → A → bool) l :
  (∀ x y, b1 x y = b2 x y) → sort_by b1 l = sort_by b2 l.
Proof.
  intros Hb. unfold sort_by. induction l as [|x l IH]; simpl; [done|].
  rewrite IH. generalize (foldr (insert_sorted b2) [] l). intros s.
  induction s as [|y s IHs]; simpl; [done|]. by rewrite Hb, IHs.
Qed.

(** [reverse=True] is the ascending sort on the negated key. *)
Lemma sorted_reverse_neg (key : A → Z) l :
  sorted key true l = sorted (λ x, - key x) false l.
Proof.
  apply sort_by_ext. intros x y.
  destruct (Z.leb_spec (key y) (key x)), (Z.leb_spec (- key x) (- key y)); lia.
Qed.

Lemma Sorted_weaken (R R' : relation A) l :
  (∀ x y, R x y → R' x y) → Sorted R l → Sorted R' l.
Proof.
  intros HR. induction 1 as [|x s Hs IH Hhd]; constructor; [done|].
  destruct Hhd; constructor; auto.
Qed.

Lemma sorted_desc_Sorted (key : A → Z) l :
  Sorted (λ a b, key b ≤ key a) (sorted key true l).
Proof.
  rewrite sorted_reverse_neg.
  eapply Sorted_weaken; [|apply (sorted_asc_Sorted (λ x, - key x))].
  simpl. intros; lia.
Qed.

Lemma insert_sorted_map (key : A → Z) (before : Z → Z → bool) x l :
  map key (insert_sorted (λ a b, before (key a) (key b)) x l)
  = insert_sorted before (key x) (map key l).
Proof.
  induction l as [|y l IH]; simpl; [done|].
  destruct (before (key x) (key y)); simpl; [done|]. by rewrite IH.
Qed.

Lemma map_sort_by (key : A → Z) (before : Z → Z → bool) l :
  map key (sort_by (λ a b, before (key a) (key b)) l)
  = sort_by before (map key l).
Proof.
  induction l as [|x l IH]; [done|].
  change (map key (insert_sorted (λ a b, before (key a) (key b)) x
                     (sort_by (λ a b, before (key a) (key b)) l))
          = insert_sorted before (key x) (sort_by before (map key l))).
  by rewrite insert_sorted_map, IH.
Qed.

(** Sorting by a key and reading the keys is sorting the keys. *)
Lemma map_sorted (key : A → Z) reverse l :
  map key (sorted key reverse l) = sorted id reverse (map key l).
Proof.
  apply (map_sort_by key (λ a b, if reverse then b <=? a else a <=? b)).
Qed.
End descending_sort.

Lemma sorted_desc_Z_perm (l1 l2 : list Z) :
  l1 ≡ₚ l2 → sorted id true l1 = sorted id true l2.
Proof.
  intros Hp. rewrite !sorted_reverse_neg.
  assert (∀ l, Sorted Z.le (map Z.opp (sorted Z.opp false l))) as Hs.
  { intros l. pose proof (sorted_asc_Sorted Z.opp l) as H.
    induction H as [|x s Hs IH Hhd]; simpl; constructor; [done|].
    destruct Hhd; simpl; constructor; done. }
  assert (map Z.opp (sorted Z.opp false l1) = map Z.opp (sorted Z.opp false l2)) as Heq.
  { apply (Sorted_unique Z.le); auto.
    by rewrite !sorted_Permutation, Hp. }
  apply (f_equal (map Z.opp)) in Heq.
  rewrite !map_map in Heq.
  rewrite !(map_ext (λ x, - - x) id), !map_id in Heq by (intros; unfold id; lia).
  done.
Qed.

Section known_ranks.
Import Card HandEvaluator.

(** Five cards that are not a flush and whose ranks are a permutation of
    [rs]: the evaluator sees the ranks in descending order. *)
Lemma sorted_cards_ranks cs rs :
  ranks_of cs ≡ₚ rs →
  ranks_of (sorted rank_value_of true cs) = sorted id true rs.
Proof.
  intros Hp. unfold ranks_of. rewrite map_sorted.
  by apply sorted_desc_Z_perm.
Qed.

Local Ltac evaluate_ranks cs Hp Hflush :=
  unfold _evaluate_five_cards;
  rewrite bool_decide_eq_false_2
    by (unfold ranks_of in Hp; apply Permutation_length in Hp;
        rewrite length_map in Hp; rewrite Hp; simpl; intros []; done);
  pose proof (sorted_cards_ranks cs _ Hp) as Hr;
  rewrite <- (_is_flush_perm _ _ (sorted_Permutation rank_value_of true cs))
    in Hflush;
  revert Hr Hflush; generalize (sorted rank_value_of true cs); intros sc Hr Hflush;
  unfold _is_royal_flush, _is_straight_flush, _is_straight,
    _get_straight_high_card, _check_four_of_a_kind, _check_full_house,
    _check_three_of_a_kind, _check_two_pair, _check_one_pair;
  rewrite Hflush, Hr; vm_compute; eexists; split; [reflexivity|done].

Lemma wheel_is_five_high_straight cs :
  ranks_of cs ≡ₚ [2; 3; 4; 5; 14] → _is_flush cs = false →
  ∃ r, _evaluate_five_cards cs = Ok r
       ∧ hand_rank r = STRAIGHT ∧ rank_values r = [5].
Proof. intros Hp Hflush. evaluate_ranks cs Hp Hflush. Qed.

Lemma six_high_straight cs :
  ranks_of cs ≡ₚ [2; 3; 4; 5; 6] → _is_flush cs = false →
  ∃ r, _evaluate_five_cards cs = Ok r
       ∧ hand_rank r = STRAIGHT ∧ rank_values r = [6].
Proof. intros Hp Hflush. evaluate_ranks cs Hp Hflush. Qed.
End known_ranks.

(** ** The categories of the evaluator *)

Section category_facts.
Import Card HandEvaluator Category.

Lemma times_app r l1 l2 : times r (l1 ++ l2) = times r l1 + times r l2.
Proof. induction l1 as [|x l1 IH]; simpl; [done|]. rewrite IH. lia. Qed.

Lemma times_nonneg r l : 0 ≤ times r l.
Proof. induction l as [|x l IH]; simpl; [done|]. case_bool_decide; lia. Qed.

Lemma times_not_in r l : r ∉ l → times r l = 0.
Proof.
  induction l as [|x l IH]; intros Hr; simpl; [done|].
  apply not_elem_of_cons in Hr as [Hne Hr].
  rewrite bool_decide_eq_false_2 by done. rewrite IH by done. done.
Qed.

Lemma times_in r l : r ∈ l → 0 < times r l.
Proof.
  induction l as [|x l IH]; intros Hr; [by apply elem_of_nil in Hr|].
  simpl. pose proof (times_nonneg r l).
  apply elem_of_cons in Hr as [->|Hr].
  - rewrite bool_decide_eq_true_2 by done. lia.
  - specialize (IH Hr). case_bool_decide; lia.
Qed.

Lemma counter_add_keys x c k :
  k ∈ (counter_add x c).*1 ↔ k = x ∨ k ∈ c.*1.
Proof.
  induction c as [|[k0 n0] c IH]; cbn [counter_add].
  { simpl. rewrite list_elem_of_singleton. split; [by left|].
    intros [?|H]; [done|]. by apply elem_of_nil in H. }
  case_bool_decide as Hk; rewrite !fmap_cons; cbn [fst].
  - subst k0. rewrite !elem_of_cons. tauto.
  - rewrite !elem_of_cons, IH. tauto.
Qed.

Lemma counter_add_NoDup x c : NoDup c.*1 → NoDup (counter_add x c).*1.
Proof.
  induction c as [|[k0 n0] c IH]; cbn [counter_add]; intros Hnd.
  { simpl. apply NoDup_singleton. }
  rewrite fmap_cons in Hnd. cbn [fst] in Hnd.
  apply NoDup_cons in Hnd as [Hk0 Hnd].
  case_bool_decide as Hk; rewrite fmap_cons; cbn [fst].
  - by apply NoDup_cons.
  - apply NoDup_cons. split; [|by apply IH].
    rewrite counter_add_keys. intros [?|?]; [by subst|done].
Qed.

Lemma counter_add_elem x c k n :
  NoDup c.*1 →
  (k, n) ∈ counter_add x c
  ↔ (k ≠ x ∧ (k, n) ∈ c)
    ∨ (k = x ∧ ((∃ m, (x, m) ∈ c ∧ n = m + 1) ∨ ((x ∉ c.*1) ∧ n = 1))).
Proof.
  induction c as [|[k0 n0] c IH]; intros Hnd; cbn [counter_add].
  { rewrite list_elem_of_singleton. split.
    - intros [= -> ->]. right. split; [done|]. right.
      split; [apply not_elem_of_nil|done].
    - intros [[_ H]|[-> [(m & H & _)|[_ ->]]]]; try by apply elem_of_nil in H.
      done. }
  rewrite fmap_cons in Hnd |- *. cbn [fst] in Hnd |- *.
  apply NoDup_cons in Hnd as [Hk0 Hnd]. specialize (IH Hnd).
  assert (∀ m, (x, m) ∈ c → x ∈ c.*1) as Hkey.
  { intros m Hin. by apply (list_elem_of_fmap_2 fst _ (x, m)). }
  case_bool_decide as Hk.
  - subst k0. rewrite elem_of_cons. split.
    + intros [[= -> ->]|Hin].
      * right. split; [done|]. left. exists n0. split; [apply list_elem_of_here|done].
      * left. split; [|by apply list_elem_of_further]. intros ->. eauto.
    + intros [[Hne Hin]|[-> [(m & Hin & ->)|[Hnin _]]]].
      * apply elem_of_cons in Hin as [[= -> ->]|Hin]; [done|by right].
      * apply elem_of_cons in Hin as [[= ->]|Hin]; [by left|]. exfalso. eauto.
      * exfalso. apply Hnin. apply list_elem_of_here.
  - rewrite elem_of_cons, IH. split.
    + intros [[= -> ->]|[[Hne Hin]|[-> [(m & Hin & ->)|[Hnin ->]]]]].
      * left. split; [done|apply list_elem_of_here].
      * left. split; [done|by apply list_elem_of_further].
      * right. split; [done|]. left. exists m.
        split; [by apply list_elem_of_further|done].
      * right. split; [done|]. right. split; [|done].
        intros [?|?]%elem_of_cons; [by subst|done].
    + intros [[Hne Hin]|[-> [(m & Hin & ->)|[Hnin ->]]]].
      * apply elem_of_cons in Hin as [[= -> ->]|Hin]; [by left|].
        right. left. done.
      * apply elem_of_cons in Hin as [[= -> ->]|Hin]; [done|].
        right. right. split; [done|]. left. by exists m.
      * right. right. split; [done|]. right. split; [|done].
        intros Hin. apply Hnin. by apply list_elem_of_further.
Qed.

Lemma Counter_snoc l x : Counter (l ++ [x]) = counter_add x (Counter l).
Proof. unfold Counter. by rewrite fold_left_app. Qed.

(** The counter holds each rank seen once, with the number of its
    occurrences. *)
Lemma Counter_counts l :
  NoDup (Counter l).*1
  ∧ ∀ k n, (k, n) ∈ Counter l ↔ k ∈ l ∧ n = times k l.
Proof.
  induction l as [|x l [Hnd IH]] using rev_ind.
  { split; [constructor|]. intros k n. split.
    - intros H. by apply elem_of_nil in H.
    - intros [H _]. by apply elem_of_nil in H. }
  rewrite Counter_snoc.
  assert (∀ k, k ∈ (Counter l).*1 ↔ k ∈ l) as Hkeys.
  { intros k. rewrite list_elem_of_fmap. split.
    - intros ([k' n] & -> & Hin). by apply IH in Hin as [? _].
    - intros Hin. exists (k, times k l). split; [done|]. by apply IH. }
  split; [by apply counter_add_NoDup|].
  intros k n. rewrite counter_add_elem by done.
  rewrite elem_of_app, list_elem_of_singleton, times_app. simpl.
  rewrite Hkeys. split.
  - intros [[Hne Hin]|[-> [(m & Hin & ->)|[Hnin ->]]]].
    + apply IH in Hin as [Hin ->].
      rewrite bool_decide_eq_false_2 by done. split; [by left|lia].
    + apply IH in Hin as [Hin ->].
      rewrite bool_decide_eq_true_2 by done. split; [by right|lia].
    + rewrite bool_decide_eq_true_2 by done.
      rewrite times_not_in by done. split; [by right|lia].
  - intros [Hin ->]. destruct (decide (k = x)) as [->|Hne].
    + right. split; [done|]. rewrite bool_decide_eq_true_2 by done.
      destruct (decide (x ∈ l)) as [Hx|Hx].
      * left. exists (times x l). split; [by apply IH|lia].
      * right. split; [done|]. rewrite times_not_in by done. lia.
    + left. split; [done|]. rewrite bool_decide_eq_false_2 by done.
      destruct Hin as [Hin|?]; [|done]. apply IH. split; [done|lia].
Qed.

Lemma elem_of_ranks_with_count n l k :
  k ∈ ranks_with_count n (Counter l) ↔ k ∈ l ∧ times k l = n.
Proof.
  destruct (Counter_counts l) as [_ Hc].
  unfold ranks_with_count. rewrite list_elem_of_fmap. split.
  - intros ([k' m] & -> & Hin). apply list_elem_of_filter in Hin as [Hm Hin].
    simpl in *. apply Hc in Hin as [Hin ->]. done.
  - intros [Hin Hn]. exists (k, n). split; [done|].
    apply list_elem_of_filter. split; [done|]. apply Hc. done.
Qed.

Lemma ranks_with_count_NoDup n l : NoDup (ranks_with_count n (Counter l)).
Proof.
  destruct (Counter_counts l) as [Hnd _].
  unfold ranks_with_count.
  apply (sublist_NoDup _ ((Counter l).*1)); [exact Hnd|].
  apply fmap_sublist, sublist_filter.
Qed.

Lemma times_perm r l1 l2 : l1 ≡ₚ l2 → times r l1 = times r l2.
Proof. induction 1; simpl; lia. Qed.

Lemma has_times_spec n rs :
  has_times n rs = true ↔ ∃ k, k ∈ rs ∧ times k rs = n.
Proof.
  unfold has_times. rewrite existsb_exists. split.
  - intros (k & Hin & Hk). exists k.
    split; [by apply list_elem_of_In|by apply Z.eqb_eq].
  - intros (k & Hin & Hk). exists k.
    split; [by apply list_elem_of_In|by apply Z.eqb_eq].
Qed.

Lemma two_pairs_spec rs :
  two_pairs rs = true
  ↔ ∃ k k', k ≠ k' ∧ k ∈ rs ∧ k' ∈ rs ∧ times k rs = 2 ∧ times k' rs = 2.
Proof.
  unfold two_pairs. rewrite existsb_exists. split.
  - intros (k & Hin & Hk). apply existsb_exists in Hk as (k' & Hin' & Hk).
    apply andb_true_iff in Hk as [Hk Hk'2].
    apply andb_true_iff in Hk as [Hne Hk2].
    apply negb_true_iff, bool_decide_eq_false in Hne.
    exists k, k'. rewrite <- !list_elem_of_In in *.
    repeat split; try done; by apply Z.eqb_eq.
  - intros (k & k' & Hne & Hin & Hin' & Hk & Hk').
    exists k. split; [by apply list_elem_of_In|].
    apply existsb_exists. exists k'. split; [by apply list_elem_of_In|].
    rewrite bool_decide_eq_false_2 by done. rewrite Hk, Hk'. done.
Qed.

Lemma bool_eq_iff (b1 b2 : bool) : (b1 = true ↔ b2 = true) → b1 = b2.
Proof. destruct b1, b2; intros [H1 H2]; try done; [by rewrite H1|by rewrite H2]. Qed.

Lemma has_times_perm n l1 l2 : l1 ≡ₚ l2 → has_times n l1 = has_times n l2.
Proof.
  intros Hp. apply bool_eq_iff. rewrite !has_times_spec.
  split; intros (k & Hin & Hk); exists k.
  - rewrite <- (times_perm k _ _ Hp). split; [by rewrite <- Hp|done].
  - rewrite (times_perm k _ _ Hp). split; [by rewrite Hp|done].
Qed.

Lemma two_pairs_perm l1 l2 : l1 ≡ₚ l2 → two_pairs l1 = two_pairs l2.
Proof.
  intros Hp. apply bool_eq_iff. rewrite !two_pairs_spec.
  split; intros (k & k' & Hne & Hin & Hin' & Hk & Hk'); exists k, k'.
  - rewrite <- !(times_perm _ _ _ Hp).
    repeat split; try done; by rewrite <- Hp.
  - rewrite !(times_perm _ _ _ Hp).
    repeat split; try done; by rewrite Hp.
Qed.

Lemma ranks_with_count_nonempty n rs :
  ranks_with_count n (Counter rs) ≠ [] ↔ has_times n rs = true.
Proof.
  rewrite has_times_spec. split.
  - intros Hne. destruct (ranks_with_count n (Counter rs)) as [|k ks] eqn:Hks; [done|].
    exists k. apply elem_of_ranks_with_count. rewrite Hks. apply list_elem_of_here.
  - intros (k & Hk) Hnil. apply elem_of_ranks_with_count in Hk.
    rewrite Hnil in Hk. by apply elem_of_nil in Hk.
Qed.

(** Removing a rank from the list removes its occurrences and no other. *)
Lemma length_without k rs :
  Z.of_nat (length rs)
  = times k rs + Z.of_nat (length (filter (λ x, x ≠ k) rs)).
Proof.
  induction rs as [|x rs IH]; [done|].
  rewrite filter_cons. cbn [times length].
  case_bool_decide; case_decide; try done; cbn [length]; lia.
Qed.

Lemma times_without k k' rs :
  k' ≠ k → times k' (filter (λ x, x ≠ k) rs) = times k' rs.
Proof.
  intros Hne. induction rs as [|x rs IH]; [done|].
  rewrite filter_cons. cbn [times].
  destruct (decide (x = k)) as [->|Hx].
  - rewrite decide_False by (by intros ?). rewrite IH.
    by rewrite bool_decide_eq_false_2 by (by intros ->).
  - rewrite decide_True by done. cbn [times]. by rewrite IH.
Qed.

(** Distinct ranks that each occur [n] times take [n] cards each. *)
Lemma times_total n ks rs :
  0 ≤ n → NoDup ks → (∀ k, k ∈ ks → times k rs = n) →
  n * Z.of_nat (length ks) ≤ Z.of_nat (length rs).
Proof.
  intros Hn Hnd. revert rs.
  induction Hnd as [|k ks Hk Hnd IH]; intros rs Hall; cbn [length]; [lia|].
  rewrite (length_without k rs).
  rewrite (Hall k) by apply list_elem_of_here.
  assert (n * Z.of_nat (length ks)
          ≤ Z.of_nat (length (filter (λ x, x ≠ k) rs))) as Hrest.
  { apply IH. intros k' Hk'. rewrite times_without by (by intros ->).
    apply Hall. by apply list_elem_of_further. }
  lia.
Qed.

Lemma two_pairs_length rs :
  length rs = 5%nat →
  length (ranks_with_count 2 (Counter rs)) = 2%nat ↔ two_pairs rs = true.
Proof.
  intros Hlen. rewrite two_pairs_spec.
  pose proof (ranks_with_count_NoDup 2 rs) as Hnd.
  assert (∀ k, k ∈ ranks_with_count 2 (Counter rs) ↔ k ∈ rs ∧ times k rs = 2)
    as Hin by (intros k; apply elem_of_ranks_with_count).
  pose proof (times_total 2 (ranks_with_count 2 (Counter rs)) rs) as Hle.
  revert Hnd Hin Hle. generalize (ranks_with_count 2 (Counter rs)).
  intros ks Hnd Hin Hle. split.
  - intros Hks. destruct ks as [|a [|b [|]]]; try done.
    exists a, b.
    assert (a ∈ [a; b]) as Ha by apply list_elem_of_here.
    assert (b ∈ [a; b]) as Hb by apply list_elem_of_further, list_elem_of_here.
    apply Hin in Ha as [? ?], Hb as [? ?].
    repeat split; try done.
    apply NoDup_cons in Hnd as [Hab _]. intros ->. apply Hab, list_elem_of_here.
  - intros (k & k' & Hne & Hk & Hk' & Hk2 & Hk'2).
    assert (k ∈ ks) as Ha by (by apply Hin).
    assert (k' ∈ ks) as Hb by (by apply Hin).
    assert (2 * Z.of_nat (length ks) ≤ Z.of_nat (length rs)) as Hle'.
    { apply Hle; [lia|done|]. intros k0 Hk0. by apply Hin in Hk0 as [_ ?]. }
    rewrite Hlen in Hle'.
    destruct ks as [|a [|b [|c ks]]]; cbn [length] in *; try lia.
    + by apply elem_of_nil in Ha.
    + apply list_elem_of_singleton in Ha, Hb. congruence.
Qed.

(** The suits *)
Lemma remove_dups_one {A} `{!EqDecision A} (l : list A) :
  length (remove_dups l) = 1%nat
  ↔ match l with [] => False | x :: l' => ∀ y, y ∈ l' → y = x end.
Proof.
  pose proof (NoDup_remove_dups l) as Hnd.
  assert (∀ x, x ∈ remove_dups l ↔ x ∈ l) as Hin
    by (intros x; apply elem_of_remove_dups).
  revert Hnd Hin. generalize (remove_dups l). intros d Hnd Hin.
  destruct l as [|x l'].
  - split; [|done]. destruct d as [|a d]; [done|].
    intros _. apply (elem_of_nil a), Hin, list_elem_of_here.
  - split.
    + intros Hd y Hy. destruct d as [|a [|]]; try done.
      assert (x ∈ [a]) as Hx by apply Hin, list_elem_of_here.
      assert (y ∈ [a]) as Hy' by (by apply Hin, list_elem_of_further).
      apply list_elem_of_singleton in Hx, Hy'. congruence.
    + intros Hall.
      assert (∀ y, y ∈ d → y = x) as Hd.
      { intros y Hy. apply Hin in Hy.
        apply elem_of_cons in Hy as [?|?]; [done|by apply Hall]. }
      destruct d as [|a [|b d]]; [|done|].
      * exfalso. apply (elem_of_nil x), Hin, list_elem_of_here.
      * exfalso. apply NoDup_cons in Hnd as [Hab _]. apply Hab.
        rewrite (Hd a) by apply list_elem_of_here.
        rewrite <- (Hd b) at 1 by apply list_elem_of_further, list_elem_of_here.
        apply list_elem_of_here.
Qed.

Lemma _is_flush_one_suit cs : _is_flush cs = one_suit cs.
Proof.
  apply bool_eq_iff. unfold _is_flush. rewrite bool_decide_eq_true.
  rewrite remove_dups_one. destruct cs as [|c cs]; cbn [map one_suit]; [done|].
  rewrite forallb_forall. split.
  - intros Hall c' Hc'. apply bool_decide_eq_true, Hall.
    apply list_elem_of_In in Hc'. by apply (list_elem_of_fmap_2 suit).
  - intros Hall s Hs. apply list_elem_of_fmap in Hs as (c' & -> & Hc').
    apply list_elem_of_In, Hall in Hc'. by apply bool_decide_eq_true in Hc'.
Qed.

(** Runs of ranks *)
Lemma has_all_spec wanted rs :
  has_all wanted rs = true ↔ ∀ r, r ∈ wanted → r ∈ rs.
Proof.
  unfold has_all. rewrite forallb_forall. split.
  - intros H r Hr. apply list_elem_of_In, H in Hr. by apply bool_decide_eq_true in Hr.
  - intros H r Hr. apply bool_decide_eq_true, H. by apply list_elem_of_In.
Qed.

Lemma has_all_sorted wanted rs :
  NoDup wanted → Sorted Z.le wanted → length wanted = length rs →
  has_all wanted rs = true ↔ sorted id false rs = wanted.
Proof.
  intros Hnd Hs Hlen. rewrite has_all_spec. split.
  - intros Hsub. apply (Sorted_unique Z.le).
    + apply (sorted_asc_Sorted id).
    + done.
    + rewrite sorted_Permutation. symmetry.
      apply submseteq_length_Permutation; [|by rewrite Hlen].
      by apply NoDup_submseteq.
  - intros <- r Hr. by rewrite sorted_Permutation in Hr.
Qed.

Lemma seqZ_five lo : seqZ lo 5 = [lo; lo + 1; lo + 2; lo + 3; lo + 4].
Proof.
  unfold seqZ. change (Z.to_nat 5) with 5%nat. cbn [seq fmap list_fmap].
  repeat (apply (f_equal2 cons); [lia|]). done.
Qed.

Lemma seqZ_five_Sorted lo : Sorted Z.le (seqZ lo 5).
Proof. rewrite seqZ_five. repeat constructor; lia. Qed.

Lemma _is_straight_straight cs :
  length cs = 5%nat → _is_straight cs = Ok (straight (ranks_of cs)).
Proof.
  intros Hlen. unfold _is_straight, straight.
  assert (length (ranks_of cs) = 5%nat) as Hrs
    by (unfold ranks_of; by rewrite length_map).
  assert (∀ lo, has_all (seqZ lo 5) (ranks_of cs) = true
                ↔ sorted id false (ranks_of cs) = seqZ lo 5) as Hrun.
  { intros lo. apply has_all_sorted;
      [apply NoDup_seqZ|apply seqZ_five_Sorted|by rewrite length_seqZ, Hrs]. }
  assert (has_all [2; 3; 4; 5; 14] (ranks_of cs) = true
          ↔ sorted id false (ranks_of cs) = [2; 3; 4; 5; 14]) as Hwheel.
  { apply has_all_sorted; [|repeat constructor; lia|by rewrite Hrs].
    by apply (bool_decide_unpack _). }
  pose proof (sorted_Permutation id false (ranks_of cs)) as Hperm.
  revert Hperm Hrun Hwheel. generalize (sorted id false (ranks_of cs)).
  intros s Hperm Hrun Hwheel.
  destruct s as [|r0 s'].
  { apply Permutation_length in Hperm. by rewrite Hrs in Hperm. }
  case_bool_decide as Hr0.
  - f_equal. symmetry. apply orb_true_iff. left.
    apply existsb_exists. exists r0. split.
    + apply list_elem_of_In. rewrite <- Hperm. apply list_elem_of_here.
    + by apply Hrun.
  - case_bool_decide as Hw.
    + f_equal. symmetry. apply orb_true_iff. right. by apply Hwheel.
    + f_equal. symmetry. apply orb_false_iff. split.
      * apply not_true_is_false. intros (lo & _ & Hlo)%existsb_exists.
        apply Hrun in Hlo. apply Hr0. rewrite Hlo.
        rewrite seqZ_five in Hlo. by injection Hlo as -> _.
      * apply not_true_is_false. by intros ?%Hwheel.
Qed.

Lemma _is_royal_flush_royal cs :
  length cs = 5%nat →
  _is_royal_flush cs = one_suit cs && has_all [10; 11; 12; 13; 14] (ranks_of cs).
Proof.
  intros Hlen. unfold _is_royal_flush. rewrite _is_flush_one_suit.
  destruct (one_suit cs); [|done]. cbn [negb andb].
  apply bool_eq_iff. rewrite bool_decide_eq_true. symmetry.
  apply has_all_sorted; [|repeat constructor; lia|].
  - by apply (bool_decide_unpack _).
  - unfold ranks_of. by rewrite length_map, Hlen.
Qed.

(** The checks of the evaluator decide the conditions of the categories. *)
Lemma rank_value_of_nonzero c : rank_value_of c ≠ 0.
Proof. unfold rank_value_of. by destruct (rank c). Qed.

Lemma _is_royal_flush_holds cs :
  length cs = 5%nat → _is_royal_flush cs = holds ROYAL_FLUSH cs.
Proof. apply _is_royal_flush_royal. Qed.

Lemma _is_flush_holds cs : _is_flush cs = holds FLUSH cs.
Proof. apply _is_flush_one_suit. Qed.

Lemma _is_straight_holds cs :
  length cs = 5%nat → _is_straight cs = Ok (holds STRAIGHT cs).
Proof. apply _is_straight_straight. Qed.

Lemma _is_straight_flush_holds cs :
  length cs = 5%nat → _is_straight_flush cs = Ok (holds STRAIGHT_FLUSH cs).
Proof.
  intros Hlen. unfold _is_straight_flush, holds.
  rewrite _is_flush_one_suit, (_is_straight_straight cs Hlen).
  by destruct (one_suit cs).
Qed.

Lemma _check_four_of_a_kind_holds cs four :
  _check_four_of_a_kind cs = Ok four →
  match four with
  | Some r => hand_rank r = FOUR_OF_A_KIND ∧ holds FOUR_OF_A_KIND cs = true
  | None => holds FOUR_OF_A_KIND cs = false
  end.
Proof.
  unfold _check_four_of_a_kind, holds.
  pose proof (ranks_with_count_nonempty 4 (ranks_of cs)) as H4.
  destruct (ranks_with_count 4 (Counter (ranks_of cs))) as [|rank ?].
  - intros [= <-]. apply not_true_is_false. intros H. by apply H4 in H.
  - destruct (ranks_with_count 1 (Counter (ranks_of cs))); [done|].
    intros [= <-]. split; [done|]. by apply H4.
Qed.

Lemma full_house_loop (c : list (Z * Z)) (st : option Z * option Z) :
  let st' :=
    fold_left (λ (st : option Z * option Z) (rc : Z * Z),
                 if bool_decide (rc.2 = 3) then (Some rc.1, st.2)
                 else if bool_decide (rc.2 = 2) then (st.1, Some rc.1)
                 else st) c st in
  (∀ t, st'.1 = Some t → st.1 = Some t ∨ (t, 3) ∈ c)
  ∧ (∀ p, st'.2 = Some p → st.2 = Some p ∨ (p, 2) ∈ c)
  ∧ (is_Some st.1 ∨ (∃ t, (t, 3) ∈ c) → is_Some st'.1)
  ∧ (is_Some st.2 ∨ (∃ p, (p, 2) ∈ c) → is_Some st'.2).
Proof.
  revert st. induction c as [|[k n] c IH]; intros st; cbn [fold_left].
  { cbn zeta. repeat split; try (by left).
    - intros [?|[? H]]; [done|by apply elem_of_nil in H].
    - intros [?|[? H]]; [done|by apply elem_of_nil in H]. }
  cbn [fst snd].
  match goal with |- context [fold_left _ c ?s] => specialize (IH s) end.
  cbn zeta in IH |- *. destruct IH as (IH1 & IH2 & IH3 & IH4).
  assert (∀ m, (∃ q, (q, m) ∈ (k, n) :: c) → n = m ∨ ∃ q, (q, m) ∈ c) as Hcons.
  { intros m (q & [[= -> ->]|Hin]%elem_of_cons); [by left|right; by exists q]. }
  assert (∀ q m, (q, m) ∈ c → (q, m) ∈ (k, n) :: c) as Hfurther.
  { intros q m Hin. by apply list_elem_of_further. }
  assert ((k, n) ∈ (k, n) :: c) as Hhere by apply list_elem_of_here.
  repeat case_bool_decide; subst; cbn [fst snd] in *.
  - split; [|split; [|split]].
    + intros t [[= <-]|?]%IH1; right; auto.
    + intros p [?|?]%IH2; [by left|right; auto].
    + intros _. apply IH3. by left.
    + intros [?|[?|?]%Hcons]; [apply IH4; by left|done|apply IH4; by right].
  - split; [|split; [|split]].
    + intros t [?|?]%IH1; [by left|right; auto].
    + intros p [[= <-]|?]%IH2; right; auto.
    + intros [?|[?|?]%Hcons]; [apply IH3; by left|done|apply IH3; by right].
    + intros _. apply IH4. by left.
  - split; [|split; [|split]].
    + intros t [?|?]%IH1; [by left|right; auto].
    + intros p [?|?]%IH2; [by left|right; auto].
    + intros [?|[?|?]%Hcons]; [apply IH3; by left|done|apply IH3; by right].
    + intros [?|[?|?]%Hcons]; [apply IH4; by left|done|apply IH4; by right].
Qed.

Lemma Counter_elem k n rs : (k, n) ∈ Counter rs ↔ k ∈ rs ∧ n = times k rs.
Proof. apply Counter_counts. Qed.

Lemma _check_full_house_holds cs :
  match _check_full_house cs with
  | Some r => hand_rank r = FULL_HOUSE ∧ holds FULL_HOUSE cs = true
  | None => holds FULL_HOUSE cs = false
  end.
Proof.
  unfold _check_full_house, holds.
  pose proof (full_house_loop (Counter (ranks_of cs)) (None, None)) as Hloop.
  cbn zeta in Hloop. cbn [fst snd] in Hloop.
  destruct (fold_left _ (Counter (ranks_of cs)) (None, None))
    as [three_rank pair_rank].
  cbn [fst snd] in Hloop. destruct Hloop as (H1 & H2 & H3 & H4).
  assert (∀ n k, (k, n) ∈ Counter (ranks_of cs) → has_times n (ranks_of cs) = true)
    as Hhas.
  { intros n k [Hin ->]%Counter_elem. apply has_times_spec. by exists k. }
  assert (∀ n, has_times n (ranks_of cs) = true → ∃ k, (k, n) ∈ Counter (ranks_of cs))
    as Hcount.
  { intros n (k & Hin & Hk)%has_times_spec. exists k. by apply Counter_elem. }
  assert (∀ n k, (k, n) ∈ Counter (ranks_of cs) → k ≠ 0) as Hnz.
  { intros n k [Hin _]%Counter_elem.
    apply list_elem_of_fmap in Hin as (c & -> & _). apply rank_value_of_nonzero. }
  destruct three_rank as [t|]; [destruct pair_rank as [p|]|].
  - destruct (H1 t) as [?|Ht]; [done|done|]. destruct (H2 p) as [?|Hp]; [done|done|].
    rewrite !bool_decide_eq_true_2 by eauto. cbn [andb].
    split; [done|]. by rewrite (Hhas _ _ Ht), (Hhas _ _ Hp).
  - apply andb_false_iff. right. apply not_true_is_false.
    intros H%Hcount. destruct H4 as [? [=]]. by right.
  - apply andb_false_iff. left. apply not_true_is_false.
    intros H%Hcount. destruct H3 as [? [=]]. by right.
Qed.

Lemma _check_three_of_a_kind_holds cs :
  match _check_three_of_a_kind cs with
  | Some r => hand_rank r = THREE_OF_A_KIND ∧ holds THREE_OF_A_KIND cs = true
  | None => holds THREE_OF_A_KIND cs = false
  end.
Proof.
  unfold _check_three_of_a_kind, holds.
  pose proof (ranks_with_count_nonempty 3 (ranks_of cs)) as H3.
  destruct (ranks_with_count 3 (Counter (ranks_of cs))) as [|rank ?].
  - apply not_true_is_false. intros H. by apply H3 in H.
  - split; [done|]. by apply H3.
Qed.

Lemma _check_one_pair_holds cs :
  match _check_one_pair cs with
  | Some r => hand_rank r = ONE_PAIR ∧ holds ONE_PAIR cs = true
  | None => holds ONE_PAIR cs = false
  end.
Proof.
  unfold _check_one_pair, holds.
  pose proof (ranks_with_count_nonempty 2 (ranks_of cs)) as H2.
  destruct (ranks_with_count 2 (Counter (ranks_of cs))) as [|rank ?].
  - apply not_true_is_false. intros H. by apply H2 in H.
  - split; [done|]. by apply H2.
Qed.

Lemma _check_two_pair_holds cs two :
  length cs = 5%nat →
  _check_two_pair cs = Ok two →
  match two with
  | Some r => hand_rank r = TWO_PAIR ∧ holds TWO_PAIR cs = true
  | None => holds TWO_PAIR cs = false
  end.
Proof.
  intros Hlen. unfold _check_two_pair, holds.
  pose proof (two_pairs_length (ranks_of cs)) as H2.
  unfold ranks_of in H2 at 1. rewrite length_map in H2. specialize (H2 Hlen).
  case_bool_decide as Hpairs.
  - destruct (ranks_with_count 1 (Counter (ranks_of cs))); [done|].
    intros [= <-]. split; [done|]. by apply H2.
  - intros [= <-]. apply not_true_is_false. intros H. by apply H2 in H.
Qed.

(** The category does not depend on the order of the cards. *)
Lemma has_all_perm wanted l1 l2 :
  l1 ≡ₚ l2 → has_all wanted l1 = has_all wanted l2.
Proof.
  intros Hp. apply bool_eq_iff. rewrite !has_all_spec.
  split; intros H r Hr; [rewrite <- Hp|rewrite Hp]; by apply H.
Qed.

Lemma straight_perm l1 l2 : l1 ≡ₚ l2 → straight l1 = straight l2.
Proof.
  intros Hp. unfold straight. rewrite (has_all_perm _ _ _ Hp). f_equal.
  apply bool_eq_iff. rewrite !existsb_exists.
  split; intros (lo & Hin & Hlo); exists lo.
  - rewrite <- (has_all_perm _ _ _ Hp). split; [|done].
    apply list_elem_of_In. rewrite <- Hp. by apply list_elem_of_In.
  - rewrite (has_all_perm _ _ _ Hp). split; [|done].
    apply list_elem_of_In. rewrite Hp. by apply list_elem_of_In.
Qed.

Lemma holds_perm cat cs1 cs2 : cs1 ≡ₚ cs2 → holds cat cs1 = holds cat cs2.
Proof.
  intros Hp.
  assert (one_suit cs1 = one_suit cs2) as Hsuit.
  { rewrite <- !_is_flush_one_suit. by apply _is_flush_perm. }
  pose proof (ranks_of_Permutation _ _ Hp) as Hrs.
  unfold holds. rewrite Hsuit, (straight_perm _ _ Hrs),
    !(has_times_perm _ _ _ Hrs), (two_pairs_perm _ _ Hrs),
    (has_all_perm _ _ _ Hrs). done.
Qed.

Lemma category_perm cs1 cs2 : cs1 ≡ₚ cs2 → category cs1 = category cs2.
Proof.
  intros Hp. unfold category, priority. cbn [List.find].
  by rewrite !(holds_perm _ _ _ Hp).
Qed.

(** The category picked is the highest one whose condition holds. *)
Lemma category_highest cs :
  holds (category cs) cs = true
  ∧ ∀ cat, hr_value (category cs) < hr_value cat → holds cat cs = false.
Proof.
  unfold category, priority. cbn [List.find].
  destruct (holds ROYAL_FLUSH cs) eqn:H10; [|
  destruct (holds STRAIGHT_FLUSH cs) eqn:H9; [|
  destruct (holds FOUR_OF_A_KIND cs) eqn:H8; [|
  destruct (holds FULL_HOUSE cs) eqn:H7; [|
  destruct (holds FLUSH cs) eqn:H6; [|
  destruct (holds STRAIGHT cs) eqn:H5; [|
  destruct (holds THREE_OF_A_KIND cs) eqn:H4; [|
  destruct (holds TWO_PAIR cs) eqn:H3; [|
  destruct (holds ONE_PAIR cs) eqn:H2]]]]]]]];
    cbn [default from_option id]; (split; [done|]);
    intros [] Hlt; cbn [hr_value] in Hlt; try lia; done.
Qed.

Lemma _evaluate_five_cards_category cs :
  length cs = 5%nat →
  ∃ r, _evaluate_five_cards cs = Ok r ∧ hand_rank r = category cs.
Proof.
  intros Hlen. unfold _evaluate_five_cards.
  rewrite bool_decide_eq_false_2 by (by rewrite Hlen; intros []).
  set (sc := sorted rank_value_of true cs).
  assert (sc ≡ₚ cs) as Hperm by apply sorted_Permutation.
  rewrite <- (category_perm _ _ Hperm).
  assert (length sc = 5%nat) as Hsc by (by rewrite (Permutation_length Hperm)).
  clearbody sc. clear cs Hlen Hperm.
  destruct (five_cards sc Hsc) as (c1 & c2 & c3 & c4 & c5 & Heq).
  assert (sc ≠ []) as Hne by (by rewrite Heq).
  destruct (_get_straight_high_card_total sc Hne) as [high Hhigh].
  destruct (_check_four_of_a_kind_total c1 c2 c3 c4 c5) as [four Hfour].
  destruct (_check_two_pair_total c1 c2 c3 c4 c5) as [two Htwo].
  rewrite <- Heq in Hfour, Htwo. clear Heq c1 c2 c3 c4 c5.
  pose proof (_check_four_of_a_kind_holds sc four Hfour) as H8.
  pose proof (_check_full_house_holds sc) as H7.
  pose proof (_check_three_of_a_kind_holds sc) as H4.
  pose proof (_check_two_pair_holds sc two Hsc Htwo) as H3.
  pose proof (_check_one_pair_holds sc) as H2.
  rewrite (_is_royal_flush_holds sc Hsc), (_is_straight_flush_holds sc Hsc),
    (_is_straight_holds sc Hsc), _is_flush_holds, Hhigh, Hfour, Htwo.
  unfold category, priority. cbn [List.find].
  revert H8 H7 H4 H3 H2.
  generalize (holds ROYAL_FLUSH sc) (holds STRAIGHT_FLUSH sc)
    (holds FOUR_OF_A_KIND sc) (holds FULL_HOUSE sc) (holds FLUSH sc)
    (holds STRAIGHT sc) (holds THREE_OF_A_KIND sc) (holds TWO_PAIR sc)
    (holds ONE_PAIR sc).
  intros h10 h9 h8 h7 h6 h5 h4 h3 h2 H8 H7 H4 H3 H2.
  destruct h10; [by eexists|].
  destruct h9; simpl; [by eexists|].
  destruct four as [r|]; simpl; [destruct H8 as [Hr ->]; by exists r|rewrite H8].
  destruct (_check_full_house sc) as [r|]; simpl;
    [destruct H7 as [Hr ->]; by exists r|rewrite H7].
  destruct h6; [by eexists|].
  destruct h5; simpl; [by eexists|].
  destruct (_check_three_of_a_kind sc) as [r|]; simpl;
    [destruct H4 as [Hr ->]; by exists r|rewrite H4].
  destruct two as [r|]; simpl; [destruct H3 as [Hr ->]; by exists r|rewrite H3].
  destruct (_check_one_pair sc) as [r|]; simpl;
    [destruct H2 as [Hr ->]; by exists r|rewrite H2].
  by eexists.
Qed.
End category_facts.

Section evaluator_claims.
Import Card HandEvaluator Hands.

(** C6: on every five-card input the evaluator returns one result, and
    its category is the first one, in the descending priority Royal
    Flush, Straight Flush, Four of a Kind, Full House, Flush, Straight,
    Three of a Kind, Two Pair, One Pair, High Card, whose condition
    holds on the cards: the condition of the assigned category holds and
    the condition of every higher category fails, so no hand is put in
    two categories.  The checks [_is_flush] and [_is_straight] decide the
    conditions "one suit" and "run of five ranks"; a hand that is both a
    flush and a straight is a Straight Flush or a Royal Flush, a result
    classified Flush is not a straight and a result classified Straight
    is not a flush. *)
Theorem C6_one_category (cs : list Card) :
  length cs = 5%nat →
  ∃ r, _evaluate_five_cards cs = Ok r
     ∧ hand_rank r = Category.category cs
     ∧ Category.holds (hand_rank r) cs = true
     ∧ (∀ cat, hr_value (hand_rank r) < hr_value cat →
          Category.holds cat cs = false)
     ∧ (∀ cat, Category.holds cat cs = true → hr_value cat ≤ hr_value (hand_rank r))
     ∧ map hr_value Category.priority = [10; 9; 8; 7; 6; 5; 4; 3; 2; 1]
     ∧ _is_flush cs = Category.one_suit cs
     ∧ _is_straight cs = Ok (Category.straight (ranks_of cs))
     ∧ (Category.one_suit cs = true → Category.straight (ranks_of cs) = true →
          hand_rank r = STRAIGHT_FLUSH ∨ hand_rank r = ROYAL_FLUSH)
     ∧ (_is_flush cs = true → _is_straight cs = Ok true →
          hand_rank r = STRAIGHT_FLUSH ∨ hand_rank r = ROYAL_FLUSH)
     ∧ (hand_rank r = FLUSH → _is_straight cs = Ok false)
     ∧ (hand_rank r = STRAIGHT → _is_flush cs = false).
Proof.
  intros Hlen.
  destruct (_evaluate_five_cards_cascade cs Hlen)
    as (r & Hr & _ & Hsf & Hfl & Hst).
  destruct (_evaluate_five_cards_category cs Hlen) as (r' & Hr' & Hcat).
  assert (r' = r) as -> by congruence.
  destruct (category_highest cs) as [Hholds Hhigher].
  rewrite <- Hcat in Hholds, Hhigher.
  pose proof (_is_flush_one_suit cs) as Hflush.
  pose proof (_is_straight_straight cs Hlen) as Hstraight.
  exists r. split; [done|]. split; [done|]. split; [done|]. split; [done|].
  split.
  { intros cat Hc. destruct (Z.le_gt_cases (hr_value cat) (hr_value (hand_rank r)))
      as [?|Hlt]; [done|].
    apply Z.gt_lt_iff, Z.gt_lt in Hlt. rewrite (Hhigher cat) in Hc by lia. done. }
  split; [done|]. split; [done|]. split; [done|]. split.
  { intros Hs Hr5. apply Hsf; [by rewrite Hflush|by rewrite Hstraight, Hr5]. }
  split; [done|]. split.
  - intros H. by destruct (Hfl H).
  - intros H. by destruct (Hst H).
Qed.

Lemma C6_one_category_witness :
  ∃ r, _evaluate_five_cards steel_wheel = Ok r
     ∧ hand_rank r = Category.category steel_wheel
     ∧ Category.holds (hand_rank r) steel_wheel = true
     ∧ (∀ cat, hr_value (hand_rank r) < hr_value cat →
          Category.holds cat steel_wheel = false)
     ∧ (∀ cat, Category.holds cat steel_wheel = true →
          hr_value cat ≤ hr_value (hand_rank r))
     ∧ map hr_value Category.priority = [10; 9; 8; 7; 6; 5; 4; 3; 2; 1]
     ∧ _is_flush steel_wheel = Category.one_suit steel_wheel
     ∧ _is_straight steel_wheel = Ok (Category.straight (ranks_of steel_wheel))
     ∧ (Category.one_suit steel_wheel = true →
        Category.straight (ranks_of steel_wheel) = true →
          hand_rank r = STRAIGHT_FLUSH ∨ hand_rank r = ROYAL_FLUSH)
     ∧ (_is_flush steel_wheel = true → _is_straight steel_wheel = Ok true →
          hand_rank r = STRAIGHT_FLUSH ∨ hand_rank r = ROYAL_FLUSH)
     ∧ (hand_rank r = FLUSH → _is_straight steel_wheel = Ok false)
     ∧ (hand_rank r = STRAIGHT → _is_flush steel_wheel = false).
Proof. apply (C6_one_category steel_wheel). reflexivity. Defined.

(** C7: five cards with the ranks 2, 3, 4, 5 and 14 that are not all of
    one suit are a Straight whose tie-break value is 5; the result is
    below that of every six-high straight and above every One Pair
    result. *)
Theorem C7_wheel (cs : list Card) :
  ranks_of cs ≡ₚ [2; 3; 4; 5; 14] →
  _is_flush cs = false →
  ∃ r, _evaluate_five_cards cs = Ok r
     ∧ hand_rank r = STRAIGHT
     ∧ rank_values r = [5]
     ∧ (∀ six, ranks_of six ≡ₚ [2; 3; 4; 5; 6] → _is_flush six = false →
          ∃ r6, _evaluate_five_cards six = Ok r6
                ∧ hand_rank r6 = STRAIGHT ∧ rank_values r6 = [6]
                ∧ lt r r6 = true ∧ lt r6 r = false)
     ∧ (∀ pair, hand_rank pair = ONE_PAIR →
          lt pair r = true ∧ lt r pair = false).
Proof.
  intros Hp Hflush.
  destruct (wheel_is_five_high_straight cs Hp Hflush) as (r & Hr & Hrank & Hvals).
  exists r. repeat split; try done.
  - intros six Hp6 Hflush6.
    destruct (six_high_straight six Hp6 Hflush6) as (r6 & Hr6 & Hrank6 & Hvals6).
    exists r6. unfold lt. rewrite Hrank, Hrank6, Hvals, Hvals6. done.
  - unfold lt. rewrite Hrank, H. done.
  - unfold lt. rewrite Hrank, H. done.
Qed.

Lemma C7_wheel_witness :
  ∃ r, _evaluate_five_cards wheel = Ok r
     ∧ hand_rank r = STRAIGHT
     ∧ rank_values r = [5]
     ∧ (∀ six, ranks_of six ≡ₚ [2; 3; 4; 5; 6] → _is_flush six = false →
          ∃ r6, _evaluate_five_cards six = Ok r6
                ∧ hand_rank r6 = STRAIGHT ∧ rank_values r6 = [6]
                ∧ lt r r6 = true ∧ lt r6 r = false)
     ∧ (∀ pair, hand_rank pair = ONE_PAIR →
          lt pair r = true ∧ lt r pair = false).
Proof.
  apply (C7_wheel wheel); [|reflexivity].
  change [2; 3; 4; 5; 14] with (sorted id false (ranks_of wheel)).
  symmetry. apply sorted_Permutation.
Defined.

Lemma combinations_length {A} (l : list A) k c :
  c ∈ combinations l k → length c = k.
Proof.
  revert k c. induction l as [|x l IH]; intros [|k] c; simpl.
  - intros H. apply list_elem_of_singleton in H. by subst.
  - intros H. by apply elem_of_nil in H.
  - intros H. apply list_elem_of_singleton in H. by subst.
  - intros H. apply elem_of_app in H as [H|H].
    + apply list_elem_of_fmap in H as (c' & -> & Hc'). simpl. f_equal. eauto.
    + eauto.
Qed.

Lemma best_loop_total combos best :
  Forall (λ c, length c = 5%nat) combos →
  ∃ r, best_loop best combos = Ok r ∧ (r = None → best = None ∧ combos = []).
Proof.
  intros Hall. revert best.
  induction Hall as [|c combos Hc _ IH]; intros best; simpl.
  - by exists best.
  - unfold best_step.
    destruct (_evaluate_five_cards_cascade c Hc) as (r & -> & _). simpl.
    destruct best as [b|]; [destruct (gt r b)|]; simpl;
      match goal with
      | |- context [best_loop ?b combos] =>
          destruct (IH b) as (r' & -> & Hnone)
      end;
      exists r'; (split; [done|]); intros ->; by destruct Hnone.
Qed.

(** C10: [evaluate_hand] raises on every input that does not have seven
    cards, and returns a hand result on every input of seven cards. *)
Theorem C10_evaluate_hand_size (cs : list Card) :
  (length cs ≠ 7%nat → evaluate_hand cs = Raise ValueError)
  ∧ (length cs = 7%nat → ∃ r, evaluate_hand cs = Ok (Some r)).
Proof.
  unfold evaluate_hand. split; intros Hlen.
  - by rewrite bool_decide_eq_true_2.
  - rewrite bool_decide_eq_false_2 by (by rewrite Hlen; intros []).
    destruct (best_loop_total (combinations cs 5) None) as (r & Hr & Hnone).
    { apply Forall_forall. intros c. apply combinations_length. }
    rewrite Hr. destruct r as [r|]; [by exists r|].
    destruct Hnone as [_ Hnil]; [done|].
    destruct cs as [|c1 [|c2 [|c3 [|c4 [|c5 [|c6 [|c7 [|]]]]]]]];
      discriminate.
Qed.

Lemma C10_evaluate_hand_size_witness :
  evaluate_hand wheel = Raise ValueError
  ∧ ∃ r, evaluate_hand royal_seven = Ok (Some r).
Proof.
  split.
  - apply (proj1 (C10_evaluate_hand_size wheel)). simpl. lia.
  - apply (proj2 (C10_evaluate_hand_size royal_seven)). reflexivity.
Defined.
End evaluator_claims.

(** * Splitting a pot *)

Section split_pot.
Import Player Game Split.

Lemma amount_at_share total n j :
  amount_at (total `div` n) (total `mod` n) j = share total n j.
Proof. unfold amount_at, share. destruct (j <? total `mod` n); lia. Qed.

Lemma sum_list_Z_app l1 l2 :
  sum_list_Z (l1 ++ l2) = sum_list_Z l1 + sum_list_Z l2.
Proof. unfold sum_list_Z. induction l1; simpl; lia. Qed.

(** The shares of [n] winners add up to the pot. *)
Lemma sum_shares total n :
  0 < n → sum_list_Z (map (share total n) (seqZ 0 n)) = total.
Proof.
  intros Hn. unfold share.
  pose proof (Z.mod_pos_bound total n Hn) as Hr.
  pose proof (Z.div_mod total n ltac:(lia)) as Hdm.
  set (q := total `div` n) in *. set (r := total `mod` n) in *.
  assert (∀ m, 0 ≤ m →
            sum_list_Z (map (λ j, q + (if j <? r then 1 else 0)) (seqZ 0 m))
            = m * q + Z.min m r) as Hsum.
  { intros m Hm. pattern m. apply natlike_ind; [simpl; lia| |done].
    intros k Hk IH. unfold Z.succ. rewrite seqZ_app by lia.
    rewrite map_app, sum_list_Z_app, IH.
    replace (seqZ (0 + k) 1) with [k] by (by rewrite seqZ_cons, seqZ_nil by lia).
    simpl. destruct (Z.ltb_spec k r); lia. }
  rewrite Hsum by lia. lia.
Qed.

Lemma pay_showdown_other ws : ∀ i q r ps w,
  w ∉ ws → pay_showdown i q r ws ps !! w = ps !! w.
Proof.
  induction ws as [|w0 ws IH]; intros i q r ps w Hw; simpl; [done|].
  apply not_elem_of_cons in Hw as [Hne Hw].
  rewrite IH by done. by rewrite list_lookup_alter_ne.
Qed.

Lemma pay_showdown_winner ws : ∀ i q r ps (j : nat) w,
  NoDup ws → ws !! j = Some w →
  pay_showdown i q r ws ps !! w
  = win_chips (amount_at q r (i + Z.of_nat j)) <$> ps !! w.
Proof.
  induction ws as [|w0 ws IH]; intros i q r ps j w Hnd Hj; [done|].
  apply NoDup_cons in Hnd as [Hw0 Hnd]. simpl.
  destruct j as [|j]; simpl in Hj.
  - injection Hj as ->. rewrite pay_showdown_other by done.
    rewrite list_lookup_alter_eq. unfold amount_at.
    replace (i + Z.of_nat 0) with i by lia. done.
  - rewrite (IH _ _ _ _ j w) by done.
    assert (w ≠ w0) as Hne.
    { intros ->. apply Hw0. by eapply list_elem_of_lookup_2. }
    rewrite list_lookup_alter_ne by done.
    by replace (i + 1 + Z.of_nat j) with (i + Z.of_nat (S j)) by lia.
Qed.
End split_pot.

Section seat_order.
Import Player Game Split.

Lemma seq_strictly_sorted a n : StronglySorted lt (seq a n).
Proof.
  revert a. induction n as [|n IH]; intros a; simpl; constructor; [done|].
  apply Forall_forall. intros x Hx%elem_of_seq. lia.
Qed.

Lemma strictly_sorted_NoDup (l : list nat) : StronglySorted lt l → NoDup l.
Proof.
  induction 1 as [|x l _ IH Hx]; constructor; [|done].
  intros Hin. rewrite Forall_forall in Hx. specialize (Hx x Hin). lia.
Qed.

Lemma sorted_keys_filter {X} (Q : nat * X → Prop) `{!∀ x, Decision (Q x)}
    (l : list (nat * X)) :
  StronglySorted lt l.*1 → StronglySorted lt (filter Q l).*1.
Proof.
  induction l as [|x l IH]; simpl; [done|].
  intros Hs. apply StronglySorted_inv in Hs as [Hs Hx].
  rewrite filter_cons. case_decide; simpl; [|by apply IH].
  constructor; [by apply IH|].
  rewrite Forall_forall in Hx. apply Forall_forall.
  intros k Hk. apply Hx.
  apply list_elem_of_fmap in Hk as (y & -> & Hy).
  apply list_elem_of_filter in Hy as [_ Hy].
  apply list_elem_of_fmap. eauto.
Qed.

Lemma seated_where_keys P ps : StronglySorted lt (seated_where P ps).*1.
Proof.
  unfold seated_where. apply sorted_keys_filter.
  rewrite fst_zip by (by rewrite length_seq).
  apply seq_strictly_sorted.
Qed.

Lemma seated_where_elem P ps i p :
  (i, p) ∈ seated_where P ps ↔ ps !! i = Some p ∧ P p = true.
Proof.
  unfold seated_where. rewrite list_elem_of_filter. simpl.
  rewrite list_elem_of_lookup. setoid_rewrite lookup_zip_Some.
  setoid_rewrite lookup_seq. split.
  - intros (HP & k & (-> & Hk) & Hp). simpl in *. done.
  - intros (Hp & HP). split; [done|]. exists i. split; [|done].
    split; [done|]. by eapply lookup_lt_Some.
Qed.

Lemma evaluate_players_keys community active hands :
  evaluate_players community active = Ok hands → hands.*1 = active.*1.
Proof.
  revert hands. induction active as [|[r p] active IH]; intros hands; simpl.
  - by intros [= <-].
  - destruct (HandEvaluator.evaluate_hand _) as [[h|]|]; simpl; try done.
    destruct (evaluate_players community active) as [hs|]; simpl; try done.
    intros [= <-]. simpl. f_equal. by apply IH.
Qed.

Lemma eq_refl_hand h : HandEvaluator.eq h h = true.
Proof. unfold HandEvaluator.eq. by rewrite !bool_decide_eq_true_2. Qed.

Lemma best_of_elem first rest : best_of first rest ∈ first :: rest.
Proof.
  unfold best_of. revert first.
  induction rest as [|h rest IH]; intros first; simpl; [apply list_elem_of_here|].
  destruct (HandEvaluator.gt h first).
  - apply list_elem_of_further, IH.
  - specialize (IH first). apply elem_of_cons in IH as [->|IH].
    + apply list_elem_of_here.
    + by do 2 apply list_elem_of_further.
Qed.

Lemma _determine_winners_sorted hands :
  StronglySorted lt hands.*1 → StronglySorted lt (_determine_winners hands).
Proof.
  unfold _determine_winners. destruct hands as [|[r h] rest]; [constructor|].
  apply sorted_keys_filter.
Qed.

Lemma _determine_winners_nonempty hands :
  hands ≠ [] → _determine_winners hands ≠ [].
Proof.
  unfold _determine_winners. destruct hands as [|[r h] rest]; [done|].
  intros _ Hnil.
  pose proof (best_of_elem h rest.*2) as Hbest.
  set (best := best_of h rest.*2) in *.
  assert (best ∈ ((r, h) :: rest).*2) as Hin by done.
  apply list_elem_of_fmap in Hin as ([r' h'] & Hb & Hin). simpl in Hb. subst h'.
  assert ((r', best) ∈ filter (λ ph, HandEvaluator.eq ph.2 best = true)
                              ((r, h) :: rest)) as Hf.
  { apply list_elem_of_filter. split; [apply eq_refl_hand|done]. }
  apply (elem_of_nil r'). rewrite <- Hnil.
  apply (list_elem_of_fmap_2 fst _ (r', best)), Hf.
Qed.
End seat_order.

Section split_claim.
Import Player Game Split TieTable.

Lemma pay_winners_other ws : ∀ i q r (m : gmap nat Z) w,
  w ∉ ws → Pot.pay_winners i q r ws m !! w = m !! w.
Proof.
  induction ws as [|w0 ws IH]; intros i q r m w Hw; simpl; [done|].
  apply not_elem_of_cons in Hw as [Hne Hw].
  rewrite IH by done. by rewrite lookup_insert_ne.
Qed.

Lemma pay_winners_winner ws : ∀ i q r (m : gmap nat Z) (j : nat) w,
  NoDup ws → ws !! j = Some w →
  Pot.pay_winners i q r ws m !! w
  = Some (default 0 (m !! w) + amount_at q r (i + Z.of_nat j)).
Proof.
  induction ws as [|w0 ws IH]; intros i q r m j w Hnd Hj; [done|].
  apply NoDup_cons in Hnd as [Hw0 Hnd]. simpl.
  destruct j as [|j]; simpl in Hj.
  - injection Hj as ->. rewrite pay_winners_other by done.
    rewrite lookup_insert_eq. unfold amount_at.
    replace (i + Z.of_nat 0) with i by lia.
    destruct (i <? r); f_equal; lia.
  - rewrite (IH _ _ _ _ j w) by done.
    assert (w ≠ w0) as Hne.
    { intros ->. apply Hw0. by eapply list_elem_of_lookup_2. }
    rewrite lookup_insert_ne by done.
    by replace (i + 1 + Z.of_nat j) with (i + Z.of_nat (S j)) by lia.
Qed.

(** One side pot paid by [distribute_winnings]. *)
Lemma pay_side_pot_winner side_pot ws (m : gmap nat Z) (j : nat) w :
  NoDup ws →
  let pot_winners := filter (λ p, p ∈ Pot.eligible_players side_pot) ws in
  pot_winners !! j = Some w →
  Pot.pay_side_pot side_pot ws m !! w
  = Some (default 0 (m !! w)
          + share (Pot.amount side_pot) (Z.of_nat (length pot_winners))
                  (Z.of_nat j)).
Proof.
  intros Hnd pw Hj. unfold Pot.pay_side_pot. fold pw.
  assert (NoDup pw) as Hndw by (by apply NoDup_filter).
  destruct pw as [|w1 pw'] eqn:Hpw; [done|].
  rewrite (pay_winners_winner _ _ _ _ _ j w Hndw Hj).
  by rewrite amount_at_share.
Qed.

(** What [pay_winners] adds to the record of one player. *)
Lemma pay_winners_due ws : ∀ i q r (m : gmap nat Z) (w : nat),
  default 0 (Pot.pay_winners i q r ws m !! w)
  = default 0 (m !! w)
    + sum_list_Z (imap (λ j x, if decide (x = w)
                               then amount_at q r (i + Z.of_nat j) else 0) ws).
Proof.
  induction ws as [|w0 ws IH]; intros i q r m w.
  { cbn [Pot.pay_winners imap sum_list_Z foldr]. by rewrite Z.add_0_r. }
  cbn [Pot.pay_winners]. rewrite IH, imap_cons.
  cbn [sum_list_Z foldr].
  fold (sum_list_Z (imap ((λ j x, if decide (x = w)
                                  then amount_at q r (i + Z.of_nat j) else 0)
                          ∘ S) ws)).
  rewrite (imap_ext _ ((λ j x, if decide (x = w)
                               then amount_at q r (i + Z.of_nat j) else 0) ∘ S))
    by (intros j x _; simpl; case_decide; [f_equal; lia|done]).
  rewrite Z.add_0_r.
  destruct (decide (w0 = w)) as [->|Hne].
  - rewrite lookup_insert_eq. cbn [default from_option id].
    rewrite decide_True by done.
    unfold amount_at at 2. unfold Pot.PlayerRef in *.
    destruct (i <? r); lia.
  - rewrite lookup_insert_ne by done. rewrite decide_False by done.
    unfold Pot.PlayerRef in *. lia.
Qed.

Lemma pay_winners_dom ws : ∀ i q r (m : gmap nat Z) (w : nat),
  is_Some (Pot.pay_winners i q r ws m !! w) ↔ is_Some (m !! w) ∨ w ∈ ws.
Proof.
  induction ws as [|w0 ws IH]; intros i q r m w.
  { cbn. rewrite elem_of_nil. tauto. }
  cbn [Pot.pay_winners]. rewrite IH, elem_of_cons.
  destruct (decide (w0 = w)) as [->|Hne].
  - rewrite lookup_insert_eq. split; [auto|]. intros _. left. eauto.
  - rewrite lookup_insert_ne by done. split; [tauto|].
    intros [?|[?|?]]; auto. congruence.
Qed.

Lemma pay_side_pot_due side_pot ws (m : gmap nat Z) (w : nat) :
  default 0 (Pot.pay_side_pot side_pot ws m !! w)
  = default 0 (m !! w) + Payout.due_from side_pot ws w.
Proof.
  unfold Pot.pay_side_pot, Payout.due_from, Payout.due.
  destruct (filter _ ws) as [|w1 pw] eqn:Hpw; [cbn; lia|].
  rewrite pay_winners_due. f_equal. f_equal.
  apply imap_ext. intros j x _. simpl. unfold Pot.PlayerRef in *.
  destruct (decide (x = w)); [|done].
  by rewrite Z.add_0_l, amount_at_share.
Qed.

Lemma pay_side_pot_dom side_pot ws (m : gmap nat Z) (w : nat) :
  is_Some (Pot.pay_side_pot side_pot ws m !! w)
  ↔ is_Some (m !! w) ∨ (w ∈ ws ∧ w ∈ Pot.eligible_players side_pot).
Proof.
  unfold Pot.pay_side_pot.
  destruct (filter _ ws) as [|w1 pw] eqn:Hpw.
  - split; [auto|]. intros [?|[Hw He]]; [done|].
    assert (w ∈ filter (λ p, p ∈ Pot.eligible_players side_pot) ws) as Hin
      by (by apply list_elem_of_filter).
    rewrite Hpw in Hin. by apply elem_of_nil in Hin.
  - rewrite pay_winners_dom, <- Hpw, list_elem_of_filter. tauto.
Qed.

Lemma distribute_loop_due pots : ∀ winners_by_pot (m : gmap nat Z) (w : nat),
  default 0 (Pot.distribute_loop pots winners_by_pot m !! w)
  = default 0 (m !! w)
    + sum_list_Z (map (λ sw, Payout.due_from sw.1 sw.2 w)
                      (zip pots winners_by_pot)).
Proof.
  induction pots as [|sp pots IH]; intros [|ws wbp] m w;
    cbn [Pot.distribute_loop zip zip_with map sum_list_Z foldr]; try lia.
  rewrite IH, pay_side_pot_due.
  fold (sum_list_Z (map (λ sw, Payout.due_from sw.1 sw.2 w) (zip pots wbp))).
  cbn [fst snd]. lia.
Qed.

Lemma distribute_loop_dom pots : ∀ winners_by_pot (m : gmap nat Z) (w : nat),
  is_Some (Pot.distribute_loop pots winners_by_pot m !! w)
  ↔ is_Some (m !! w)
    ∨ ∃ sp ws, (sp, ws) ∈ zip pots winners_by_pot
               ∧ w ∈ ws ∧ w ∈ Pot.eligible_players sp.
Proof.
  induction pots as [|sp pots IH]; intros [|ws wbp] m w;
    cbn [Pot.distribute_loop zip zip_with].
  1-3: split; [auto|]; intros [?|(? & ? & Hin & _)]; [done|];
       by apply elem_of_nil in Hin.
  rewrite IH, pay_side_pot_dom. split.
  - intros [[?|[? ?]]|(sp' & ws' & Hin & ? & ?)]; [by left| |].
    + right. exists sp, ws. split; [apply list_elem_of_here|done].
    + right. exists sp', ws'. split; [by apply list_elem_of_further|done].
  - intros [?|(sp' & ws' & Hin & Hw & He)]; [by left; left|].
    apply elem_of_cons in Hin as [[= -> ->]|Hin].
    + left. right. done.
    + right. by exists sp', ws'.
Qed.

(** C8: at a showdown with two or more players in the hand, the winners
    come in seat order; the stack of the winner in place j grows by the
    quotient of the pot by the number of winners, plus one chip when j
    is below the remainder; nobody else changes; the shares add up to
    the pot; and with a pot of 100 and three winners the stacks grow by
    34, 33 and 33, the extra chip going to the lowest seat.
    [distribute_winnings] splits every side pot by the same rule among
    the listed winners that are eligible for it, in the order listed:
    a player's winnings are the sum, over the side pots that come with
    a list of winners, of the shares of the places the player holds
    among that pot's winners, and only players that hold such a place
    get an entry. *)
Theorem C8_split_pot (g : Game) (hands : list (nat * HandEvaluator.HandResult)) :
  (2 ≤ length (seated_where is_in_hand (players g)))%nat →
  evaluate_players (community_cards g) (seated_where is_in_hand (players g))
    = Ok hands →
  let winners := _determine_winners hands in
  let n := Z.of_nat (length winners) in
  let total := Pot.get_total_pot (pot g) in
  (∃ g', _showdown g = Ok g'
     ∧ phase g' = HAND_COMPLETE
     ∧ 0 < n
     ∧ StronglySorted lt winners
     ∧ (∀ (j : nat) w, winners !! j = Some w →
          players g' !! w
          = win_chips (share total n (Z.of_nat j)) <$> players g !! w)
     ∧ (∀ (j : nat) w, winners !! j = Some w →
          ∃ p p', players g !! w = Some p ∧ players g' !! w = Some p'
                  ∧ chips p' = chips p + share total n (Z.of_nat j))
     ∧ (∀ w, w ∉ winners → players g' !! w = players g !! w)
     ∧ (total = 100 → n = 3 →
        ∃ w0 w1 w2 p0 p1 p2 p0' p1' p2',
          winners = [w0; w1; w2] ∧ (w0 < w1 < w2)%nat
          ∧ players g !! w0 = Some p0 ∧ players g' !! w0 = Some p0'
          ∧ players g !! w1 = Some p1 ∧ players g' !! w1 = Some p1'
          ∧ players g !! w2 = Some p2 ∧ players g' !! w2 = Some p2'
          ∧ chips p0' = chips p0 + 34
          ∧ chips p1' = chips p1 + 33
          ∧ chips p2' = chips p2 + 33))
  ∧ sum_list_Z (map (share total n) (seqZ 0 n)) = total
  ∧ map (share 100 3) (seqZ 0 3) = [34; 33; 33]
  ∧ (∀ side_pot ws (m : gmap nat Z) (j : nat) w,
       NoDup ws →
       filter (λ p, p ∈ Pot.eligible_players side_pot) ws !! j = Some w →
       Pot.pay_side_pot side_pot ws m !! w
       = Some (default 0 (m !! w)
               + share (Pot.amount side_pot)
                   (Z.of_nat (length (filter (λ p, p ∈ Pot.eligible_players side_pot) ws)))
                   (Z.of_nat j)))
  ∧ (∀ (pot : Pot.Pot) (winners_by_pot : list (list Pot.PlayerRef)) (w : nat),
       default 0 (Pot.distribute_winnings winners_by_pot pot !! w)
       = sum_list_Z (map (λ sw, Payout.due_from sw.1 sw.2 w)
                         (zip (Pot.side_pots pot) winners_by_pot))
       ∧ (is_Some (Pot.distribute_winnings winners_by_pot pot !! w)
          ↔ ∃ sp ws, (sp, ws) ∈ zip (Pot.side_pots pot) winners_by_pot
                     ∧ w ∈ ws ∧ w ∈ Pot.eligible_players sp))
  ∧ (∀ (a b c : nat) contributions, NoDup [a; b; c] →
       Pot.distribute_winnings [[a; b; c]]
         (Pot.mkPot 100 [Pot.mkSidePot 100 [a; b; c]] contributions)
       = {[ a := 34; b := 33; c := 33 ]}).
Proof.
  intros Hlen Heval winners n total.
  pose proof (seated_where_keys is_in_hand (players g)) as Hkeys.
  pose proof (evaluate_players_keys _ _ _ Heval) as Hhk.
  rewrite <- Hhk in Hkeys.
  assert (hands ≠ []) as Hne.
  { intros ->. apply evaluate_players_keys in Heval.
    destruct (seated_where is_in_hand (players g)); simpl in *; [lia|done]. }
  pose proof (_determine_winners_sorted hands Hkeys) as Hsorted.
  pose proof (_determine_winners_nonempty hands Hne) as Hwin.
  fold winners in Hsorted, Hwin.
  assert (0 < n) as Hn by (unfold n; destruct winners; simpl; [done|lia]).
  assert (∀ w, w ∈ winners → is_Some (players g !! w)) as Hseated.
  { intros w Hw.
    assert (w ∈ hands.*1) as Hk.
    { unfold winners, _determine_winners in Hw.
      destruct hands as [|[r h] hs]; [done|].
      apply list_elem_of_fmap in Hw as ([x hx] & -> & Hf).
      apply list_elem_of_filter in Hf as [_ Hf].
      apply list_elem_of_fmap. by exists (x, hx). }
    rewrite Hhk in Hk. apply list_elem_of_fmap in Hk as ([x px] & -> & Hs).
    apply seated_where_elem in Hs as [Hs _]. eauto. }
  split; [|split; [by apply sum_shares|split; [done|split; [|split]]]].
  - assert (_showdown g
            = Ok (set_phase HAND_COMPLETE
                    (set_players
                       (pay_showdown 0 (total `div` n) (total `mod` n)
                                     winners (players g)) g))) as Hshow.
    { unfold _showdown.
      destruct (seated_where is_in_hand (players g))
        as [|[w1 p1] [|sp2 rest]] eqn:Hact; simpl in Hlen; [lia..|].
      rewrite Heval. cbn [mbind result_bind]. fold winners.
      unfold n, total. by destruct winners. }
    eexists. split; [exact Hshow|]. cbn [phase players set_phase set_players].
    split; [done|]. split; [done|]. split; [done|].
    assert (∀ (j : nat) w, winners !! j = Some w →
              pay_showdown 0 (total `div` n) (total `mod` n) winners (players g) !! w
              = win_chips (share total n (Z.of_nat j)) <$> players g !! w)
      as Hpaid.
    { intros j w Hj.
      rewrite (pay_showdown_winner winners _ _ _ _ j w);
        [|by apply strictly_sorted_NoDup|done].
      by rewrite Z.add_0_l, amount_at_share. }
    assert (∀ (j : nat) w, winners !! j = Some w →
              ∃ p p', players g !! w = Some p
                ∧ pay_showdown 0 (total `div` n) (total `mod` n) winners
                    (players g) !! w = Some p'
                ∧ chips p' = chips p + share total n (Z.of_nat j)) as Hchips.
    { intros j w Hj. destruct (Hseated w) as [p Hp];
        [by eapply list_elem_of_lookup_2|].
      exists p, (win_chips (share total n (Z.of_nat j)) p).
      split; [done|]. split; [|done]. by rewrite (Hpaid j w Hj), Hp. }
    split; [done|]. split; [done|]. split.
    + intros w Hw. by apply pay_showdown_other.
    + intros Htot Hn3.
      destruct winners as [|x0 [|x1 [|x2 [|x3 rest']]]] eqn:Hwl;
        try (unfold n in Hn3; simpl in Hn3; lia).
      destruct (Hchips 0%nat x0 eq_refl) as (q0 & q0' & H0 & H0' & Hc0).
      destruct (Hchips 1%nat x1 eq_refl) as (q1 & q1' & H1 & H1' & Hc1).
      destruct (Hchips 2%nat x2 eq_refl) as (q2 & q2' & H2 & H2' & Hc2).
      rewrite Htot, Hn3 in Hc0, Hc1, Hc2.
      exists x0, x1, x2, q0, q1, q2, q0', q1', q2'.
      apply StronglySorted_inv in Hsorted as [Hs1 Hf1].
      apply StronglySorted_inv in Hs1 as [Hs2 Hf2].
      apply Forall_cons in Hf1 as [Hlt01 _]. apply Forall_cons in Hf2 as [Hlt12 _].
      repeat (split; [done || lia|]). done.
  - intros side_pot ws m j w Hnd Hj. by apply pay_side_pot_winner.
  - intros pt wbp w. unfold Pot.distribute_winnings.
    assert ((∅ : gmap nat Z) !! w = None) as Hempty by apply lookup_empty.
    split.
    + rewrite distribute_loop_due, Hempty.
      cbn [default from_option id]. by rewrite Z.add_0_l.
    + rewrite distribute_loop_dom, Hempty. split.
      * intros [[? [=]]|?]; done.
      * auto.
  - intros a b c contributions Hnd.
    apply NoDup_cons in Hnd as [Hab Hnd]. apply NoDup_cons in Hnd as [Hbc _].
    rewrite !not_elem_of_cons in Hab, Hbc.
    destruct Hab as [Hab Hac]. destruct Hbc as [Hbc _].
    apply not_elem_of_cons in Hac as [Hac _].
    assert (b ≠ a ∧ c ≠ a ∧ c ≠ b) as (Hba & Hca & Hcb) by auto.
    unfold Pot.distribute_winnings. cbn [Pot.side_pots Pot.distribute_loop].
    unfold Pot.pay_side_pot. cbn [Pot.eligible_players Pot.amount].
    rewrite !filter_cons, filter_nil.
    rewrite !decide_True by (rewrite !elem_of_cons; auto).
    cbn [length Pot.pay_winners].
    change (100 `div` Z.of_nat 3) with 33. change (100 `mod` Z.of_nat 3) with 1.
    change (0 <? 1) with true. change (0 + 1 <? 1) with false.
    change (0 + 1 + 1 <? 1) with false. cbn match.
    unfold Pot.PlayerRef in *.
    rewrite ?lookup_insert_ne, ?lookup_empty by done.
    cbn [default from_option id].
    apply map_eq. intros k.
    destruct (decide (k = a)) as [->|Ha];
      [|destruct (decide (k = b)) as [->|Hb];
        [|destruct (decide (k = c)) as [->|Hc]]];
      by simplify_map_eq.
Qed.

Lemma C8_split_pot_witness :
  let winners := _determine_winners tie_hands in
  (∃ g', _showdown three_way_tie = Ok g'
     ∧ chips <$> players three_way_tie = [0; 0; 0]
     ∧ chips <$> players g' = [34; 33; 33])
  ∧ winners = [0; 1; 2]%nat.
Proof.
  split; [|by vm_compute].
  destruct (C8_split_pot three_way_tie tie_hands) as [Hshow _].
  - vm_compute. lia.
  - by vm_compute.
  - destruct Hshow as (g' & Hg' & _). exists g'. split; [done|].
    split; [by vm_compute|].
    revert Hg'. vm_compute. by intros [= <-].
Defined.
End split_claim.

(** * Processing an action *)

Section action_facts.
Import Player Game.

Lemma set_current_player_index_same g :
  set_current_player_index (current_player_index g) g = g.
Proof. by destruct g. Qed.

(** Moving the turn writes the actor index and nothing else. *)
Lemma _move_to_next_active_player_index g :
  _move_to_next_active_player g
  = set_current_player_index
      (current_player_index (_move_to_next_active_player g)) g.
Proof.
  unfold _move_to_next_active_player.
  repeat case_match; simpl; try done.
  by rewrite set_current_player_index_same.
Qed.

Lemma get_current_player_cases g :
  (get_current_player g).2 = g
  ∨ (∃ cur, players g !! Z.to_nat (current_player_index g) = Some cur
            ∧ can_act cur = false
            ∧ (get_current_player g).2 = _move_to_next_active_player g).
Proof.
  unfold get_current_player.
  destruct (index_in_range g); [|by left].
  destruct (players g !! Z.to_nat (current_player_index g)) as [cur|] eqn:Hcur;
    [|by left].
  destruct (can_act cur) eqn:Hact; simpl; [by left|].
  right. exists cur. by destruct (index_in_range _).
Qed.

Lemma get_current_player_index g :
  (get_current_player g).2
  = set_current_player_index
      (current_player_index (get_current_player g).2) g.
Proof.
  destruct (get_current_player_cases g) as [->|(cur & _ & _ & ->)].
  - by rewrite set_current_player_index_same.
  - apply _move_to_next_active_player_index.
Qed.

Lemma get_valid_actions_index g k p :
  get_valid_actions (set_current_player_index k g) p = get_valid_actions g p.
Proof. done. Qed.

Lemma get_current_player_valid_actions g p :
  get_valid_actions (get_current_player g).2 p = get_valid_actions g p.
Proof. by rewrite get_current_player_index, get_valid_actions_index. Qed.

Lemma get_current_player_bets g :
  current_bet (get_current_player g).2 = current_bet g
  ∧ min_raise (get_current_player g).2 = min_raise g
  ∧ community_cards (get_current_player g).2 = community_cards g
  ∧ deck (get_current_player g).2 = deck g
  ∧ players (get_current_player g).2 = players g.
Proof. by rewrite get_current_player_index. Qed.
End action_facts.

Section rejected_action.
Import Player Game Tables ShortBlind.

(** C4 (as amended): a request that is not from the current actor, or
    whose action is not in the legal set, or that raises below the
    minimum, returns failure, and the game afterwards is the game before
    except possibly for the actor index: phase, pot, bets, cards and
    player states are untouched, and the index is either untouched or,
    when it pointed at a seat that cannot act, moved by
    [get_current_player] to the next seat that can. *)
Theorem C4_rejected_action (g : Game) (i : nat) (player : Player)
    (action : PlayerAction) (amount : Z) :
  players g !! i = Some player →
  (get_current_player g).1 ≠ Some i
  ∨ action ∉ get_valid_actions g player
  ∨ (action = RAISE ∧ amount < current_bet g + min_raise g) →
  ∃ g', player_action g i action amount = Ok (false, g')
      ∧ g' = set_current_player_index (current_player_index g') g
      ∧ (g' = g
         ∨ ∃ cur, players g !! Z.to_nat (current_player_index g) = Some cur
                  ∧ can_act cur = false
                  ∧ g' = _move_to_next_active_player g).
Proof.
  intros Hp Hrej. unfold player_action. rewrite Hp.
  assert (∀ g', g' = g → g' = set_current_player_index (current_player_index g') g
                        ∧ (g' = g ∨ ∃ cur, players g !! Z.to_nat (current_player_index g) = Some cur
                  ∧ can_act cur = false
                  ∧ g' = _move_to_next_active_player g)) as Hsame.
  { intros g' ->. split; [by rewrite set_current_player_index_same|by left]. }
  destruct (can_act player) eqn:Hact; simpl; [|eauto].
  pose proof (get_current_player_index g) as Hidx.
  pose proof (get_current_player_cases g) as Hcases.
  pose proof (get_current_player_valid_actions g player) as Hvalid.
  pose proof (get_current_player_bets g) as (Hcb & Hmr & _).
  destruct (get_current_player g) as [current g0]. simpl in *.
  assert (g0 = set_current_player_index (current_player_index g0) g
          ∧ (g0 = g
             ∨ ∃ cur, players g !! Z.to_nat (current_player_index g) = Some cur
                      ∧ can_act cur = false
                      ∧ g0 = _move_to_next_active_player g)) as Hg0 by done.
  case_bool_decide as Hcur; [eauto|].
  rewrite Hvalid.
  case_bool_decide as Hin; [eauto|].
  destruct Hrej as [Hrej|[Hrej|[-> Hrej]]]; [done..|].
  simpl. rewrite Hcb, Hmr.
  destruct (Z.ltb_spec amount (current_bet g + min_raise g)); [eauto|lia].
Qed.

Lemma C4_rejected_action_witness :
  ∃ g', player_action bet_of_100 2 RAISE 150 = Ok (false, g')
      ∧ g' = set_current_player_index (current_player_index g') bet_of_100
      ∧ (g' = bet_of_100
         ∨ ∃ cur, players bet_of_100
                    !! Z.to_nat (current_player_index bet_of_100) = Some cur
                  ∧ can_act cur = false
                  ∧ g' = _move_to_next_active_player bet_of_100).
Proof.
  apply (C4_rejected_action bet_of_100 2 short_stack RAISE 150); [done|].
  right. left. change (get_valid_actions bet_of_100 short_stack) with [FOLD; ALLIN].
  rewrite !elem_of_cons, elem_of_nil. intuition discriminate.
Defined.

(** C4 as stated fails on the actor index: Alice's raise to 25 is below
    the minimum of 40 and is refused, yet the index has moved from the
    button's seat to hers. *)
Lemma C4_counterexample :
  25 < current_bet short_blind + min_raise short_blind
  ∧ ∃ g', player_action short_blind 0 RAISE 25 = Ok (false, g')
          ∧ current_player_index short_blind = 1
          ∧ current_player_index g' = 0
          ∧ g' ≠ short_blind.
Proof.
  split; [by vm_compute|].
  eexists. split; [by vm_compute|]. repeat split. discriminate.
Qed.
End rejected_action.

Section single_survivor.
Import Player Game.

(** The number of players in the hand. *)
Lemma seated_where_length P ps :
  length (seated_where P ps) = length (filter (λ p, P p = true) ps).
Proof.
  unfold seated_where. generalize 0%nat.
  induction ps as [|p ps IH]; intros a; simpl; [done|].
  rewrite !filter_cons. simpl. case_decide; simpl; by rewrite IH.
Qed.

Lemma in_hand_length_mono ps qs :
  Forall2 (λ p q, is_in_hand p = true → is_in_hand q = true) ps qs →
  (length (filter (λ p, is_in_hand p = true) ps)
   ≤ length (filter (λ p, is_in_hand p = true) qs))%nat.
Proof.
  induction 1 as [|p q ps qs Hpq _ IH]; [done|].
  rewrite !filter_cons. repeat case_decide; simpl; try lia. tauto.
Qed.

Lemma in_hand_same ps :
  Forall2 (λ p q, is_in_hand p = true → is_in_hand q = true) ps ps.
Proof. induction ps; constructor; auto. Qed.

Lemma in_hand_alter_win amount w ps :
  Forall2 (λ p q, is_in_hand p = true → is_in_hand q = true)
          ps (alter (win_chips amount) w ps).
Proof.
  revert w. induction ps as [|p ps IH]; intros w; [constructor|].
  destruct w as [|w]; simpl; constructor; auto using in_hand_same.
  apply IH.
Qed.

Lemma in_hand_pay_showdown ws : ∀ i q r ps,
  Forall2 (λ p q, is_in_hand p = true → is_in_hand q = true)
          ps (pay_showdown i q r ws ps).
Proof.
  induction ws as [|w ws IH]; intros i q r ps; simpl;
    [apply in_hand_same|].
  eapply Forall2_trans; [|apply in_hand_alter_win|apply IH]. simpl. auto.
Qed.

Lemma in_hand_new_betting_round ps :
  Forall2 (λ p q, is_in_hand p = true → is_in_hand q = true)
          ps (new_betting_round <$> ps).
Proof.
  induction ps as [|p ps IH]; simpl; constructor; [|done].
  unfold new_betting_round, is_in_hand. simpl.
  repeat case_bool_decide; simpl; try done; destruct (0 <? chips p); simpl;
    repeat case_bool_decide; done.
Qed.
End single_survivor.

Section single_survivor_claim.
Import Player Game Tables.

Lemma _set_first_player_to_act_index g :
  _set_first_player_to_act g
  = set_current_player_index
      (current_player_index (_set_first_player_to_act g)) g.
Proof.
  unfold _set_first_player_to_act.
  repeat case_match; simpl; try done;
    by rewrite set_current_player_index_same.
Qed.

Lemma _showdown_in_hand g g' :
  _showdown g = Ok g' →
  Forall2 (λ p q, is_in_hand p = true → is_in_hand q = true)
          (players g) (players g').
Proof.
  unfold _showdown.
  destruct (seated_where is_in_hand (players g)) as [|[w p] [|sp rest]].
  - intros [= <-]. apply in_hand_same.
  - intros [= <-]. apply in_hand_alter_win.
  - destruct (evaluate_players _ _) as [hands|]; simpl; [|done].
    destruct (_determine_winners hands) as [|w0 ws]; intros [= <-].
    + apply in_hand_same.
    + apply (in_hand_pay_showdown (w0 :: ws)).
Qed.

Lemma _advance_to_next_phase_in_hand g g' :
  _advance_to_next_phase g = Ok g' →
  (length (seated_where is_in_hand (players g))
   ≤ length (seated_where is_in_hand (players g')))%nat.
Proof.
  rewrite !seated_where_length. unfold _advance_to_next_phase.
  set (g2 := set_betting _ _ _ _).
  assert (Forall2 (λ p q, is_in_hand p = true → is_in_hand q = true)
                  (players g) (players g2)) as H2
    by apply in_hand_new_betting_round.
  intros Hadv.
  assert (∃ g3, Forall2 (λ p q, is_in_hand p = true → is_in_hand q = true)
                        (players g2) (players g3)
                ∧ players g' = players g3) as (g3 & H3 & ->).
  { destruct (phase g2) eqn:Hph; simpl in Hadv;
      try (exists g2; split; [apply in_hand_same|];
           repeat case_bool_decide; injection Hadv as <-;
           by rewrite 1?_set_first_player_to_act_index).
    all: try (eexists; split; [|repeat case_bool_decide; injection Hadv as <-;
                by rewrite 1?_set_first_player_to_act_index];
              unfold _deal_flop, _deal_turn, _deal_river, deal_community;
              repeat case_match; simpl; apply in_hand_same).
    destruct (_showdown g2) as [g3|] eqn:Hsd; simpl in Hadv; [|done].
    exists g3. split; [by apply _showdown_in_hand|].
    repeat case_bool_decide; injection Hadv as <-;
      by rewrite 1?_set_first_player_to_act_index. }
  etrans; [by apply in_hand_length_mono|by apply in_hand_length_mono].
Qed.

Lemma apply_action_cards g i p action amount g1 :
  apply_action g i p action amount = Some g1 →
  community_cards g1 = community_cards g ∧ deck g1 = deck g.
Proof.
  unfold apply_action. destruct action; repeat case_match;
    intros [= <-]; done.
Qed.

End single_survivor_claim.

(** * Side pots *)

Section side_pots.
Import Pot Split LayerSpec.

Context (store : list Player.Player) (pot : Pot) (players : list PlayerRef).

Lemma levels_from_sorted l : ∀ below,
  StronglySorted Z.lt (below :: levels_from below l).
Proof.
  induction l as [|a l IH]; intros below; simpl.
  - repeat constructor.
  - destruct (Z.ltb_spec below a); [|done].
    specialize (IH a). apply StronglySorted_inv in IH as [IH Ha].
    constructor; [by constructor|].
    constructor; [done|]. eapply Forall_impl; [done|]. simpl. lia.
Qed.

Lemma levels_from_elem l : ∀ below x,
  Sorted Z.le l → x ∈ levels_from below l ↔ below < x ∧ x ∈ l.
Proof.
  induction l as [|a l IH]; intros below x Hs; simpl.
  - rewrite elem_of_nil. tauto.
  - apply Sorted_StronglySorted in Hs; [|intros ???; lia].
    apply StronglySorted_inv in Hs as [Hs Ha].
    apply StronglySorted_Sorted in Hs. rewrite Forall_forall in Ha.
    destruct (Z.ltb_spec below a); rewrite ?elem_of_cons, IH by done.
    + split; [intros [->|[? ?]]; split; auto; lia|].
      intros [? [->|Hx]]; [by left|].
      specialize (Ha x Hx). destruct (decide (x = a)); [by left|right].
      split; [lia|done].
    + split; [intros [? ?]; auto|].
      intros [? [->|Hx]]; [lia|done].
Qed.

Lemma remove_first_not_in (x : nat) l : x ∉ l → remove_first x l = l.
Proof.
  induction l as [|y l IH]; simpl; [done|].
  intros [Hne Hin]%not_elem_of_cons. case_decide; [congruence|].
  by rewrite IH.
Qed.

Lemma remove_first_filter (P : nat → Prop) `{!∀ x, Decision (P x)} x l :
  NoDup l → remove_first x (filter P l) = filter (λ p, P p ∧ p ≠ x) l.
Proof.
  induction 1 as [|y l Hy Hnd IH]; [done|].
  rewrite !filter_cons. destruct (decide (P y)) as [HP|HP].
  - simpl. destruct (decide (y = x)) as [->|Hne].
    + rewrite decide_False by tauto.
      rewrite <- IH. symmetry. apply remove_first_not_in.
      rewrite list_elem_of_filter. tauto.
    + rewrite decide_True by tauto. by rewrite IH.
  - rewrite decide_False by tauto. done.
Qed.

Lemma filter_all {A} (P : A → Prop) `{!∀ x, Decision (P x)} l :
  Forall P l → filter P l = l.
Proof.
  induction 1 as [|x l Hx _ IH]; [done|].
  by rewrite filter_cons, decide_True, IH.
Qed.

Lemma filter_iff_in {A} (P Q : A → Prop)
    `{!∀ x, Decision (P x)} `{!∀ x, Decision (Q x)} (l : list A) :
  (∀ x, x ∈ l → P x ↔ Q x) → filter P l = filter Q l.
Proof.
  induction l as [|x l IH]; intros Hiff; [done|].
  rewrite !filter_cons.
  rewrite IH by (intros y Hy; apply Hiff; by right).
  destruct (decide (P x)) as [HP|HP].
  - rewrite decide_True; [done|]. apply Hiff; [by left|done].
  - rewrite decide_False; [done|]. intros HQ. apply HP, Hiff; [by left|done].
Qed.

(** One turn of the loop on a contribution above the previous level. *)
Lemma layer_step_new_level st pk a :
  previous_amount st < a → pk ∈ remaining_players st →
  layer_step store st (pk, a)
  = mkLayerState
      (ls_side_pots st
       ++ filter open_layer
            [mkSidePot ((a - previous_amount st)
                        * Z.of_nat (length (remaining_players st)))
                       (filter (λ p, ref_is_in_hand store p = true)
                               (remaining_players st))])
      a (remove_first pk (remaining_players st)).
Proof.
  intros Hlt Hin. unfold layer_step.
  destruct (Z.ltb_spec (previous_amount st) a); [|lia]. simpl.
  rewrite bool_decide_eq_true_2 by done.
  assert (0 < (a - previous_amount st)
              * Z.of_nat (length (remaining_players st))) as Hpos.
  { destruct (remaining_players st); [by apply elem_of_nil in Hin|].
    simpl length. nia. }
  destruct (Z.ltb_spec 0 ((a - previous_amount st)
                          * Z.of_nat (length (remaining_players st))));
    [|lia].
  rewrite filter_cons, filter_nil. unfold open_layer at 1. simpl.
  destruct (filter _ (remaining_players st)) eqn:Hel.
  - rewrite decide_False by (intros H'; by apply H'). by rewrite app_nil_r.
  - rewrite decide_True by done. done.
Qed.

Lemma layer_step_same_level st pk a :
  a ≤ previous_amount st → pk ∈ remaining_players st →
  layer_step store st (pk, a)
  = mkLayerState (ls_side_pots st) (previous_amount st)
                 (remove_first pk (remaining_players st)).
Proof.
  intros Hle Hin. unfold layer_step.
  destruct (Z.ltb_spec (previous_amount st) a); [lia|].
  by rewrite bool_decide_eq_true_2.
Qed.

(** The loop of [create_side_pots], from any point of the sorted list
    of contributions on. *)
Lemma layer_loop cs : ∀ st,
  Sorted (λ a b : nat * Z, a.2 ≤ b.2) cs →
  NoDup cs.*1 →
  (∀ p a, (p, a) ∈ cs → a = contribution pot p ∧ p ∈ players) →
  NoDup players →
  0 ≤ previous_amount st →
  remaining_players st = filter (λ p, p ∈ cs.*1) players →
  (∀ p, p ∈ players → p ∉ cs.*1 → contribution pot p ≤ previous_amount st) →
  (∀ p a, (p, a) ∈ cs → previous_amount st ≤ a ∨ previous_amount st = 0) →
  ls_side_pots (fold_left (layer_step store) cs st)
  = ls_side_pots st
    ++ filter open_layer
         (spec_layers store pot players (previous_amount st)
            (levels_from (previous_amount st) cs.*2)).
Proof.
  induction cs as [|[pk a] cs IH]; intros st Hs Hnd Hcs Hndp Hprev Hrem Hdone Hle.
  { simpl. by rewrite app_nil_r. }
  apply Sorted_StronglySorted in Hs; [|intros ???; lia].
  apply StronglySorted_inv in Hs as [Hs Ha]. rewrite Forall_forall in Ha.
  apply StronglySorted_Sorted in Hs.
  apply NoDup_cons in Hnd as [Hpk Hnd].
  destruct (Hcs pk a) as [Hca Hpkin]; [apply list_elem_of_here|].
  assert (∀ p a', (p, a') ∈ cs → a' = contribution pot p ∧ p ∈ players) as Hcs'.
  { intros p a' Hin. apply Hcs. by apply list_elem_of_further. }
  assert (pk ∈ remaining_players st) as Hpkrem.
  { rewrite Hrem, list_elem_of_filter. split; [apply list_elem_of_here|done]. }
  assert (remove_first pk (remaining_players st)
          = filter (λ p, p ∈ cs.*1) players) as Hrem'.
  { rewrite Hrem, remove_first_filter by done.
    apply filter_iff_in. intros p _. simpl. rewrite elem_of_cons.
    split; [intros [[->|?] ?]; done|].
    intros Hp. split; [by right|]. by intros ->. }
  change (fold_left (layer_step store) ((pk, a) :: cs) st)
    with (fold_left (layer_step store) cs (layer_step store st (pk, a))).
  rewrite (fmap_cons snd). cbn [levels_from snd].
  destruct (Z.ltb_spec (previous_amount st) a) as [Hlt|Hge].
  - (* a new level *)
    assert (remaining_players st
            = filter (λ p, a ≤ contribution pot p) players) as Hlevel.
    { rewrite Hrem. apply filter_iff_in. intros p Hp. split.
      + simpl. intros [->|Hin]%elem_of_cons; [lia|].
        apply list_elem_of_fmap in Hin as ([p' a'] & -> & Hin). simpl.
        destruct (Hcs' p' a' Hin) as [-> _].
        by apply (Ha (p', contribution pot p')).
      + intros Hap. destruct (decide (p ∈ ((pk, a) :: cs).*1)); [done|].
        specialize (Hdone p Hp ltac:(done)). lia. }
    rewrite layer_step_new_level by done.
    rewrite IH; simpl; try done; try lia.
    + rewrite <- app_assoc. f_equal.
      rewrite (filter_cons _ (spec_layer _ _ _ _ _)).
      unfold spec_layer at 1. rewrite Hlevel at 1 2.
      rewrite list_filter_filter.
      rewrite filter_cons, filter_nil.
      rewrite (filter_iff_in
                 (λ p, ref_is_in_hand store p = true ∧ a ≤ contribution pot p)
                 (λ p, a ≤ contribution pot p ∧ ref_is_in_hand store p = true))
        by (intros; tauto).
      unfold spec_layer.
      set (sp := mkSidePot _ _). by destruct (decide (open_layer sp)).
    + intros p Hp Hnot. destruct (decide (p = pk)) as [->|Hne]; [lia|].
      assert (p ∉ ((pk, a) :: cs).*1)
        by (simpl; rewrite not_elem_of_cons; done).
      specialize (Hdone p Hp ltac:(done)). lia.
    + intros p a' Hin. left. by apply (Ha (p, a')).
  - rewrite layer_step_same_level by done.
    rewrite IH; simpl; try done.
    + intros p Hp Hnot. destruct (decide (p = pk)) as [->|Hne]; [lia|].
      apply Hdone; [done|]. simpl. rewrite not_elem_of_cons. done.
    + intros p a' Hin. apply (Hle p a'). by apply list_elem_of_further.
Qed.

Lemma sum_split_level (f : nat → Z) (l : list nat) below level :
  below < level →
  (∀ p, p ∈ l → f p ≤ below ∨ level ≤ f p) →
  sum_list_Z (map (λ p, Z.max 0 (f p - below)) l)
  = (level - below) * Z.of_nat (length (filter (λ p, level ≤ f p) l))
    + sum_list_Z (map (λ p, Z.max 0 (f p - level)) l).
Proof.
  intros Hlt. induction l as [|p l IH]; intros Hsplit.
  - simpl. lia.
  - rewrite filter_cons. cbn [map sum_list_Z foldr].
    fold (sum_list_Z (map (λ p, Z.max 0 (f p - below)) l)).
    fold (sum_list_Z (map (λ p, Z.max 0 (f p - level)) l)).
    rewrite IH by (intros q Hq; apply Hsplit; by right).
    destruct (Hsplit p) as [Hp|Hp]; [by left| |].
    + rewrite decide_False by lia. lia.
    + rewrite decide_True by lia. cbn [length].
      rewrite Nat2Z.inj_succ, Z.mul_succ_r. lia.
Qed.

Lemma sum_nothing_above (f : nat → Z) (l : list nat) below :
  (∀ p, p ∈ l → f p ≤ below) →
  sum_list_Z (map (λ p, Z.max 0 (f p - below)) l) = 0.
Proof.
  induction l as [|p l IH]; intros Hle; [done|].
  cbn [map sum_list_Z foldr].
  fold (sum_list_Z (map (λ p, Z.max 0 (f p - below)) l)).
  rewrite IH by (intros q Hq; apply Hle; by right).
  specialize (Hle p ltac:(by left)). lia.
Qed.

(** All layers together hold what was contributed above [below]. *)
Lemma spec_layers_total levels : ∀ below,
  StronglySorted Z.lt (below :: levels) →
  (∀ p, p ∈ players → below < contribution pot p →
        contribution pot p ∈ levels) →
  total_amount (spec_layers store pot players below levels)
  = sum_list_Z (map (λ p, Z.max 0 (contribution pot p - below)) players).
Proof.
  induction levels as [|level levels IH]; intros below Hs Hcover.
  - simpl. rewrite sum_nothing_above; [done|].
    intros p Hp. destruct (Z.le_gt_cases (contribution pot p) below); [done|].
    specialize (Hcover p Hp ltac:(lia)). by apply elem_of_nil in Hcover.
  - apply StronglySorted_inv in Hs as [Hs Hb].
    pose proof Hs as Hs'. apply StronglySorted_inv in Hs' as [_ Hl].
    rewrite Forall_forall in Hb, Hl.
    assert (below < level) as Hlt by (apply Hb; by left).
    unfold total_amount. cbn [spec_layers map sum_list_Z foldr].
    fold (sum_list_Z (map amount (spec_layers store pot players level levels))).
    fold (total_amount (spec_layers store pot players level levels)).
    rewrite IH; [|done|].
    + symmetry.
      apply (sum_split_level (contribution pot) players below level); [done|].
      intros p Hp. destruct (Z.le_gt_cases (contribution pot p) below); [by left|].
      right. specialize (Hcover p Hp ltac:(lia)).
      apply elem_of_cons in Hcover as [->|Hin]; [lia|].
      specialize (Hl _ Hin). lia.
    + intros p Hp Hgt. specialize (Hcover p Hp ltac:(lia)).
      apply elem_of_cons in Hcover as [Heq|Hin]; [lia|done].
Qed.
End side_pots.

Section side_pots_claim.
Import Pot Split LayerSpec.

Lemma contributions_of_all pot (players : list PlayerRef) :
  (∀ p, p ∈ players → is_Some (player_contributions pot !! p)) →
  contributions_of pot players = map (λ p, (p, contribution pot p)) players.
Proof.
  unfold contributions_of, contribution.
  induction players as [|p players IH]; intros Hall; [done|].
  cbn [omap list_omap map].
  destruct (Hall p) as [v Hv]; [by left|]. rewrite Hv. simpl.
  f_equal. apply IH. intros q Hq. apply Hall. by right.
Qed.

Lemma spec_layers_nonneg store pot players levels : ∀ below,
  StronglySorted Z.lt (below :: levels) →
  Forall (λ sp, 0 ≤ amount sp) (spec_layers store pot players below levels).
Proof.
  induction levels as [|level levels IH]; intros below Hs; [constructor|].
  apply StronglySorted_inv in Hs as [Hs Hb]. rewrite Forall_forall in Hb.
  assert (below < level) by (apply Hb; by left).
  constructor; [simpl; nia|by apply IH].
Qed.

Lemma total_amount_filter (P : SidePot → Prop) `{!∀ x, Decision (P x)} pots :
  Forall (λ sp, 0 ≤ amount sp) pots →
  total_amount (filter P pots) ≤ total_amount pots.
Proof.
  unfold total_amount.
  induction 1 as [|sp pots Hsp _ IH]; [done|].
  rewrite filter_cons. case_decide; simpl; lia.
Qed.

Lemma sum_max_nonneg (f : nat → Z) (l : list nat) :
  (∀ p, p ∈ l → 0 ≤ f p) →
  sum_list_Z (map (λ p, Z.max 0 (f p - 0)) l) = sum_list_Z (map f l).
Proof.
  induction l as [|p l IH]; intros Hf; [done|].
  cbn [map sum_list_Z foldr].
  fold (sum_list_Z (map (λ p, Z.max 0 (f p - 0)) l)).
  fold (sum_list_Z (map f l)).
  rewrite IH by (intros q Hq; apply Hf; by right).
  specialize (Hf p ltac:(by left)). lia.
Qed.

Lemma spec_layers_open store pot players p levels : ∀ below,
  p ∈ players → ref_is_in_hand store p = true →
  (∀ l, l ∈ levels → l ≤ contribution pot p) →
  Forall open_layer (spec_layers store pot players below levels).
Proof.
  induction levels as [|l levels IH]; intros below Hp Hin Hbelow;
    [constructor|].
  constructor; [|apply IH; auto; intros; apply Hbelow; by right].
  unfold open_layer. simpl. intros Hnil.
  assert (p ∈ filter (λ q, l ≤ contribution pot q
                           ∧ ref_is_in_hand store q = true) players) as Hel.
  { apply list_elem_of_filter. split; [|done]. split; [|done].
    apply Hbelow. by left. }
  rewrite Hnil in Hel. by apply elem_of_nil in Hel.
Qed.

(** C1 (as amended): for contributing players listed once each, with
    non-negative recorded contributions, [create_side_pots] leaves one
    layer per distinct positive contribution level, in ascending order,
    except that a layer no in-hand player is eligible for is not
    created.  A layer's amount is the level difference times the number
    of players who contributed at least the level, and its eligible list
    is exactly those of them who are in the hand.  All layers together
    hold the sum of the contributions; the side pots hold at most that,
    and exactly that when a player with the highest contribution is
    still in the hand. *)
Theorem C1_side_pots (store : list Player.Player) (pot : Pot)
    (players : list PlayerRef) :
  NoDup players →
  (∀ p, p ∈ players → is_Some (player_contributions pot !! p)) →
  (∀ p, p ∈ players → 0 ≤ contribution pot p) →
  player_contributions pot ≠ ∅ →
  let pot' := create_side_pots store players pot in
  ∃ levels,
    is_levels pot players levels
    ∧ side_pots pot'
      = filter open_layer (spec_layers store pot players 0 levels)
    ∧ total_amount (spec_layers store pot players 0 levels)
      = total_contributed pot players
    ∧ total_amount (side_pots pot') ≤ total_contributed pot players
    ∧ ((∃ p, p ∈ players ∧ ref_is_in_hand store p = true
             ∧ ∀ q, q ∈ players → contribution pot q ≤ contribution pot p) →
         side_pots pot' = spec_layers store pot players 0 levels
         ∧ total_amount (side_pots pot') = total_contributed pot players)
    ∧ main_pot pot' = main_pot pot
    ∧ player_contributions pot' = player_contributions pot.
Proof.
  intros Hnd Hall Hnonneg Hne pot'.
  set (cs := sorted snd false (map (λ p, (p, contribution pot p)) players)).
  assert (cs ≡ₚ map (λ p, (p, contribution pot p)) players) as Hperm
    by apply sorted_Permutation.
  assert (cs.*1 ≡ₚ players) as Hperm1.
  { rewrite Hperm. clear. induction players; simpl; [done|by f_equiv]. }
  assert (∀ x, x ∈ cs.*2 ↔ ∃ p, p ∈ players ∧ contribution pot p = x) as Hvals.
  { intros x. rewrite Hperm. clear. induction players as [|p ps IH]; simpl.
    - rewrite elem_of_nil. split; [done|]. intros (p & Hp & _).
      by apply elem_of_nil in Hp.
    - rewrite elem_of_cons, IH. split.
      + intros [->|(q & Hq & <-)]; [exists p|exists q]; split; try done.
        * by left.
        * by right.
      + intros (q & [->|Hq]%elem_of_cons & <-); [by left|right; eauto]. }
  assert (Sorted (λ a b : nat * Z, a.2 ≤ b.2) cs) as Hsorted
    by apply (sorted_asc_Sorted snd).
  assert (Sorted Z.le cs.*2) as Hsorted2.
  { eapply (Sorted_fmap snd); [|exact Hsorted]. done. }
  assert (side_pots pot'
          = filter open_layer
              (spec_layers store pot players 0 (levels_from 0 cs.*2))) as Hpots.
  { unfold pot', create_side_pots.
    rewrite bool_decide_eq_false_2 by done. cbn [side_pots].
    rewrite contributions_of_all by done. fold cs.
    rewrite (layer_loop store pot players cs); simpl; try done.
    - by rewrite Hperm1.
    - intros p a Hin. rewrite Hperm in Hin.
      apply list_elem_of_fmap in Hin as (q & [= -> ->] & Hq). done.
    - symmetry. apply filter_all, Forall_forall. intros p Hp. by rewrite Hperm1.
    - intros p Hp Hnot. by rewrite Hperm1 in Hnot.
    - auto. }
  assert (is_levels pot players (levels_from 0 cs.*2)) as Hlevels.
  { split; [apply levels_from_sorted|]. intros l.
    by rewrite levels_from_elem, Hvals. }
  assert (total_amount (spec_layers store pot players 0 (levels_from 0 cs.*2))
          = total_contributed pot players) as Htotal.
  { rewrite (spec_layers_total store pot players); [|apply levels_from_sorted|].
    - by apply sum_max_nonneg.
    - intros p Hp Hpos. apply levels_from_elem; [done|].
      split; [done|]. apply Hvals. eauto. }
  exists (levels_from 0 cs.*2).
  split; [done|]. split; [done|]. split; [done|]. split; [|split].
  3: { unfold pot', create_side_pots. by rewrite bool_decide_eq_false_2. }
  - rewrite Hpots, <- Htotal. apply total_amount_filter.
    apply spec_layers_nonneg, levels_from_sorted.
  - intros (p & Hp & Hin & Hmax).
    assert (side_pots pot'
            = spec_layers store pot players 0 (levels_from 0 cs.*2)) as Hall'.
    { rewrite Hpots. apply filter_all.
      destruct Hlevels as [_ Hlv].
      assert (∀ l, l ∈ levels_from 0 cs.*2 → l ≤ contribution pot p) as Hbelow.
      { intros l Hl. apply Hlv in Hl as (_ & q & Hq & <-). by apply Hmax. }
      by apply (spec_layers_open store pot players p). }
    split; [done|]. by rewrite Hall'.
Qed.

Lemma C1_side_pots_witness :
  let pot' := create_side_pots two_all_in [0; 1]%nat two_all_in_pot in
  (∃ levels,
    is_levels two_all_in_pot [0; 1]%nat levels
    ∧ side_pots pot'
      = filter open_layer
          (spec_layers two_all_in two_all_in_pot [0; 1]%nat 0 levels)
    ∧ total_amount (spec_layers two_all_in two_all_in_pot [0; 1]%nat 0 levels)
      = total_contributed two_all_in_pot [0; 1]%nat
    ∧ total_amount (side_pots pot') ≤ total_contributed two_all_in_pot [0; 1]%nat
    ∧ ((∃ p, p ∈ [0; 1]%nat ∧ ref_is_in_hand two_all_in p = true
             ∧ ∀ q, q ∈ [0; 1]%nat →
                    contribution two_all_in_pot q ≤ contribution two_all_in_pot p) →
         side_pots pot'
         = spec_layers two_all_in two_all_in_pot [0; 1]%nat 0 levels
         ∧ total_amount (side_pots pot')
           = total_contributed two_all_in_pot [0; 1]%nat)
    ∧ main_pot pot' = main_pot two_all_in_pot
    ∧ player_contributions pot' = player_contributions two_all_in_pot)
  ∧ side_pots pot' = [mkSidePot 100 [0; 1]%nat; mkSidePot 150 [1%nat]].
Proof.
  split; [|by vm_compute].
  apply (C1_side_pots two_all_in two_all_in_pot [0; 1]%nat).
  - apply NoDup_cons. split; [|apply NoDup_singleton].
    rewrite list_elem_of_singleton. lia.
  - intros p Hp. rewrite !elem_of_cons, elem_of_nil in Hp.
    destruct Hp as [->|[->|[]]]; vm_compute; eauto.
  - intros p Hp. rewrite !elem_of_cons, elem_of_nil in Hp.
    destruct Hp as [->|[->|[]]]; by vm_compute.
  - intros Hempty. apply (f_equal (λ m : gmap nat Z, m !! 0%nat)) in Hempty.
    by vm_compute in Hempty.
Defined.

(** C1 as stated fails when the highest contributor has folded: Alice
    put in 100 and folded, Bob is all-in for 50; the one side pot holds
    100 of the 150 contributed. *)
Lemma C1_counterexample :
  let pot' := create_side_pots folded_leader [0; 1]%nat folded_leader_pot in
  side_pots pot' = [mkSidePot 100 [1%nat]]
  ∧ total_contributed folded_leader_pot [0; 1]%nat = 150
  ∧ total_amount (side_pots pot')
    ≠ total_contributed folded_leader_pot [0; 1]%nat.
Proof. by vm_compute. Qed.
End side_pots_claim.

(** * Further properties: the deck *)

Section deck_facts.
Import Card.

Lemma deal_card_empty : deal_card [] = (None, []).
Proof. done. Qed.

Lemma deal_card_top d c : deal_card (d ++ [c]) = (Some c, d).
Proof. unfold deal_card. by rewrite last_snoc, removelast_last. Qed.

Lemma deal_cards_spec (count : nat) (d : Deck) :
  d = (deal_cards count d).2 ++ reverse (deal_cards count d).1
  ∧ length (deal_cards count d).1 = Nat.min count (length d).
Proof.
  revert d. induction count as [|n IH]; intros d.
  { simpl. by rewrite app_nil_r. }
  destruct d as [|c d _] using rev_ind.
  { by rewrite (eq_refl : deal_cards (S n) [] = ([], [])). }
  cbn [deal_cards]. rewrite deal_card_top.
  destruct (IH d) as [Hd Hlen]. destruct (deal_cards n d) as [cs d'] eqn:Hdeal.
  simpl in *. rewrite reverse_cons, app_assoc, <- Hd. split; [done|].
  rewrite length_app, Nat.add_1_r. simpl. lia.
Qed.

(** X1: [deal_cards(count)] takes cards off the end of the deck, the last
    card first, and stops when the deck is empty: the deck before is the
    deck after followed by the dealt cards in reverse, and the number
    dealt is the smaller of [count] and the size of the deck. *)
Theorem X1_deal_cards (count : nat) (d : Deck) :
  d = (deal_cards count d).2 ++ reverse (deal_cards count d).1
  ∧ length (deal_cards count d).1 = Nat.min count (length d).
Proof. apply deal_cards_spec. Qed.

Lemma reset_full_deck :
  length reset = 52%nat ∧ NoDup reset ∧ ∀ c, c ∈ reset.
Proof.
  split; [done|]. split.
  - apply (bool_decide_unpack (NoDup reset)). by vm_compute.
  - intros [s r]. apply (bool_decide_unpack (_ ∈ reset)).
    by destruct s, r; vm_compute.
Qed.

(** X2: a deck that was reset and shuffled holds each of the 52 cards
    once, and dealing from it never hands out a card twice nor leaves a
    dealt card in the deck: the dealt cards and the rest are the 52 cards
    again. *)
Theorem X2_deck_no_duplicates (shuffled : Deck) (count : nat) :
  shuffled ≡ₚ reset →
  let '(dealt, rest) := deal_cards count shuffled in
  NoDup (dealt ++ rest)
  ∧ (∀ c, c ∈ dealt ++ rest)
  ∧ (length dealt + length rest = 52)%nat.
Proof.
  intros Hperm.
  destruct (deal_cards_spec count shuffled) as [Hd _].
  destruct (deal_cards count shuffled) as [dealt rest]. simpl in Hd.
  destruct reset_full_deck as (Hlen & Hnd & Hall).
  assert (dealt ++ rest ≡ₚ reset) as Hp.
  { rewrite <- Hperm, Hd at 1. rewrite reverse_Permutation.
    apply Permutation_app_comm. }
  split; [by rewrite Hp|]. split; [intros c; by rewrite Hp|].
  by rewrite <- length_app, Hp.
Qed.

Lemma X2_deck_no_duplicates_witness :
  let '(dealt, rest) := deal_cards 5 reset in
  NoDup (dealt ++ rest)
  ∧ (∀ c, c ∈ dealt ++ rest)
  ∧ (length dealt + length rest = 52)%nat.
Proof. apply (X2_deck_no_duplicates reset 5). reflexivity. Defined.
End deck_facts.

(** * Further properties: the order on hand results *)

Section hand_order.
Import Card HandEvaluator.

Lemma evaluate_hand_sizes (cs : list Card) :
  (length cs ≠ 7%nat → evaluate_hand cs = Raise ValueError)
  ∧ (length cs = 7%nat → ∃ r, evaluate_hand cs = Ok (Some r)).
Proof.
  unfold evaluate_hand. split; intros Hlen.
  - by rewrite bool_decide_eq_true_2.
  - rewrite bool_decide_eq_false_2 by (by rewrite Hlen; intros []).
    destruct (best_loop_total (combinations cs 5) None) as (r & Hr & Hnone).
    { apply Forall_forall. intros c. apply combinations_length. }
    rewrite Hr. destruct r as [r|]; [by exists r|].
    destruct Hnone as [_ Hnil]; [done|].
    destruct cs as [|c1 [|c2 [|c3 [|c4 [|c5 [|c6 [|c7 [|]]]]]]]];
      discriminate.
Qed.

Lemma lt_values_irrefl a : lt_values a a = false.
Proof.
  induction a as [|x a IH]; simpl; [done|].
  by rewrite bool_decide_eq_false_2 by (by intros []).
Qed.

Lemma lt_values_trans a : ∀ b c,
  lt_values a b = true → lt_values b c = true → lt_values a c = true.
Proof.
  induction a as [|x a IH]; intros [|y b] [|z c]; simpl; try done.
  repeat case_bool_decide; subst; rewrite ?Z.ltb_lt; try lia; eauto.
Qed.

Lemma lt_values_asym a : ∀ b, lt_values a b = true → lt_values b a = false.
Proof.
  induction a as [|x a IH]; intros [|y b]; simpl; try done.
  repeat case_bool_decide; subst; rewrite ?Z.ltb_lt, ?Z.ltb_ge; try lia; eauto.
Qed.

Lemma lt_values_connected a : ∀ b,
  length a = length b →
  lt_values a b = false → lt_values b a = false → a = b.
Proof.
  induction a as [|x a IH]; intros [|y b]; simpl; try done.
  intros [= Hlen]. repeat case_bool_decide; subst; rewrite ?Z.ltb_ge; try lia.
  intros. f_equal. eauto.
Qed.

Lemma hr_value_inj h1 h2 : hr_value h1 = hr_value h2 → h1 = h2.
Proof. by destruct h1, h2. Qed.

Lemma lt_irrefl a : lt a a = false.
Proof.
  unfold lt. rewrite bool_decide_eq_false_2 by (by intros []).
  apply lt_values_irrefl.
Qed.

Lemma lt_trans a b c : lt a b = true → lt b c = true → lt a c = true.
Proof.
  unfold lt. repeat case_bool_decide; rewrite ?Z.ltb_lt; try lia.
  apply lt_values_trans.
Qed.

Lemma lt_asym a b : lt a b = true → lt b a = false.
Proof.
  unfold lt. repeat case_bool_decide; rewrite ?Z.ltb_lt, ?Z.ltb_ge; try lia.
  apply lt_values_asym.
Qed.

(** X3: [__lt__] is a strict order on hand results (irreflexive,
    transitive, asymmetric), and two results whose tie-break lists have
    the same length are [__eq__] exactly when neither is below the
    other. *)
Theorem X3_hand_result_order :
  (∀ a, lt a a = false)
  ∧ (∀ a b c, lt a b = true → lt b c = true → lt a c = true)
  ∧ (∀ a b, lt a b = true → lt b a = false)
  ∧ (∀ a b, length (rank_values a) = length (rank_values b) →
       (eq a b = true ↔ lt a b = false ∧ lt b a = false)).
Proof.
  split; [apply lt_irrefl|]. split; [apply lt_trans|]. split; [apply lt_asym|].
  intros a b Hlen. unfold eq, lt. split.
  - intros [Hr Hv]%andb_true_iff.
    apply bool_decide_eq_true_1 in Hr, Hv. rewrite Hr, Hv.
    rewrite bool_decide_eq_false_2 by (by intros []).
    by rewrite lt_values_irrefl.
  - intros [Hab Hba].
    destruct (decide (hr_value (hand_rank a) = hr_value (hand_rank b)))
      as [Heq|Hne].
    + rewrite bool_decide_eq_false_2 in Hab by (by intros []).
      rewrite bool_decide_eq_false_2 in Hba by (by intros []).
      rewrite (bool_decide_eq_true_2 _ (hr_value_inj _ _ Heq)).
      by rewrite (bool_decide_eq_true_2 _ (lt_values_connected _ _ Hlen Hab Hba)).
    + rewrite bool_decide_eq_true_2 in Hab by done.
      rewrite bool_decide_eq_true_2 in Hba by (by intros ?).
      apply Z.ltb_ge in Hab, Hba. lia.
Qed.

(** The loop of [evaluate_hand] keeps a result that none of the results
    seen so far is above. *)
Lemma best_loop_max combos : ∀ best r (seen : HandResult → Prop),
  (∀ b, best = Some b → seen b ∧ ∀ s, seen s → lt b s = false) →
  (best = None → ∀ s, ¬ seen s) →
  best_loop best combos = Ok (Some r) →
  (seen r ∨ ∃ five, five ∈ combos ∧ _evaluate_five_cards five = Ok r)
  ∧ ∀ s, (seen s ∨ ∃ five, five ∈ combos ∧ _evaluate_five_cards five = Ok s) →
         lt r s = false.
Proof.
  induction combos as [|five combos IH]; intros best r seen Hbest Hnone; simpl.
  - intros [= ->]. destruct (Hbest r eq_refl) as [Hr Hmax].
    split; [by left|]. intros s [Hs|(five & Hin & _)]; [by apply Hmax|].
    by apply elem_of_nil in Hin.
  - unfold best_step.
    destruct (_evaluate_five_cards five) as [h|] eqn:Hh; simpl; [|done].
    set (seen' := λ s, seen s ∨ s = h).
    assert (∀ b', (best = None → b' = h) →
              (∀ b, best = Some b →
                 (b' = h ∧ lt b h = true) ∨ (b' = b ∧ lt b h = false)) →
              best_loop (Some b') combos = Ok (Some r) →
              (seen r ∨ ∃ five0, five0 ∈ five :: combos
                                 ∧ _evaluate_five_cards five0 = Ok r)
              ∧ ∀ s, (seen s ∨ ∃ five0, five0 ∈ five :: combos
                                        ∧ _evaluate_five_cards five0 = Ok s) →
                     lt r s = false) as Hstep.
    { intros b' Hfirst Hnext Hloop.
      destruct (IH (Some b') r seen') as [Hfrom Hmax]; [| |done|].
      - intros ? [= <-]. destruct best as [b|].
        + destruct (Hbest b eq_refl) as [Hb Hbmax].
          destruct (Hnext b eq_refl) as [[-> Hlt]|[-> Hlt]].
          * split; [by right|]. intros s [Hs| ->]; [|apply lt_irrefl].
            destruct (lt h s) eqn:Hhs; [|done].
            pose proof (lt_trans _ _ _ Hlt Hhs) as Hbs.
            by rewrite (Hbmax s Hs) in Hbs.
          * split; [by left|]. intros s [Hs| ->]; [by apply Hbmax|done].
        + rewrite (Hfirst eq_refl). split; [by right|].
          intros s [Hs| ->]; [by destruct (Hnone eq_refl s)|apply lt_irrefl].
      - done.
      - split.
        + destruct Hfrom as [[Hr| ->]|(five0 & Hin & Hev)]; [by left|right..].
          * exists five. split; [by left|done].
          * exists five0. split; [by right|done].
        + intros s [Hs|(five0 & Hin & Hev)]; apply Hmax.
          * left. by left.
          * apply elem_of_cons in Hin as [->|Hin].
            -- left. right. congruence.
            -- right. eauto. }
    destruct best as [b|].
    + unfold gt. destruct (lt b h) eqn:Hlt; apply Hstep; try done.
      * intros ? [= <-]. by left.
      * intros ? [= <-]. by right.
    + apply Hstep; [done|]. done.
Qed.

(** X4: on seven cards [evaluate_hand] returns the result of one of the
    five-card hands drawn from them, and no five-card hand drawn from them
    has a result above it. *)
Theorem X4_evaluate_hand_best (cs : list Card) (r : HandResult) :
  evaluate_hand cs = Ok (Some r) →
  (∃ five, five ∈ combinations cs 5 ∧ _evaluate_five_cards five = Ok r)
  ∧ ∀ five r', five ∈ combinations cs 5 →
               _evaluate_five_cards five = Ok r' → lt r r' = false.
Proof.
  unfold evaluate_hand. case_bool_decide; [done|]. intros Hloop.
  destruct (best_loop_max (combinations cs 5) None r (λ _, False))
    as [Hfrom Hmax]; [by intros ? [=]|by intros _ s []|done|].
  split.
  - by destruct Hfrom as [[]|?].
  - intros five r' Hin Hev. apply Hmax. right. eauto.
Qed.

Lemma X4_evaluate_hand_best_witness :
  ∃ r, evaluate_hand Hands.royal_seven = Ok (Some r)
     ∧ (∃ five, five ∈ combinations Hands.royal_seven 5
                ∧ _evaluate_five_cards five = Ok r)
     ∧ ∀ five r', five ∈ combinations Hands.royal_seven 5 →
                  _evaluate_five_cards five = Ok r' → lt r r' = false.
Proof.
  eexists. split; [by vm_compute|].
  apply (X4_evaluate_hand_best Hands.royal_seven). by vm_compute.
Defined.

(** X5: [compare_hands] is antisymmetric: swapping the two hands negates
    the result, and it raises exactly when one of the hands does not have
    seven cards. *)
Theorem X5_compare_hands (hand1 hand2 : list Card) :
  (∀ x, compare_hands hand1 hand2 = Ok x → compare_hands hand2 hand1 = Ok (- x))
  ∧ (is_Ok (compare_hands hand1 hand2)
     ↔ length hand1 = 7%nat ∧ length hand2 = 7%nat).
Proof.
  unfold compare_hands.
  destruct (evaluate_hand_sizes hand1) as [Hbad1 Hgood1].
  destruct (evaluate_hand_sizes hand2) as [Hbad2 Hgood2].
  destruct (decide (length hand1 = 7%nat)) as [H1|H1];
    [destruct (Hgood1 H1) as [r1 ->]|rewrite (Hbad1 H1)];
    (destruct (decide (length hand2 = 7%nat)) as [H2|H2];
     [destruct (Hgood2 H2) as [r2 ->]|rewrite (Hbad2 H2)]); simpl.
  - split.
    + intros x. unfold gt.
      destruct (lt r2 r1) eqn:H21, (lt r1 r2) eqn:H12; intros [= <-]; try done.
      by rewrite (lt_asym _ _ H21) in H12.
    + split; [done|]. intros _. unfold is_Ok.
      destruct (gt r1 r2), (lt r1 r2); eauto.
  - split; [done|]. split; [by intros [? ?]|by intros [_ ?]].
  - split; [done|]. split; [by intros [? ?]|by intros [? _]].
  - split; [done|]. split; [by intros [? ?]|by intros [? _]].
Qed.
End hand_order.

(** * Further properties: the pot ledger *)

Section ledger_facts.
Import Pot Split LayerSpec Ledger.

Lemma map_total_empty : map_total ∅ = 0.
Proof. apply map_fold_empty. Qed.

Lemma map_total_insert_new (m : gmap nat Z) k v :
  m !! k = None → map_total (<[k := v]> m) = v + map_total m.
Proof.
  intros Hk. unfold map_total.
  rewrite map_fold_insert_L; [done| |done]. intros; lia.
Qed.

Lemma map_total_insert (m : gmap nat Z) k v :
  map_total (<[k := v]> m) = map_total m - default 0 (m !! k) + v.
Proof.
  destruct (m !! k) as [x|] eqn:Hk; simpl.
  - rewrite <- (insert_delete_id m k x Hk) at 2.
    rewrite <- insert_delete_eq.
    rewrite !map_total_insert_new by apply lookup_delete_eq. lia.
  - rewrite map_total_insert_new by done. lia.
Qed.

Lemma add_bet_contributions player amount pot :
  player_contributions (add_bet player amount pot)
  = <[player := contribution pot player + amount]> (player_contributions pot).
Proof.
  unfold add_bet, contribution. cbn [player_contributions].
  destruct (player_contributions pot !! player) as [v|] eqn:Hv; simpl.
  - by rewrite Hv.
  - by rewrite lookup_insert_eq, insert_insert_eq.
Qed.

Lemma add_bet_ledger player amount pot :
  main_pot (add_bet player amount pot) = main_pot pot + amount
  ∧ map_total (player_contributions (add_bet player amount pot))
    = map_total (player_contributions pot) + amount
  ∧ (∀ p, contribution (add_bet player amount pot) p
          = contribution pot p + (if decide (p = player) then amount else 0))
  ∧ side_pots (add_bet player amount pot) = side_pots pot.
Proof.
  split; [done|]. split; [|split; [|done]].
  - rewrite add_bet_contributions, map_total_insert.
    unfold contribution, PlayerRef in *. lia.
  - intros p. unfold contribution at 1. rewrite add_bet_contributions.
    destruct (decide (p = player)) as [->|Hne].
    + by rewrite lookup_insert_eq.
    + rewrite lookup_insert_ne by done. unfold contribution, PlayerRef in *. lia.
Qed.

(** X6: after any sequence of bets recorded by [add_bet] on a fresh pot,
    the total pot is the sum of the amounts bet and also the sum of the
    recorded per-player contributions, and each player's record is the sum
    of that player's bets; no side pot is created by recording bets. *)
Theorem X6_add_bet_ledger (bets : list (PlayerRef * Z)) :
  let pot := record_bets bets in
  get_total_pot pot = sum_list_Z bets.*2
  ∧ map_total (player_contributions pot) = get_total_pot pot
  ∧ (∀ p, contribution pot p
          = sum_list_Z (filter (λ b, b.1 = p) bets).*2)
  ∧ side_pots pot = [].
Proof.
  unfold record_bets, get_total_pot.
  induction bets as [|[q a] bets IH] using rev_ind.
  { simpl. rewrite map_total_empty. repeat split; done. }
  rewrite fold_left_app. cbn [fold_left fst snd].
  destruct IH as (Hmain & Htotal & Hcontrib & Hside).
  destruct (add_bet_ledger q a (fold_left (λ pot b, add_bet b.1 b.2 pot) bets new))
    as (Hm & Ht & Hc & Hs).
  rewrite Hm, Ht, Hs. rewrite fmap_app, sum_list_Z_app. simpl.
  split; [lia|]. split; [lia|]. split; [|done].
  intros p. rewrite Hc, Hcontrib, filter_app, fmap_app, sum_list_Z_app.
  rewrite filter_cons, filter_nil. simpl.
  destruct (decide (p = q)) as [->|Hne].
  - rewrite decide_True by done. simpl. lia.
  - rewrite decide_False by (by intros ->). simpl. lia.
Qed.

Lemma pay_winners_total ws : ∀ j q r (m : gmap nat Z),
  map_total (pay_winners j q r ws m)
  = map_total m
    + sum_list_Z (map (amount_at q r) (seqZ j (Z.of_nat (length ws)))).
Proof.
  induction ws as [|w ws IH]; intros j q r m.
  { cbn [pay_winners length]. rewrite seqZ_nil by (simpl; lia).
    cbn [map sum_list_Z foldr]. by rewrite Z.add_0_r. }
  cbn [pay_winners length]. rewrite IH, map_total_insert.
  rewrite Nat2Z.inj_succ, (seqZ_cons j) by lia.
  rewrite Z.pred_succ. cbn [map sum_list_Z foldr].
  fold (sum_list_Z (map (amount_at q r) (seqZ (Z.succ j) (Z.of_nat (length ws))))).
  unfold amount_at at 2. unfold Z.succ.
  unfold PlayerRef in *. destruct (j <? r); lia.
Qed.

Lemma pay_side_pot_total side_pot ws (m : gmap nat Z) :
  map_total (pay_side_pot side_pot ws m) = map_total m + owed side_pot ws.
Proof.
  unfold pay_side_pot, owed.
  destruct (filter _ ws) as [|w pw] eqn:Hpw; [lia|].
  rewrite pay_winners_total. f_equal.
  set (n := Z.of_nat (length (w :: pw))).
  assert (0 < n) by (unfold n; simpl; lia).
  rewrite (map_ext _ (share (amount side_pot) n))
    by (intros; apply amount_at_share).
  by apply sum_shares.
Qed.

(** X7: [distribute_winnings] hands out, in total, the amounts of the
    side pots that come with a list of winners of whom at least one is
    eligible; a side pot without such a winner, or beyond the end of the
    list of winner lists, is not paid. *)
Theorem X7_distribute_winnings_total (winners_by_pot : list (list PlayerRef))
    (pot : Pot) :
  map_total (distribute_winnings winners_by_pot pot)
  = sum_list_Z (map (λ sw, owed sw.1 sw.2) (zip (side_pots pot) winners_by_pot)).
Proof.
  unfold distribute_winnings.
  rewrite <- (Z.add_0_l (sum_list_Z _)), <- map_total_empty.
  generalize (∅ : gmap nat Z). revert winners_by_pot.
  induction (side_pots pot) as [|sp pots IH]; intros [|ws wbp] m; simpl;
    try lia.
  rewrite IH, pay_side_pot_total.
  fold (sum_list_Z (map (λ sw, owed sw.1 sw.2) (zip pots wbp))). lia.
Qed.
End ledger_facts.
(** * Further properties: the chips on the table *)

Section bank_facts.
Import Player Game Split Bank PlayerHand.

Lemma chips_total_cons p ps : chips_total (p :: ps) = chips p + chips_total ps.
Proof. done. Qed.

Lemma chips_total_insert ps : ∀ (i : nat) p q, ps !! i = Some p →
  chips_total (<[i := q]> ps) = chips_total ps - chips p + chips q.
Proof.
  induction ps as [|p0 ps IH]; intros [|i] p q Hp; try done.
  - injection Hp as ->. simpl. rewrite !chips_total_cons. lia.
  - simpl in *. rewrite !chips_total_cons, (IH _ p) by done. lia.
Qed.

Lemma chips_total_alter f ps : ∀ (i : nat) p, ps !! i = Some p →
  chips_total (alter f i ps) = chips_total ps - chips p + chips (f p).
Proof.
  induction ps as [|p0 ps IH]; intros [|i] p Hp; try done.
  - injection Hp as ->. simpl. rewrite !chips_total_cons. lia.
  - simpl in Hp. change (alter f (S i) (p0 :: ps)) with (p0 :: alter f i ps).
    rewrite !chips_total_cons, (IH _ p) by done. lia.
Qed.

Lemma chips_total_fmap f ps :
  (∀ p, chips (f p) = chips p) → chips_total (f <$> ps) = chips_total ps.
Proof.
  intros Hf. induction ps as [|p ps IH]; [done|].
  rewrite fmap_cons, !chips_total_cons, Hf, IH. done.
Qed.

Lemma chips_total_pay_showdown ws : ∀ i q r ps,
  Forall (λ w, (w < length ps)%nat) ws →
  chips_total (pay_showdown i q r ws ps)
  = chips_total ps
    + sum_list_Z (map (amount_at q r) (seqZ i (Z.of_nat (length ws)))).
Proof.
  induction ws as [|w ws IH]; intros i q r ps Hws.
  { cbn [pay_showdown length]. rewrite seqZ_nil by (simpl; lia).
    cbn [map sum_list_Z foldr]. by rewrite Z.add_0_r. }
  apply Forall_cons in Hws as [Hw Hws].
  destruct (lookup_lt_is_Some_2 ps w Hw) as [p Hp].
  cbn [pay_showdown length]. rewrite IH by (by rewrite length_alter).
  rewrite (chips_total_alter _ _ _ p Hp).
  rewrite Nat2Z.inj_succ, (seqZ_cons i) by lia.
  rewrite Z.pred_succ. cbn [map sum_list_Z foldr].
  fold (sum_list_Z (map (amount_at q r) (seqZ (Z.succ i) (Z.of_nat (length ws))))).
  unfold amount_at at 2. unfold Z.succ, win_chips. cbn [chips].
  destruct (i <? r); lia.
Qed.

Lemma table_total_bet g (i : nat) player a p' :
  players g !! i = Some player → a = chips player - chips p' →
  chips_total (<[i := p']> (players g)) + (Pot.main_pot (pot g) + a)
  = table_total g.
Proof.
  intros Hp ->. rewrite (chips_total_insert _ _ player) by done.
  unfold table_total, Pot.get_total_pot. lia.
Qed.

(** An accepted action moves chips from the actor's stack to the pot. *)
Lemma apply_action_table g (i : nat) player action amount g1 :
  players g !! i = Some player →
  apply_action g i player action amount = Some g1 →
  table_total g1 = table_total g ∧ phase g1 = phase g.
Proof.
  intros Hp. unfold apply_action.
  destruct action.
  - intros [= <-]. split; [|done].
    unfold table_total at 1. cbn [players pot set_players].
    rewrite (chips_total_insert _ _ player) by done.
    assert (chips (fold player) = chips player)
      by (unfold fold; by case_match).
    unfold table_total. lia.
  - case_bool_decide; [done|]. intros [= <-]. split; [|done].
    unfold table_total at 1. cbn [players pot set_players].
    rewrite (chips_total_insert _ _ player) by done.
    unfold table_total. cbn [chips set_last_action]. lia.
  - pose proof (call_conserves (current_bet g) player) as [_ Hc].
    destruct (call (current_bet g) player) as [a p']. intros [= <-].
    split; [|done]. exact (table_total_bet g i player a p' Hp Hc).
  - case_match; [done|].
    pose proof (raise_bet_conserves amount player) as [_ Hc].
    destruct (raise_bet amount player) as [a p']. intros [= <-].
    split; [|done]. exact (table_total_bet g i player a p' Hp Hc).
  - pose proof (all_in_conserves player) as [_ Hc].
    destruct (all_in player) as [a p'].
    case_match; intros [= <-]; (split; [|done]); exact (table_total_bet g i player a p' Hp Hc).
Qed.

Lemma _next_player_table g :
  players (_next_player g) = players g ∧ pot (_next_player g) = pot g
  ∧ phase (_next_player g) = phase g.
Proof. unfold _next_player. by rewrite _move_to_next_active_player_index. Qed.

Lemma seated_where_lt P ps w p :
  (w, p) ∈ seated_where P ps → ps !! w = Some p.
Proof. by intros [? _]%seated_where_elem. Qed.

Lemma _handle_single_winner_chips g :
  (1 ≤ length (seated_where is_in_hand (players g)) ≤ 1)%nat →
  chips_total (players (_handle_single_winner g)) = table_total g.
Proof.
  unfold _handle_single_winner, table_total.
  destruct (seated_where is_in_hand (players g)) as [|[w p] [|sp rest]] eqn:Hin;
    simpl; try lia.
  intros _. assert (players g !! w = Some p) as Hw.
  { apply (seated_where_lt is_in_hand). rewrite Hin. apply list_elem_of_here. }
  rewrite (chips_total_alter _ _ _ p Hw). unfold win_chips. cbn. lia.
Qed.

Lemma _showdown_chips g g' :
  _showdown g = Ok g' →
  phase g' = HAND_COMPLETE
  ∧ ((1 ≤ length (seated_where is_in_hand (players g')))%nat →
     chips_total (players g') = table_total g).
Proof.
  unfold _showdown, table_total.
  destruct (seated_where is_in_hand (players g)) as [|[w p] [|sp rest]] eqn:Hin.
  - intros [= <-]. split; [done|]. cbn [players set_phase]. rewrite Hin.
    simpl. lia.
  - intros [= <-]. split; [done|]. intros _. cbn [players set_phase set_players].
    assert (players g !! w = Some p) as Hw.
    { apply (seated_where_lt is_in_hand). rewrite Hin. apply list_elem_of_here. }
    rewrite (chips_total_alter _ _ _ p Hw). unfold win_chips. cbn. lia.
  - destruct (evaluate_players _ _) as [hands|] eqn:Hev; simpl; [|done].
    intros Hsd.
    pose proof (evaluate_players_keys _ _ _ Hev) as Hkeys.
    assert (hands ≠ []) as Hne by (by destruct hands).
    pose proof (_determine_winners_nonempty hands Hne) as Hwne.
    assert (Forall (λ w, (w < length (players g))%nat) (_determine_winners hands))
      as Hlt.
    { apply Forall_forall. intros x Hx.
      assert (x ∈ hands.*1) as Hxk.
      { unfold _determine_winners in Hx. destruct hands as [|[r h] hs]; [done|].
        apply list_elem_of_fmap in Hx as ([x' hx] & -> & Hf).
        apply list_elem_of_filter in Hf as [_ Hf].
        apply list_elem_of_fmap. by exists (x', hx). }
      rewrite Hkeys, <- Hin in Hxk.
      apply list_elem_of_fmap in Hxk as ([x' px] & -> & Hs).
      apply seated_where_lt in Hs. by apply lookup_lt_Some in Hs. }
    destruct (_determine_winners hands) as [|w0 ws] eqn:Hws; [done|].
    injection Hsd as <-. split; [done|]. intros _.
    pose (n := Z.of_nat (length (w0 :: ws))).
    assert (0 < n) by (unfold n; simpl; lia).
    transitivity
      (chips_total (pay_showdown 0 (Pot.get_total_pot (pot g) `div` n)
                      (Pot.get_total_pot (pot g) `mod` n) (w0 :: ws) (players g)));
      [done|].
    rewrite (chips_total_pay_showdown (w0 :: ws)) by done. fold n.
    rewrite (map_ext _ (share (Pot.get_total_pot (pot g)) n))
      by (intros; apply amount_at_share).
    by rewrite sum_shares.
Qed.

Lemma new_betting_round_chips p : chips (new_betting_round p) = chips p.
Proof. unfold new_betting_round. by repeat case_match. Qed.

Lemma deal_community_table n g :
  players (deal_community n g) = players g
  ∧ pot (deal_community n g) = pot g
  ∧ phase (deal_community n g) = phase g.
Proof. unfold deal_community. by repeat case_match. Qed.

Lemma _set_first_player_to_act_table g :
  players (_set_first_player_to_act g) = players g
  ∧ pot (_set_first_player_to_act g) = pot g
  ∧ phase (_set_first_player_to_act g) = phase g.
Proof. by rewrite _set_first_player_to_act_index. Qed.

Lemma dealt_table ph n g :
  let g' := _set_first_player_to_act (set_phase ph (deal_community n g)) in
  table_total g' = table_total g ∧ phase g' = ph.
Proof.
  destruct (_set_first_player_to_act_table (set_phase ph (deal_community n g)))
    as (H1 & H2 & H3).
  destruct (deal_community_table n g) as (H4 & H5 & _).
  cbn zeta. unfold table_total. rewrite H1, H2, H3.
  cbn [players pot phase set_phase]. by rewrite H4, H5.
Qed.

Lemma _advance_to_next_phase_chips g g' :
  _advance_to_next_phase g = Ok g' →
  (phase g' ≠ HAND_COMPLETE → table_total g' = table_total g)
  ∧ (phase g = HAND_COMPLETE → table_total g' = table_total g)
  ∧ (phase g ≠ HAND_COMPLETE → phase g' = HAND_COMPLETE →
     (1 ≤ length (seated_where is_in_hand (players g')))%nat →
     chips_total (players g') = table_total g).
Proof.
  unfold _advance_to_next_phase.
  set (g2 := set_betting _ _ _ _).
  assert (table_total g2 = table_total g) as H2.
  { unfold table_total, g2. cbn [players pot set_betting set_players].
    by rewrite (chips_total_fmap _ _ new_betting_round_chips). }
  assert (phase g2 = phase g) as Hph2 by done.
  intros Hadv.
  assert (∀ ph n, ph ∈ [FLOP; TURN; RIVER] →
    Ok (set_phase ph (deal_community n g2)) ≫= (λ g3,
      if bool_decide (phase g3 ∈ [FLOP; TURN; RIVER])
      then Ok (_set_first_player_to_act g3) else Ok g3) = Ok g' →
    (phase g' ≠ HAND_COMPLETE → table_total g' = table_total g)
    ∧ (phase g = HAND_COMPLETE → table_total g' = table_total g)
    ∧ (phase g ≠ HAND_COMPLETE → phase g' = HAND_COMPLETE →
       (1 ≤ length (seated_where is_in_hand (players g')))%nat →
       chips_total (players g') = table_total g)) as Hdeal.
  { intros ph n Hin. cbn [mbind result_bind phase set_phase].
    rewrite bool_decide_eq_true_2 by done. intros [= <-].
    destruct (dealt_table ph n g2) as [Ht Hp]. cbn zeta in Ht, Hp.
    rewrite Ht, Hp, H2. split; [done|]. split; [done|]. intros _ ->.
    rewrite !elem_of_cons, elem_of_nil in Hin. intuition discriminate. }
  assert (Ok g2 ≫= (λ g3,
      if bool_decide (phase g3 ∈ [FLOP; TURN; RIVER])
      then Ok (_set_first_player_to_act g3) else Ok g3) = Ok g' →
    phase g2 ∉ [FLOP; TURN; RIVER] →
    (phase g' ≠ HAND_COMPLETE → table_total g' = table_total g)
    ∧ (phase g = HAND_COMPLETE → table_total g' = table_total g)
    ∧ (phase g ≠ HAND_COMPLETE → phase g' = HAND_COMPLETE →
       (1 ≤ length (seated_where is_in_hand (players g')))%nat →
       chips_total (players g') = table_total g)) as Hstay.
  { cbn [mbind result_bind]. intros Hg Hnin.
    rewrite bool_decide_eq_false_2 in Hg by done. injection Hg as <-.
    split; [done|]. split; [done|]. congruence. }
  destruct (phase g2) eqn:Hph.
  - apply Hstay; [done|]. rewrite !elem_of_cons, elem_of_nil. intuition discriminate.
  - apply (Hdeal FLOP 3%nat); [|done]. rewrite !elem_of_cons. auto.
  - apply (Hdeal TURN 1%nat); [|done]. rewrite !elem_of_cons. auto.
  - apply (Hdeal RIVER 1%nat); [|done]. rewrite !elem_of_cons. auto.
  - destruct (_showdown g2) as [g3|] eqn:Hsd; cbn [mbind result_bind] in Hadv;
      [|done].
    destruct (_showdown_chips _ _ Hsd) as [Hp3 Hc3].
    rewrite Hp3 in Hadv. rewrite bool_decide_eq_false_2 in Hadv
      by (rewrite !elem_of_cons, elem_of_nil; intuition discriminate).
    injection Hadv as <-. rewrite <- H2. split; [done|].
    split; [congruence|]. auto.
  - apply Hstay; [done|]. rewrite !elem_of_cons, elem_of_nil. intuition discriminate.
  - apply Hstay; [done|]. rewrite !elem_of_cons, elem_of_nil. intuition discriminate.
Qed.

Lemma in_hand_alter_win_length amount ps : ∀ w : nat,
  length (seated_where is_in_hand (alter (win_chips amount) w ps))
  = length (seated_where is_in_hand ps).
Proof.
  intros w. rewrite !seated_where_length. revert w.
  induction ps as [|p ps IH]; intros [|w]; try done.
  - change (alter (win_chips amount) 0%nat (p :: ps))
      with (win_chips amount p :: ps).
    rewrite !filter_cons. change (is_in_hand (win_chips amount p))
      with (is_in_hand p). by case_decide.
  - change (alter (win_chips amount) (S w) (p :: ps))
      with (p :: alter (win_chips amount) w ps).
    rewrite !filter_cons. case_decide; cbn [length]; by rewrite IH.
Qed.

Lemma player_action_chips (g : Game) (i : nat) (action : PlayerAction)
    (amount : Z) (b : bool) (g' : Game) :
  player_action g i action amount = Ok (b, g') →
  (table_total g' = table_total g
   ∨ (phase g' = HAND_COMPLETE
      ∧ chips_total (players g') = table_total g))
  ∧ (phase g' ≠ HAND_COMPLETE → table_total g' = table_total g)
  ∧ (phase g ≠ HAND_COMPLETE → phase g' = HAND_COMPLETE →
     (1 ≤ length (seated_where is_in_hand (players g')))%nat →
     chips_total (players g') = table_total g).
Proof.
  unfold player_action. intros Hact.
  assert (∀ g0 b0, table_total g0 = table_total g → phase g0 = phase g →
    Ok (b0, g0) = Ok (b, g') →
    (table_total g' = table_total g
     ∨ (phase g' = HAND_COMPLETE
        ∧ chips_total (players g') = table_total g))
    ∧ (phase g' ≠ HAND_COMPLETE → table_total g' = table_total g)
    ∧ (phase g ≠ HAND_COMPLETE → phase g' = HAND_COMPLETE →
       (1 ≤ length (seated_where is_in_hand (players g')))%nat →
       chips_total (players g') = table_total g)) as Hsame.
  { intros g0 b0 Ht Hph [= <- <-]. split; [by left|]. split; [done|].
    congruence. }
  destruct (players g !! i) as [player|] eqn:Hp; [|by eapply Hsame].
  destruct (can_act player); cbn [negb] in Hact; [|by eapply Hsame].
  pose proof (get_current_player_index g) as Hg0.
  destruct (get_current_player g) as [current g0]. cbn [snd] in Hg0.
  assert (table_total g0 = table_total g ∧ phase g0 = phase g
          ∧ players g0 = players g) as (Ht0 & Hph0 & Hpl0)
    by (by rewrite Hg0).
  case_bool_decide; [by eapply Hsame|].
  case_bool_decide; [by eapply Hsame|].
  destruct (apply_action g0 i player action amount) as [g1|] eqn:Happly;
    [|by eapply Hsame].
  rewrite <- Hpl0 in Hp.
  destruct (apply_action_table _ _ _ _ _ _ Hp Happly) as [Ht1 Hph1].
  destruct (_next_player_table g1) as (Hpl2 & Hpot2 & Hph2).
  assert (table_total (_next_player g1) = table_total g) as Ht2
    by (unfold table_total in *; rewrite Hpl2, Hpot2; lia).
  assert (phase (_next_player g1) = phase g) as Hph2' by congruence.
  set (g2 := _next_player g1) in *. clearbody g2.
  destruct (Nat.leb_spec (length (seated_where is_in_hand (players g2))) 1)
    as [Hle|Hgt].
  - injection Hact as <- <-.
    assert (length (seated_where is_in_hand (players (_handle_single_winner g2)))
            = length (seated_where is_in_hand (players g2))) as Hlen.
    { unfold _handle_single_winner.
      destruct (seated_where is_in_hand (players g2))
        as [|[w pw] [|sp rest]] eqn:Hin;
        cbn [players set_phase set_players]; rewrite ?Hin; try done.
      by rewrite in_hand_alter_win_length, Hin. }
    assert ((1 ≤ length (seated_where is_in_hand (players g2)))%nat →
            chips_total (players (_handle_single_winner g2)) = table_total g)
      as Hpaid.
    { intros Hone. rewrite <- Ht2.
      apply _handle_single_winner_chips. lia. }
    split; [|split; [done|]].
    + destruct (seated_where is_in_hand (players g2)) as [|x l] eqn:Hin.
      * left. unfold _handle_single_winner. rewrite Hin. done.
      * right. split; [done|]. apply Hpaid. simpl. lia.
    + intros _ _ Hone. apply Hpaid. by rewrite <- Hlen.
  - destruct (_is_betting_round_complete g2).
    + destruct (_advance_to_next_phase g2) as [g3|] eqn:Hadv;
        cbn [mbind result_bind] in Hact; [|done].
      injection Hact as <- <-.
      destruct (_advance_to_next_phase_chips _ _ Hadv) as (Ha & Hb & Hc).
      pose proof (_advance_to_next_phase_in_hand _ _ Hadv) as Hmono.
      rewrite <- Ht2, <- Hph2'. split; [|by split].
      destruct (decide (phase g3 = HAND_COMPLETE)) as [Hc3|Hc3]; [|by left; auto].
      destruct (decide (phase g2 = HAND_COMPLETE)) as [Hc2|Hc2]; [by left; auto|].
      right. split; [done|]. apply Hc; [done|done|lia].
    + by eapply Hsame.
Qed.

(** X8: the chips that [player_action] moves.  Whatever the call returns,
    either the stacks and the pot together hold what they held before,
    or the hand is complete and the stacks alone hold it: the pot has
    been paid out in full, once.  While the hand goes on nothing is
    paid; when the call ends a running hand with somebody still in it,
    the pot is paid.  The pot is not emptied by a payout and
    [player_action] does not look at the phase, so an action accepted
    after the hand is complete can pay the same pot again: in the game
    [won_by_fold] a check by the winner adds the pot to the winner's stack a
    second time. *)
Theorem X8_player_action_chips :
  (∀ (g : Game) (i : nat) (action : PlayerAction) (amount : Z) (b : bool)
     (g' : Game),
     player_action g i action amount = Ok (b, g') →
     (table_total g' = table_total g
      ∨ (phase g' = HAND_COMPLETE
         ∧ chips_total (players g') = table_total g))
     ∧ (phase g' ≠ HAND_COMPLETE → table_total g' = table_total g)
     ∧ (phase g ≠ HAND_COMPLETE → phase g' = HAND_COMPLETE →
        (1 ≤ length (seated_where is_in_hand (players g')))%nat →
        chips_total (players g') = table_total g))
  ∧ (∃ g', phase Replay.won_by_fold = HAND_COMPLETE
       ∧ player_action Replay.won_by_fold 0 CHECK 0 = Ok (true, g')
       ∧ 0 < Pot.get_total_pot (pot Replay.won_by_fold)
       ∧ chips_total (players g')
         = chips_total (players Replay.won_by_fold)
           + Pot.get_total_pot (pot Replay.won_by_fold)).
Proof.
  split; [apply player_action_chips|].
  eexists. split; [by vm_compute|]. split; [by vm_compute|].
  split; by vm_compute.
Qed.
End bank_facts.

Section bank_witness.
Import Player Game Bank Tables AfterFold.

Lemma X8_player_action_chips_witness :
  chips_total (players after_fold) = table_total facing_all_in.
Proof.
  refine (proj2 (proj2 (proj1 X8_player_action_chips
            facing_all_in 0%nat FOLD 0 true after_fold _)) _ _ _).
  - by vm_compute.
  - by vm_compute.
  - by vm_compute.
  - vm_compute. lia.
Defined.
End bank_witness.
(** * The single survivor *)

Section single_survivor_paid.
Import Player Game Tables Bank.

Lemma single_survivor_closed (g : Game) (i : nat) (action : PlayerAction)
    (amount : Z) (g' : Game) :
  player_action g i action amount = Ok (true, g') →
  (length (seated_where is_in_hand (players g')) ≤ 1)%nat →
  ∃ player g1,
    players g !! i = Some player
    ∧ apply_action (get_current_player g).2 i player action amount = Some g1
    ∧ g' = _handle_single_winner (_next_player g1)
    ∧ phase g' = HAND_COMPLETE
    ∧ community_cards g' = community_cards g
    ∧ deck g' = deck g
    ∧ pot g' = pot g1
    ∧ (∀ w pw, seated_where is_in_hand (players (_next_player g1)) = [(w, pw)] →
         players g'
         = alter (win_chips (Pot.get_total_pot (pot g1))) w (players g1))
    ∧ (seated_where is_in_hand (players (_next_player g1)) = [] →
         players g' = players g1).
Proof.
  unfold player_action. intros Hact Hone.
  destruct (players g !! i) as [player|] eqn:Hp; [|done].
  destruct (can_act player); simpl in Hact; [|done].
  pose proof (get_current_player_bets g) as (_ & _ & Hcc & Hdeck & _).
  destruct (get_current_player g) as [current g0]. simpl in *.
  case_bool_decide; [done|]. case_bool_decide; [done|].
  destruct (apply_action g0 i player action amount) as [g1|] eqn:Happly;
    [|done].
  destruct (apply_action_cards _ _ _ _ _ _ Happly) as [Hcc1 Hdeck1].
  exists player, g1. split; [done|]. split; [done|].
  assert (community_cards (_next_player g1) = community_cards g1
          ∧ deck (_next_player g1) = deck g1
          ∧ pot (_next_player g1) = pot g1
          ∧ players (_next_player g1) = players g1)
    as (Hcc2 & Hdeck2 & Hpot2 & Hpl2).
  { unfold _next_player. by rewrite _move_to_next_active_player_index. }
  set (g2 := _next_player g1) in *.
  destruct (Nat.leb_spec (length (seated_where is_in_hand (players g2))) 1)
    as [Hle|Hgt].
  - injection Hact as <-. split; [done|].
    unfold _handle_single_winner.
    destruct (seated_where is_in_hand (players g2))
      as [|[w pw] [|sp rest]] eqn:Hin; simpl;
      rewrite ?Hcc2, ?Hdeck2, ?Hpot2, ?Hpl2, ?Hcc1, ?Hdeck1, ?Hcc, ?Hdeck;
      repeat split; try done.
    by intros w' pw' [= <- <-].
  - exfalso.
    destruct (_is_betting_round_complete g2).
    + destruct (_advance_to_next_phase g2) as [g3|] eqn:Hadv;
        simpl in Hact; [|done].
      injection Hact as <-.
      apply _advance_to_next_phase_in_hand in Hadv. lia.
    + injection Hact as <-. lia.
Qed.

(** What an accepted action does to the seat list: the actor's record is
    replaced, nothing else. *)
Lemma apply_action_players g (i : nat) player action amount g1 :
  players g !! i = Some player →
  apply_action g i player action amount = Some g1 →
  ∃ player1, players g1 = <[i := player1]> (players g).
Proof.
  intros Hp. unfold apply_action. destruct action.
  - intros [= <-]. by eexists.
  - case_bool_decide; [done|]. intros [= <-]. by eexists.
  - destruct (call (current_bet g) player) as [a p']. intros [= <-].
    by eexists.
  - case_match; [done|]. destruct (raise_bet amount player) as [a p'].
    intros [= <-]. by eexists.
  - destruct (all_in player) as [a p']. case_match; intros [= <-]; by eexists.
Qed.

(** C5: when an action has been processed and at most one player is
    left in the hand, the hand has been closed by
    [_handle_single_winner] right after the action and the turn
    advance: the phase is HandComplete, the community cards and the deck
    are those from before the action, and the one player left, if any,
    has been awarded the whole pot, the chips of this action included:
    the action replaces the actor's record and moves what left the
    actor's stack into the pot; then the stack of the player left grows
    by the pot total, no other player changes, and the stacks together
    hold every chip that the stacks and the pot held before the
    action. *)
Theorem C5_single_survivor (g : Game) (i : nat) (action : PlayerAction)
    (amount : Z) (g' : Game) :
  player_action g i action amount = Ok (true, g') →
  (length (seated_where is_in_hand (players g')) ≤ 1)%nat →
  ∃ player player1 g1,
    players g !! i = Some player
    ∧ apply_action (get_current_player g).2 i player action amount = Some g1
    ∧ players g1 = <[i := player1]> (players g)
    ∧ Pot.get_total_pot (pot g1)
      = Pot.get_total_pot (pot g) + (chips player - chips player1)
    ∧ g' = _handle_single_winner (_next_player g1)
    ∧ phase g' = HAND_COMPLETE
    ∧ community_cards g' = community_cards g
    ∧ deck g' = deck g
    ∧ pot g' = pot g1
    ∧ (∀ w pw, seated_where is_in_hand (players (_next_player g1)) = [(w, pw)] →
         players g'
         = alter (win_chips (Pot.get_total_pot (pot g1))) w (players g1)
         ∧ players g1 !! w = Some pw
         ∧ (∃ pw', players g' !! w = Some pw'
              ∧ chips pw' = chips pw + Pot.get_total_pot (pot g1)
              ∧ is_in_hand pw' = true)
         ∧ (∀ r : nat, r ≠ w → players g' !! r = players g1 !! r)
         ∧ chips_total (players g') = table_total g)
    ∧ (seated_where is_in_hand (players (_next_player g1)) = [] →
         players g' = players g1).
Proof.
  intros Hact Hone.
  destruct (single_survivor_closed g i action amount g' Hact Hone)
    as (player & g1 & Hp & Happly & Hg' & Hph & Hcc & Hdeck & Hpot
        & Hwin & Hnone).
  pose proof (get_current_player_bets g) as (_ & _ & _ & _ & Hpl0).
  pose proof (get_current_player_index g) as Hg0.
  assert (table_total (get_current_player g).2 = table_total g) as Ht0
    by (by rewrite Hg0).
  set (g0 := (get_current_player g).2) in *. clearbody g0.
  rewrite <- Hpl0 in Hp.
  destruct (apply_action_players _ _ _ _ _ _ Hp Happly) as [player1 Hpl1].
  destruct (apply_action_table _ _ _ _ _ _ Hp Happly) as [Ht1 _].
  rewrite Hpl0 in Hp, Hpl1.
  assert (Pot.get_total_pot (pot g1)
          = Pot.get_total_pot (pot g) + (chips player - chips player1))
    as Hpot1.
  { unfold table_total in Ht1, Ht0.
    rewrite Hpl1, (chips_total_insert _ _ player) in Ht1 by done.
    rewrite Hpl0 in Ht1, Ht0.
    assert (Pot.get_total_pot (pot g0) = Pot.get_total_pot (pot g))
      by (by rewrite Hg0).
    lia. }
  exists player, player1, g1.
  repeat (split; [done|]). split; [|done].
  intros w pw Hin. specialize (Hwin w pw Hin).
  assert (players g1 !! w = Some pw ∧ is_in_hand pw = true) as [Hw Hih].
  { destruct (_next_player_table g1) as (Hpl2 & _). rewrite Hpl2 in Hin.
    apply (seated_where_elem is_in_hand (players g1) w pw).
    rewrite Hin. apply list_elem_of_here. }
  split; [done|]. split; [done|]. rewrite Hwin. split; [|split].
  - exists (win_chips (Pot.get_total_pot (pot g1)) pw).
    rewrite list_lookup_alter_eq, Hw. done.
  - intros r Hr. by rewrite list_lookup_alter_ne.
  - rewrite (chips_total_alter _ _ _ pw Hw). cbn [chips win_chips].
    rewrite <- Ht0, <- Ht1. unfold table_total. lia.
Qed.
End single_survivor_paid.

Section single_survivor_witness.
Import Player Game Tables AfterFold Bank.

Lemma C5_single_survivor_witness :
  ∃ player player1 g1,
    players facing_all_in !! 0%nat = Some player
    ∧ apply_action (get_current_player facing_all_in).2 0 player FOLD 0 = Some g1
    ∧ players g1 = <[0%nat := player1]> (players facing_all_in)
    ∧ Pot.get_total_pot (pot g1)
      = Pot.get_total_pot (pot facing_all_in) + (chips player - chips player1)
    ∧ after_fold = _handle_single_winner (_next_player g1)
    ∧ phase after_fold = HAND_COMPLETE
    ∧ community_cards after_fold = community_cards facing_all_in
    ∧ deck after_fold = deck facing_all_in
    ∧ pot after_fold = pot g1
    ∧ (∀ w pw, seated_where is_in_hand (players (_next_player g1)) = [(w, pw)] →
         players after_fold
         = alter (win_chips (Pot.get_total_pot (pot g1))) w (players g1)
         ∧ players g1 !! w = Some pw
         ∧ (∃ pw', players after_fold !! w = Some pw'
              ∧ chips pw' = chips pw + Pot.get_total_pot (pot g1)
              ∧ is_in_hand pw' = true)
         ∧ (∀ r : nat, r ≠ w → players after_fold !! r = players g1 !! r)
         ∧ chips_total (players after_fold) = table_total facing_all_in)
    ∧ (seated_where is_in_hand (players (_next_player g1)) = [] →
         players after_fold = players g1).
Proof.
  apply (C5_single_survivor facing_all_in 0 FOLD 0 after_fold).
  - by vm_compute.
  - vm_compute. lia.
Defined.
End single_survivor_witness.
(** * Further properties: whose turn it is *)

Section seat_search.
Import Player Game.

Lemma find_first {A} (f : A → bool) (l : list A) :
  (∃ x, x ∈ l ∧ f x = true) →
  ∃ (i : nat) x, l !! i = Some x ∧ f x = true ∧ List.find f l = Some x
    ∧ ∀ (j : nat) y, (j < i)%nat → l !! j = Some y → f y = false.
Proof.
  induction l as [|a l IH]; intros (x & Hx & Hfx).
  { by apply elem_of_nil in Hx. }
  simpl. destruct (f a) eqn:Hfa.
  - exists 0%nat, a. repeat split; try done. intros j y Hj. lia.
  - apply elem_of_cons in Hx as [->|Hx]; [congruence|].
    destruct IH as (i & y & Hi & Hfy & Hfind & Hmin); [by exists x|].
    exists (S i), y. repeat split; try done.
    intros [|j] z Hj Hz; simpl in Hz; [by injection Hz as <-|].
    apply (Hmin j); [lia|done].
Qed.

Lemma seats_where_elem_from P ps : ∀ m pos,
  pos ∈ map fst (filter (λ ip : Z * Player, P ip.2 = true)
                        (zip (seqZ m (Z.of_nat (length ps))) ps))
  ↔ m ≤ pos ∧ ∃ p, ps !! Z.to_nat (pos - m) = Some p ∧ P p = true.
Proof.
  induction ps as [|q ps IH]; intros m pos.
  { simpl. rewrite elem_of_nil. split; [done|]. by intros (_ & p & ? & _). }
  cbn [length]. rewrite Nat2Z.inj_succ, seqZ_cons, Z.pred_succ by lia.
  cbn [zip zip_with]. rewrite filter_cons. cbn [snd].
  assert (pos ∈ map fst (filter (λ ip : Z * Player, P ip.2 = true)
                           (zip (seqZ (Z.succ m) (Z.of_nat (length ps))) ps))
          ↔ m < pos ∧ ∃ p, (q :: ps) !! Z.to_nat (pos - m) = Some p ∧ P p = true)
    as Htail.
  { rewrite IH. split.
    - intros (Hm & p & Hp & HP). split; [lia|]. exists p. split; [|done].
      replace (Z.to_nat (pos - m)) with (S (Z.to_nat (pos - Z.succ m))) by lia.
      done.
    - intros (Hm & p & Hp & HP). split; [lia|]. exists p. split; [|done].
      replace (Z.to_nat (pos - m)) with (S (Z.to_nat (pos - Z.succ m))) in Hp
        by lia.
      done. }
  case_decide as HPq.
  - cbn [map fst]. rewrite elem_of_cons, Htail. split.
    + intros [->|(Hm & p & Hp & HP)].
      * split; [lia|]. exists q. by rewrite Z.sub_diag.
      * split; [lia|]. by exists p.
    + intros (Hm & p & Hp & HP).
      destruct (decide (pos = m)) as [->|Hne]; [by left|].
      right. split; [lia|]. by exists p.
  - rewrite Htail. split.
    + intros (Hm & p & Hp & HP). split; [lia|]. by exists p.
    + intros (Hm & p & Hp & HP).
      destruct (decide (pos = m)) as [->|Hne].
      * rewrite Z.sub_diag in Hp. simpl in Hp. injection Hp as <-. done.
      * split; [lia|]. by exists p.
Qed.

(** The seats listed by [[i for i, p in enumerate(players) if P(p)]]. *)
Lemma seats_where_elem P ps pos :
  pos ∈ seats_where P ps
  ↔ 0 ≤ pos ∧ ∃ p, ps !! Z.to_nat pos = Some p ∧ P p = true.
Proof.
  unfold seats_where. rewrite seats_where_elem_from.
  by rewrite Z.sub_0_r.
Qed.

Lemma seats_where_range P ps pos :
  pos ∈ seats_where P ps → 0 ≤ pos < Z.of_nat (length ps).
Proof.
  intros (H0 & p & Hp & _)%seats_where_elem.
  apply lookup_lt_Some in Hp. lia.
Qed.

Lemma seats_where_nil P ps :
  seats_where P ps = [] ↔ ∀ p, p ∈ ps → P p = false.
Proof.
  split.
  - intros Hnil p Hp. apply list_elem_of_lookup in Hp as [i Hi].
    destruct (P p) eqn:HP; [|done].
    assert (Z.of_nat i ∈ seats_where P ps) as Hin.
    { apply seats_where_elem. split; [lia|]. exists p.
      by rewrite Nat2Z.id. }
    rewrite Hnil in Hin. by apply elem_of_nil in Hin.
  - intros Hall. destruct (seats_where P ps) as [|pos l] eqn:Hs; [done|].
    assert (pos ∈ seats_where P ps) as Hin by (rewrite Hs; apply list_elem_of_here).
    apply seats_where_elem in Hin as (_ & p & Hp & HP).
    rewrite Hall in HP; [done|]. by eapply list_elem_of_lookup_2.
Qed.

(** The clockwise search over all [n] seats after [start] stops at the
    first listed seat, and finds one whenever a seat is listed. *)
Lemma first_seat_from_spec start n active :
  0 < n → (∃ pos, pos ∈ active ∧ 0 ≤ pos < n) →
  ∃ k, 1 ≤ k ≤ n
    ∧ first_seat_from start 1 (n + 1) n active = Some ((start + k) `mod` n)
    ∧ (start + k) `mod` n ∈ active
    ∧ ∀ k', 1 ≤ k' < k → (start + k') `mod` n ∉ active.
Proof.
  intros Hn (pos & Hpos & Hrange). unfold first_seat_from.
  replace (n + 1 - 1) with n by lia.
  set (f := λ pos : Z, bool_decide (pos ∈ active)).
  set (l := map (λ i, (start + i) `mod` n) (seqZ 1 n)).
  assert (∀ (j : nat) y, l !! j = Some y
            ↔ y = (start + (1 + Z.of_nat j)) `mod` n ∧ Z.of_nat j < n) as Hl.
  { intros j y. unfold l. change (map ?g ?l) with (g <$> l).
    rewrite list_lookup_fmap, fmap_Some. setoid_rewrite lookup_seqZ.
    split; [intros (x & [-> ?] & ->); done|intros [-> ?]; eauto]. }
  destruct (find_first f l) as (i & x & Hi & Hfx & Hfind & Hmin).
  { exists pos. split; [|by apply bool_decide_eq_true_2].
    set (k := (pos - start - 1) `mod` n).
    pose proof (Z.mod_pos_bound (pos - start - 1) n Hn) as Hk. fold k in Hk.
    apply (list_elem_of_lookup_2 _ (Z.to_nat k)). apply Hl.
    rewrite Z2Nat.id by lia. split; [|lia].
    replace (start + (1 + k)) with (start + 1 + k) by lia.
    unfold k. rewrite Zplus_mod_idemp_r.
    replace (start + 1 + (pos - start - 1)) with pos by lia.
    by rewrite Z.mod_small. }
  apply Hl in Hi as [-> Hlt]. apply bool_decide_eq_true_1 in Hfx.
  exists (1 + Z.of_nat i). split; [lia|]. split; [done|]. split; [done|].
  intros k' Hk' Hin.
  specialize (Hmin (Z.to_nat (k' - 1)) ((start + k') `mod` n)).
  unfold f in Hmin. rewrite bool_decide_eq_false in Hmin.
  apply Hmin; [lia| |done].
  apply Hl. rewrite Z2Nat.id by lia. split; [f_equal; lia|lia].
Qed.

Lemma search_seats P ps start :
  (∃ p, p ∈ ps ∧ P p = true) →
  let n := Z.of_nat (length ps) in
  ∃ k, 1 ≤ k ≤ n
    ∧ first_seat_from start 1 (n + 1) n (seats_where P ps)
      = Some ((start + k) `mod` n)
    ∧ (∃ p, ps !! Z.to_nat ((start + k) `mod` n) = Some p ∧ P p = true)
    ∧ ∀ k' p, 1 ≤ k' < k →
        ps !! Z.to_nat ((start + k') `mod` n) = Some p → P p = false.
Proof.
  intros (p & Hp & HP) n.
  assert (0 < n) as Hn by (unfold n; destruct ps; [by apply elem_of_nil in Hp|simpl; lia]).
  destruct (first_seat_from_spec start n (seats_where P ps) Hn)
    as (k & Hk & Hfind & Hin & Hmin).
  { apply list_elem_of_lookup in Hp as [i Hi]. exists (Z.of_nat i).
    split.
    - apply seats_where_elem. split; [lia|]. exists p. by rewrite Nat2Z.id.
    - apply lookup_lt_Some in Hi. lia. }
  exists k. split; [done|]. split; [done|].
  split; [by apply seats_where_elem in Hin as (_ & Hq)|].
  intros k' q Hk' Hq. destruct (P q) eqn:HPq; [|done].
  exfalso. apply (Hmin k' Hk'). apply seats_where_elem.
  split; [|by exists q].
  by apply Z.mod_pos_bound.
Qed.

Lemma _move_to_next_active_player_spec (g : Game) :
  let n := nplayers g in
  let c := current_player_index g in
  let g' := _move_to_next_active_player g in
  ((∀ p, p ∈ players g → can_act p = false) → g' = g)
  ∧ ((∃ p, p ∈ players g ∧ can_act p = true) →
     ∃ k, 1 ≤ k ≤ n
       ∧ g' = set_current_player_index ((c + k) `mod` n) g
       ∧ (∃ p, players g !! Z.to_nat ((c + k) `mod` n) = Some p
               ∧ can_act p = true)
       ∧ ∀ k' p, 1 ≤ k' < k →
           players g !! Z.to_nat ((c + k') `mod` n) = Some p →
           can_act p = false).
Proof.
  cbn zeta. split.
  - intros Hnone%seats_where_nil. unfold _move_to_next_active_player.
    by rewrite Hnone.
  - intros Hsome.
    destruct (search_seats can_act (players g) (current_player_index g) Hsome)
      as (k & Hk & Hfind & Hp & Hmin).
    exists k. split; [done|]. split; [|by split].
    unfold _move_to_next_active_player.
    destruct (seats_where can_act (players g)) as [|a l] eqn:Hs.
    { destruct Hsome as (p & Hin & Hcan).
      by rewrite (proj1 (seats_where_nil _ _) Hs p Hin) in Hcan. }
    unfold nplayers. by rewrite Hfind.
Qed.

(** X9: [_move_to_next_active_player] steps clockwise from the current
    index to the nearest seat whose player can act (after a full circle
    this is the current seat itself) and changes nothing else; when
    nobody can act the game is left as it is. *)
Theorem X9_next_active_player (g : Game) :
  let n := nplayers g in
  let c := current_player_index g in
  let g' := _move_to_next_active_player g in
  ((∀ p, p ∈ players g → can_act p = false) → g' = g)
  ∧ ((∃ p, p ∈ players g ∧ can_act p = true) →
     ∃ k, 1 ≤ k ≤ n
       ∧ g' = set_current_player_index ((c + k) `mod` n) g
       ∧ (∃ p, players g !! Z.to_nat ((c + k) `mod` n) = Some p
               ∧ can_act p = true)
       ∧ ∀ k' p, 1 ≤ k' < k →
           players g !! Z.to_nat ((c + k') `mod` n) = Some p →
           can_act p = false).
Proof. apply _move_to_next_active_player_spec. Qed.

Lemma _move_dealer_button_spec (g : Game) :
  let n := nplayers g in
  let d := dealer_position g in
  let g' := _move_dealer_button g in
  ((∀ p, p ∈ players g → chips p ≤ 0) → g' = g)
  ∧ ((∃ p, p ∈ players g ∧ 0 < chips p) →
     ∃ k, 1 ≤ k ≤ n
       ∧ g' = set_dealer_position ((d + k) `mod` n) g
       ∧ (∃ p, players g !! Z.to_nat ((d + k) `mod` n) = Some p
               ∧ 0 < chips p)
       ∧ ∀ k' p, 1 ≤ k' < k →
           players g !! Z.to_nat ((d + k') `mod` n) = Some p →
           chips p ≤ 0).
Proof.
  cbn zeta. split.
  - intros Hnone. unfold _move_dealer_button.
    replace (seats_where (λ p, 0 <? chips p) (players g)) with (@nil Z); [done|].
    symmetry. apply seats_where_nil. intros p Hp. specialize (Hnone p Hp). lia.
  - intros (p0 & Hin0 & Hc0).
    destruct (search_seats (λ p, 0 <? chips p) (players g) (dealer_position g))
      as (k & Hk & Hfind & (p & Hp & Hcp) & Hmin).
    { exists p0. split; [done|]. lia. }
    exists k. split; [done|]. split; [|split].
    + unfold _move_dealer_button.
      destruct (seats_where (λ p, 0 <? chips p) (players g)) as [|a l] eqn:Hs.
      { pose proof (proj1 (seats_where_nil _ _) Hs p0 Hin0) as Hnil.
        simpl in Hnil. lia. }
      unfold nplayers. by rewrite Hfind.
    + exists p. split; [done|]. lia.
    + intros k' q Hk' Hq. specialize (Hmin k' q Hk' Hq). simpl in Hmin. lia.
Qed.

(** X10: [_move_dealer_button] moves the button clockwise to the nearest
    seat whose player has chips; it stays where it is only when nobody
    has chips (or when the full circle comes back to it). *)
Theorem X10_move_dealer_button (g : Game) :
  let n := nplayers g in
  let d := dealer_position g in
  let g' := _move_dealer_button g in
  ((∀ p, p ∈ players g → chips p ≤ 0) → g' = g)
  ∧ ((∃ p, p ∈ players g ∧ 0 < chips p) →
     ∃ k, 1 ≤ k ≤ n
       ∧ g' = set_dealer_position ((d + k) `mod` n) g
       ∧ (∃ p, players g !! Z.to_nat ((d + k) `mod` n) = Some p
               ∧ 0 < chips p)
       ∧ ∀ k' p, 1 ≤ k' < k →
           players g !! Z.to_nat ((d + k') `mod` n) = Some p →
           chips p ≤ 0).
Proof. apply _move_dealer_button_spec. Qed.

(** X11: [get_current_player] returns nobody exactly when the actor
    index is out of range; a player it returns sits at the actor index
    the game has afterwards, and can act whenever any player can. *)
Theorem X11_get_current_player (g : Game) :
  ((get_current_player g).1 = None ↔ index_in_range g = false)
  ∧ ∀ r, (get_current_player g).1 = Some r →
      r = Z.to_nat (current_player_index (get_current_player g).2)
      ∧ ∃ p, players g !! r = Some p
          ∧ (can_act p = true ↔ ∃ q, q ∈ players g ∧ can_act q = true).
Proof.
  unfold get_current_player.
  destruct (index_in_range g) eqn:Hrange; [|done].
  assert (0 ≤ current_player_index g < nplayers g) as Hc
    by (unfold index_in_range in Hrange; lia).
  destruct (players g !! Z.to_nat (current_player_index g)) as [cur|] eqn:Hcur.
  2: { apply lookup_ge_None in Hcur. unfold nplayers in Hc. lia. }
  destruct (can_act cur) eqn:Hcan; cbn [negb].
  { cbn. split; [done|]. intros r [= <-]. split; [done|].
    exists cur. split; [done|]. split; [|done].
    intros _. exists cur. split; [|done]. by eapply list_elem_of_lookup_2. }
  destruct (_move_to_next_active_player_spec g) as [Hnone Hsome].
  assert ((∃ q, q ∈ players g ∧ can_act q = true)
          ∨ ¬ ∃ q, q ∈ players g ∧ can_act q = true) as [Hex|Hnex].
  { destruct (seats_where can_act (players g)) as [|a l] eqn:Hs.
    - right. intros (q & Hq & Hcq).
      by rewrite (proj1 (seats_where_nil _ _) Hs q Hq) in Hcq.
    - left. assert (a ∈ seats_where can_act (players g)) as Ha
        by (rewrite Hs; apply list_elem_of_here).
      apply seats_where_elem in Ha as (_ & q & Hq & Hcq).
      exists q. split; [|done]. by eapply list_elem_of_lookup_2. }
  - destruct (Hsome Hex) as (k & Hk & -> & (p & Hp & Hcp) & _).
    assert (0 ≤ (current_player_index g + k) `mod` nplayers g < nplayers g)
      as Hm by (apply Z.mod_pos_bound; lia).
    assert (index_in_range
              (set_current_player_index
                 ((current_player_index g + k) `mod` nplayers g) g) = true)
      as ->.
    { unfold index_in_range, nplayers in *.
      cbn [current_player_index set_current_player_index players].
      apply andb_true_intro. split; [apply Z.leb_le|apply Z.ltb_lt]; lia. }
    cbn. split; [done|]. intros r [= <-]. split; [done|].
    exists p. split; [done|]. by split.
  - rewrite Hnone.
    2: { intros p Hp. destruct (can_act p) eqn:Hcp; [|done].
         exfalso. apply Hnex. by exists p. }
    rewrite Hrange. cbn. split; [done|]. intros r [= <-]. split; [done|].
    exists cur. split; [done|]. split; [congruence|done].
Qed.
End seat_search.
(** * Further properties: seating *)

Section seating.
Import Player Game Seats.

Lemma drop_named_None nm ps :
  drop_named nm ps = None ↔ nm ∉ name <$> ps.
Proof.
  induction ps as [|p ps IH]; simpl.
  - split; [intros _; apply not_elem_of_nil|done].
  - rewrite not_elem_of_cons. case_bool_decide as Hn.
    + split; [done|]. intros [Hne _]. by destruct Hne.
    + rewrite fmap_None, IH. split; [intros ?; split; [congruence|done]|tauto].
Qed.

(** With no name twice, dropping the first seat with the name drops
    every seat with the name. *)
Lemma drop_named_Some nm ps ps' :
  NoDup (name <$> ps) → drop_named nm ps = Some ps' →
  ps' = filter (λ p, name p ≠ nm) ps ∧ nm ∈ name <$> ps.
Proof.
  revert ps'. induction ps as [|p ps IH]; intros ps' Hnd; simpl; [done|].
  rewrite fmap_cons in Hnd. apply NoDup_cons in Hnd as [Hp Hnd].
  rewrite filter_cons. case_bool_decide as Hn.
  - intros [= <-]. rewrite decide_False by (intros Hne; by apply Hne).
    split; [|apply elem_of_cons; auto].
    symmetry. apply filter_all, Forall_forall.
    intros q Hq Heq. apply Hp. rewrite Hn, <- Heq.
    by apply list_elem_of_fmap_2.
  - destruct (drop_named nm ps) as [ps0|] eqn:Hdrop; simpl; [|done].
    intros [= <-]. destruct (IH ps0 Hnd eq_refl) as [-> Hin].
    rewrite decide_True by done. split; [done|].
    apply elem_of_cons; auto.
Qed.

Lemma renumber_lookup ps (j : nat) :
  renumber ps !! j = set_position (Z.of_nat j) <$> ps !! j.
Proof. unfold renumber. by rewrite list_lookup_imap. Qed.

Lemma renumber_names ps : name <$> renumber ps = name <$> ps.
Proof.
  apply list_eq. intros j.
  rewrite !list_lookup_fmap, renumber_lookup. by destruct (ps !! j).
Qed.

Lemma renumber_unseated ps : unseated <$> renumber ps = unseated <$> ps.
Proof.
  apply list_eq. intros j.
  rewrite !list_lookup_fmap, renumber_lookup. by destruct (ps !! j).
Qed.

Lemma renumber_seated ps :
  (∀ (j : nat) p, ps !! j = Some p → position p = Z.of_nat j) →
  renumber ps = ps.
Proof.
  intros Hpos. apply list_eq. intros j. rewrite renumber_lookup.
  destruct (ps !! j) as [p|] eqn:Hp; [|done]. simpl. f_equal.
  rewrite <- (Hpos j p Hp). by destruct p.
Qed.

Lemma renumber_ok ps :
  NoDup (name <$> ps) → (length ps ≤ 6)%nat → seats_ok (renumber ps).
Proof.
  intros Hnd Hlen. split; [by rewrite renumber_names|]. split.
  - unfold renumber. by rewrite length_imap.
  - intros j p. rewrite renumber_lookup.
    destruct (ps !! j); intros [= <-]. done.
Qed.

Lemma existsb_name nm ps :
  existsb (λ p, bool_decide (name p = nm)) ps = true ↔ nm ∈ name <$> ps.
Proof.
  rewrite existsb_exists, list_elem_of_fmap. split.
  - intros (p & Hp%list_elem_of_In & Hn%bool_decide_eq_true_1). by exists p.
  - intros (p & -> & Hp). exists p. split; [by apply list_elem_of_In|].
    by apply bool_decide_eq_true_2.
Qed.

Lemma sit_in_name p : name (sit_in p) = name p ∧ position (sit_in p) = position p.
Proof. unfold sit_in. by case_match. Qed.

(** X12: [add_player] keeps the seat list well formed (no name twice, at
    most six seats, positions equal to seat indices); it accepts exactly
    when fewer than six are seated and the name is new, leaves the game
    untouched when it refuses, and [remove_player] with the new name
    undoes an accepted [add_player]. *)
Theorem X12_add_player (player : Player) (g : Game) :
  seats_ok (players g) →
  seats_ok (players (add_player player g).2)
  ∧ ((add_player player g).1 = true
     ↔ (length (players g) < 6)%nat ∧ name player ∉ name <$> players g)
  ∧ ((add_player player g).1 = false → (add_player player g).2 = g)
  ∧ ((add_player player g).1 = true →
     remove_player (name player) (add_player player g).2 = (true, g)).
Proof.
  intros (Hnd & Hlen & Hpos). unfold add_player.
  destruct (Nat.leb_spec 6 (length (players g))) as [Hfull|Hroom].
  { cbn [fst snd]. repeat split; try done. intros [? _]. lia. }
  destruct (existsb _ (players g)) eqn:Hex.
  { apply existsb_name in Hex. cbn [fst snd]. repeat split; try done.
    intros [_ ?]. done. }
  assert (name player ∉ name <$> players g) as Hnew.
  { rewrite <- existsb_name. by rewrite Hex. }
  set (seated := sit_in (set_position (nplayers g) player)).
  assert (name seated = name player ∧ position seated = nplayers g)
    as [Hname Hposn] by apply (sit_in_name (set_position (nplayers g) player)).
  cbn [fst snd players set_players].
  split; [|split; [|split]]; try done.
  - split; [|split].
    + rewrite fmap_app. apply NoDup_app. split; [done|]. split.
      * intros x Hx Hin. apply list_elem_of_singleton in Hin as ->.
        simpl in Hnew. by rewrite Hname in Hx.
      * apply NoDup_singleton.
    + rewrite length_app. simpl. lia.
    + intros j p Hj. apply lookup_app_Some in Hj as [Hj|[Hge Hj]]; [by apply Hpos|].
      apply list_lookup_singleton_Some in Hj as [Hj0 <-].
      rewrite Hposn. unfold nplayers. lia.
  - intros _. unfold remove_player, remove_player_seats.
    cbn [players set_players].
    assert (drop_named (name player) (players g ++ [seated]) = Some (players g))
      as ->.
    { clear Hpos Hnd Hlen Hroom Hex. induction (players g) as [|p ps IH]; simpl.
      - by rewrite bool_decide_eq_true_2.
      - rewrite fmap_cons in Hnew. apply not_elem_of_cons in Hnew as [Hne Hnew].
        rewrite bool_decide_eq_false_2 by done. by rewrite IH. }
    rewrite renumber_seated by done. by destruct g.
Qed.

(** X13: [remove_player] keeps the seat list well formed; it succeeds
    exactly when the name is seated, afterwards the name is not seated,
    and the other players keep their order and everything but their
    [position]; a refusal leaves the game untouched. *)
Theorem X13_remove_player (player_name : string) (g : Game) :
  seats_ok (players g) →
  let g' := (remove_player player_name g).2 in
  seats_ok (players g')
  ∧ ((remove_player player_name g).1 = true
     ↔ player_name ∈ name <$> players g)
  ∧ (player_name ∉ name <$> players g')
  ∧ (unseated <$> players g'
     = unseated <$> filter (λ p, name p ≠ player_name) (players g))
  ∧ ((remove_player player_name g).1 = false → g' = g).
Proof.
  intros (Hnd & Hlen & Hpos). cbn zeta.
  unfold remove_player, remove_player_seats.
  destruct (drop_named player_name (players g)) as [ps'|] eqn:Hdrop.
  - destruct (drop_named_Some _ _ _ Hnd Hdrop) as [-> Hin].
    cbn [fst snd players set_players].
    assert (NoDup (name <$> filter (λ p, name p ≠ player_name) (players g)))
      as Hnd'.
    { eapply sublist_NoDup; [exact Hnd|]. apply fmap_sublist, sublist_filter. }
    assert (length (filter (λ p, name p ≠ player_name) (players g)) ≤ 6)%nat
      as Hlen' by (etrans; [apply length_filter|done]).
    split; [by apply renumber_ok|]. split; [done|]. split; [|split; [|done]].
    + rewrite renumber_names. intros (p & Hn & Hp)%list_elem_of_fmap.
      apply list_elem_of_filter in Hp as [Hne _]. done.
    + apply renumber_unseated.
  - apply drop_named_None in Hdrop.
    cbn [fst snd players set_players].
    split; [done|]. split; [done|]. split; [done|]. split.
    + f_equal. symmetry. apply filter_all, Forall_forall.
      intros p Hp Heq. apply Hdrop. rewrite <- Heq. by apply list_elem_of_fmap_2.
    + intros _. by destruct g.
Qed.
End seating.

Section seating_witness.
Import Player Game Seats PlayerHand.

Lemma X12_add_player_witness :
  (add_player bob (add_player alice empty_table).2).1 = true
  ∧ remove_player "Bob"%string (add_player bob (add_player alice empty_table).2).2
    = (true, (add_player alice empty_table).2).
Proof.
  assert (seats_ok (players (add_player alice empty_table).2)) as Hok.
  { vm_compute. split; [|split; [lia|]].
    - apply NoDup_singleton.
    - by intros [|[|j]] p [= <-]. }
  destruct (X12_add_player bob (add_player alice empty_table).2 Hok)
    as (_ & Hiff & _ & Hundo).
  assert ((add_player bob (add_player alice empty_table).2).1 = true) as Hb
    by done.
  split; [done|]. exact (Hundo Hb).
Defined.

Lemma X13_remove_player_witness :
  "Alice"%string ∉ name <$> players
     (remove_player "Alice"
        (add_player bob (add_player alice empty_table).2).2).2.
Proof.
  refine (proj1 (proj2 (proj2
    (X13_remove_player "Alice"%string
       (add_player bob (add_player alice empty_table).2).2 _)))).
  vm_compute. split; [|split; [lia|]].
  - apply NoDup_cons. split; [|apply NoDup_singleton].
    intros Hin%list_elem_of_singleton. discriminate.
  - by intros [|[|[|j]]] p [= <-].
Defined.
End seating_witness.
(** * Further properties: starting a hand *)

Section new_hand_facts.
Import Player Game Split Bank Dealing.

Lemma strip_hole_cards cs (r : nat) (ps : list Player) :
  set_hole_cards [] <$> alter (λ p, set_hole_cards (cs p) p) r ps
  = set_hole_cards [] <$> ps.
Proof.
  apply list_eq. intros j. rewrite !list_lookup_fmap.
  destruct (decide (j = r)) as [->|Hne].
  - rewrite list_lookup_alter_eq. by destruct (ps !! r).
  - by rewrite list_lookup_alter_ne.
Qed.

Lemma strip_deal_to r g : strip (deal_to r g) = strip g.
Proof.
  unfold deal_to, strip. destruct (Card.deal_card (deck g)) as [[card|] d];
    [|done].
  cbn [players community_cards set_cards set_players].
  rewrite (strip_hole_cards (λ p, hole_cards p ++ [card])).
  by destruct g.
Qed.

Lemma strip_deal_all rs : ∀ g,
  strip (fold_left (λ g r, deal_to r g) rs g) = strip g.
Proof.
  induction rs as [|r rs IH]; intros g; simpl; [done|].
  by rewrite IH, strip_deal_to.
Qed.

Lemma strip_frame g g' :
  strip g' = strip g →
  small_blind g' = small_blind g ∧ big_blind g' = big_blind g
  ∧ phase g' = phase g ∧ hand_number g' = hand_number g
  ∧ community_cards g' = community_cards g ∧ pot g' = pot g
  ∧ dealer_position g' = dealer_position g
  ∧ current_bet g' = current_bet g ∧ min_raise g' = min_raise g
  ∧ last_raiser_index g' = last_raiser_index g
  ∧ chips <$> players g' = chips <$> players g.
Proof.
  intros H. repeat split.
  - exact (f_equal small_blind H).
  - exact (f_equal big_blind H).
  - exact (f_equal phase H).
  - exact (f_equal hand_number H).
  - exact (f_equal community_cards H).
  - exact (f_equal pot H).
  - exact (f_equal dealer_position H).
  - exact (f_equal current_bet H).
  - exact (f_equal min_raise H).
  - exact (f_equal last_raiser_index H).
  - pose proof (f_equal (λ g, chips <$> players g) H) as Hc.
    cbn in Hc. by rewrite <- !list_fmap_compose in Hc.
Qed.

Lemma seats_where_chips (f : Z → bool) ps : ∀ qs,
  chips <$> ps = chips <$> qs →
  seats_where (λ p, f (chips p)) ps = seats_where (λ p, f (chips p)) qs.
Proof.
  intros qs Hc. unfold seats_where.
  assert (length ps = length qs) as Hlen
    by (rewrite <- (length_fmap chips ps), Hc; apply length_fmap).
  rewrite <- Hlen. generalize 0. revert qs Hc Hlen.
  induction ps as [|p ps IH]; intros [|q qs] Hc Hlen m; try done.
  rewrite !fmap_cons in Hc. injection Hc as Hpq Hc. injection Hlen as Hlen.
  cbn [length]. rewrite Nat2Z.inj_succ, seqZ_cons, Z.pred_succ by lia.
  cbn [zip zip_with]. rewrite !filter_cons. cbn [snd]. rewrite Hpq.
  case_decide; cbn [map fst]; by rewrite (IH qs Hc Hlen).
Qed.

Lemma seats_where_length P ps :
  length (seats_where P ps) = length (filter (λ p, P p = true) ps).
Proof.
  unfold seats_where. rewrite length_map. generalize 0.
  induction ps as [|p ps IH]; intros m; [done|].
  cbn [length]. rewrite Nat2Z.inj_succ, seqZ_cons, Z.pred_succ by lia.
  cbn [zip zip_with]. rewrite !filter_cons. cbn [snd].
  case_decide; cbn [length]; by rewrite IH.
Qed.

Lemma can_start_game_seats g :
  can_start_game g = true
  ↔ (2 ≤ length (seats_where (λ p, (0 <? chips p)%Z) (players g)))%nat.
Proof.
  unfold can_start_game. rewrite seats_where_length, Nat.leb_le.
  rewrite (filter_iff_in (λ p, (0 <? chips p) = true) (λ p, (0 < chips p)%Z));
    [done|].
  intros p _. apply Z.ltb_lt.
Qed.

Lemma lookup_in_range (l : list Z) (i : nat) n :
  0 < n → (∀ x, x ∈ l → 0 ≤ x < n) → 0 ≤ default 0 (l !! i) < n.
Proof.
  intros Hn Hl. destruct (l !! i) as [x|] eqn:Hx; simpl; [|lia].
  apply Hl. by eapply list_elem_of_lookup_2.
Qed.

Lemma blind_positions_range g :
  0 ≤ dealer_position g < nplayers g →
  (2 ≤ length (seats_where (λ p, (0 <? chips p)%Z) (players g)))%nat →
  0 ≤ _get_small_blind_position g < nplayers g
  ∧ 0 ≤ _get_big_blind_position g < nplayers g.
Proof.
  intros Hd Hcnt. unfold _get_small_blind_position, _get_big_blind_position.
  assert (∀ i : nat,
    0 ≤ default 0 (seats_where (λ p, 0 <? chips p) (players g) !! i) < nplayers g)
    as Hr.
  { intros i. apply lookup_in_range; [lia|]. apply seats_where_range. }
  set (act := seats_where (λ p, 0 <? chips p) (players g)) in *.
  destruct (Z.ltb_spec (Z.of_nat (length act)) 2); [lia|].
  destruct (Z.eqb_spec (Z.of_nat (length act)) 2); split; try apply Hr; lia.
Qed.

Lemma seat_at_in_range idx g :
  0 ≤ idx < nplayers g → seat_at idx g = Ok (Z.to_nat idx).
Proof.
  intros H. unfold seat_at.
  by rewrite (proj2 (Z.leb_le _ _)), (proj2 (Z.ltb_lt _ _)) by lia.
Qed.

Lemma post_blind_at_table (r : nat) amount g :
  table_total (post_blind_at r amount g) = table_total g
  ∧ nplayers (post_blind_at r amount g) = nplayers g
  ∧ small_blind (post_blind_at r amount g) = small_blind g
  ∧ big_blind (post_blind_at r amount g) = big_blind g
  ∧ phase (post_blind_at r amount g) = phase g
  ∧ hand_number (post_blind_at r amount g) = hand_number g
  ∧ community_cards (post_blind_at r amount g) = community_cards g
  ∧ dealer_position (post_blind_at r amount g) = dealer_position g
  ∧ min_raise (post_blind_at r amount g) = min_raise g.
Proof.
  unfold post_blind_at.
  destruct (players g !! r) as [player|] eqn:Hp; [|done].
  pose proof (post_blind_moved amount player) as Hm.
  destruct (post_blind amount player) as [actual player'].
  split; [exact (table_total_bet g r player actual player' Hp Hm)|].
  unfold nplayers. cbn [players set_pot set_players].
  by rewrite length_insert.
Qed.

Lemma new_hand_chips (ps : list Player) :
  chips <$> ((λ p, add_hand_played (new_hand p)) <$> ps) = chips <$> ps.
Proof. by rewrite <- list_fmap_compose. Qed.

Lemma chips_total_chips (ps qs : list Player) :
  chips <$> ps = chips <$> qs → chips_total ps = chips_total qs.
Proof. unfold chips_total. by intros ->. Qed.

Lemma nplayers_chips g g' :
  chips <$> players g' = chips <$> players g → nplayers g' = nplayers g.
Proof.
  intros H. unfold nplayers.
  by rewrite <- (length_fmap chips (players g')), H, length_fmap.
Qed.

Lemma start_new_hand_spec (shuffled : Card.Deck) (g : Game) :
  (can_start_game g = false → start_new_hand shuffled g = Raise ValueError)
  ∧ (can_start_game g = true →
     ∃ g', start_new_hand shuffled g = Ok g'
       ∧ phase g' = PRE_FLOP
       ∧ hand_number g' = hand_number g + 1
       ∧ community_cards g' = []
       ∧ current_bet g' = big_blind g
       ∧ min_raise g' = big_blind g
       ∧ table_total g' = chips_total (players g)
       ∧ 0 ≤ dealer_position g'
       ∧ ∃ p, players g !! Z.to_nat (dealer_position g') = Some p
              ∧ 0 < chips p).
Proof.
  unfold start_new_hand.
  split; intros Hcan; rewrite Hcan; cbn [negb]; [done|].
  apply can_start_game_seats in Hcan.
  set (g1 := mkGame _ _ _ _ _ _ _ _ _ _ _ _ _).
  assert (chips <$> players g1 = chips <$> players g) as Hc1
    by apply new_hand_chips.
  pose proof (nplayers_chips _ _ Hc1) as Hn1.
  pose proof (seats_where_chips (λ c, 0 <? c) _ _ Hc1) as Hs1. cbn beta in Hs1.
  (* the button *)
  destruct (_move_dealer_button_spec g1) as [_ Hmove]. cbn zeta in Hmove.
  destruct Hmove as (k & Hk & Hg2 & (pd & Hpd & Hcd) & _).
  { destruct (seats_where (λ p, 0 <? chips p) (players g1)) as [|a l] eqn:Ha;
      [rewrite <- Hs1 in Hcan; simpl in Hcan; lia|].
    assert (a ∈ seats_where (λ p, 0 <? chips p) (players g1)) as Hin
      by (rewrite Ha; apply list_elem_of_here).
    apply seats_where_elem in Hin as (_ & q & Hq & Hcq).
    exists q. split; [by eapply list_elem_of_lookup_2|lia]. }
  set (d := (dealer_position g1 + k) `mod` nplayers g1) in *.
  assert (0 ≤ d < nplayers g1) as Hd by (apply Z.mod_pos_bound; lia).
  rewrite Hg2.
  set (g3 := set_cards shuffled _ _).
  assert (strip (_deal_hole_cards g3) = strip g3) as Hstrip
    by apply strip_deal_all.
  apply strip_frame in Hstrip
    as (Hsb & Hbb & Hph & Hhn & Hcc & Hpot & Hdl & Hcb & Hmr & Hlr & Hc4).
  set (g4 := _deal_hole_cards g3) in *. clearbody g4.
  assert (chips <$> players g4 = chips <$> players g) as Hc4' by (by rewrite Hc4).
  pose proof (nplayers_chips _ _ Hc4') as Hn4.
  pose proof (seats_where_chips (λ c, 0 <? c) _ _ Hc4') as Hs4. cbn beta in Hs4.
  (* the blinds *)
  unfold _post_blinds. rewrite Hs4.
  rewrite (proj2 (Nat.ltb_ge _ _)) by done.
  destruct (blind_positions_range g4) as [Hsbp Hbbp].
  { rewrite Hdl, Hn4, <- Hn1. exact Hd. }
  { by rewrite Hs4. }
  rewrite (seat_at_in_range _ _ Hsbp). cbn [mbind result_bind].
  destruct (post_blind_at_table (Z.to_nat (_get_small_blind_position g4))
              (small_blind g4) g4)
    as (Ht5 & Hn5 & Hsb5 & Hbb5 & Hph5 & Hhn5 & Hcc5 & Hdl5 & Hmr5).
  set (g5 := post_blind_at _ (small_blind g4) g4) in *. clearbody g5.
  rewrite seat_at_in_range by (by rewrite Hn5).
  cbn [mbind result_bind].
  destruct (post_blind_at_table (Z.to_nat (_get_big_blind_position g4))
              (big_blind g5) g5)
    as (Ht6 & Hn6 & Hsb6 & Hbb6 & Hph6 & Hhn6 & Hcc6 & Hdl6 & Hmr6).
  set (g6 := post_blind_at _ (big_blind g5) g5) in *. clearbody g6.
  eexists. split; [reflexivity|].
  rewrite _set_first_player_to_act_index.
  unfold table_total.
  cbn [phase hand_number community_cards current_bet min_raise players pot
       dealer_position set_current_player_index set_betting].
  rewrite Hph6, Hph5, Hph, Hhn6, Hhn5, Hhn, Hcc6, Hcc5, Hcc, Hbb6, Hbb5, Hbb,
    Hmr6, Hmr5, Hmr, Hdl6, Hdl5, Hdl.
  fold (table_total g6). rewrite Ht6, Ht5. unfold table_total.
  rewrite Hpot, (chips_total_chips _ _ Hc4').
  repeat split; try done.
  - unfold Pot.get_total_pot. cbn. lia.
  - cbn. lia.
  - cbn [dealer_position g3 set_cards set_dealer_position].
    fold d. assert (chips <$> players g !! Z.to_nat d = Some (chips pd)) as Hl.
    { rewrite <- list_lookup_fmap, <- Hc1, list_lookup_fmap.
      by rewrite Hpd. }
    apply fmap_Some in Hl as (p & Hp & Hcp). exists p. split; [done|].
    rewrite <- Hcp. lia.
Qed.

(** X14: [start_new_hand] raises [ValueError] exactly when fewer than two
    players have chips, and otherwise succeeds (the blind seats are always
    in range): the phase is pre-flop, the hand number has gone up by one,
    the board is empty, the bet to match is the big blind, the chips in
    the stacks and the new pot are the chips the players had, and the
    button is on a seat whose player had chips. *)
Theorem X14_start_new_hand (shuffled : Card.Deck) (g : Game) :
  (can_start_game g = false → start_new_hand shuffled g = Raise ValueError)
  ∧ (can_start_game g = true →
     ∃ g', start_new_hand shuffled g = Ok g'
       ∧ phase g' = PRE_FLOP
       ∧ hand_number g' = hand_number g + 1
       ∧ community_cards g' = []
       ∧ current_bet g' = big_blind g
       ∧ min_raise g' = big_blind g
       ∧ table_total g' = chips_total (players g)
       ∧ 0 ≤ dealer_position g'
       ∧ ∃ p, players g !! Z.to_nat (dealer_position g') = Some p
              ∧ 0 < chips p).
Proof. apply start_new_hand_spec. Qed.
End new_hand_facts.

Section dealing_facts.
Import Card Player Game Dealing.

Lemma deal_to_top r g d c :
  deck g = d ++ [c] →
  deal_to r g
  = set_cards d (community_cards g)
      (set_players
         (alter (λ p, set_hole_cards (hole_cards p ++ [c]) p) r (players g)) g).
Proof. intros Hd. unfold deal_to. by rewrite Hd, deal_card_top. Qed.

(** Dealing one card at a time to the seats [rs]: the cards come off the
    end of the deck, and each seat collects, in order, the cards of its
    turns. *)
Lemma deal_all_spec rs : ∀ dealt g rest,
  length dealt = length rs → deck g = rest ++ reverse dealt →
  deck (fold_left (λ g r, deal_to r g) rs g) = rest
  ∧ ∀ r : nat,
      hole_cards <$> players (fold_left (λ g r, deal_to r g) rs g) !! r
      = (λ p, hole_cards p
              ++ (filter (λ rc : nat * Card, rc.1 = r) (zip rs dealt)).*2)
        <$> players g !! r.
Proof.
  induction rs as [|r0 rs IH]; intros [|c dealt] g rest Hlen Hdeck; try done.
  { simpl in *. rewrite app_nil_r in Hdeck. split; [done|]. intros r.
    destruct (players g !! r); simpl; [|done]. by rewrite app_nil_r. }
  injection Hlen as Hlen. rewrite reverse_cons, app_assoc in Hdeck.
  cbn [fold_left]. rewrite (deal_to_top r0 g _ c Hdeck).
  set (g1 := set_cards _ _ _).
  destruct (IH dealt g1 rest Hlen eq_refl) as [Hd Hh].
  split; [done|]. intros r. rewrite Hh.
  unfold g1. cbn [players set_cards set_players zip zip_with].
  rewrite filter_cons. cbn [fst].
  destruct (decide (r0 = r)) as [->|Hne].
  - rewrite list_lookup_alter_eq. destruct (players g !! r); simpl; [|done].
    by rewrite <- app_assoc.
  - by rewrite list_lookup_alter_ne.
Qed.

Lemma turns_not_seated (rs : list nat) (d : list Card) r :
  r ∉ rs → filter (λ rc : nat * Card, rc.1 = r) (zip rs d) = [].
Proof.
  revert d. induction rs as [|r0 rs IH]; intros [|c d] Hr; try done.
  apply not_elem_of_cons in Hr as [Hne Hr].
  cbn [zip zip_with]. rewrite filter_cons. cbn [fst].
  rewrite decide_False by done. by apply IH.
Qed.

Lemma turns_seated (rs : list nat) : ∀ (d : list Card) (j : nat) r c,
  NoDup rs → rs !! j = Some r → d !! j = Some c →
  filter (λ rc : nat * Card, rc.1 = r) (zip rs d) = [(r, c)].
Proof.
  induction rs as [|r0 rs IH]; intros [|c0 d] j r c Hnd Hr Hc; try done.
  apply NoDup_cons in Hnd as [Hr0 Hnd].
  cbn [zip zip_with]. rewrite filter_cons. cbn [fst].
  destruct j as [|j]; simpl in Hr, Hc.
  - injection Hr as ->. injection Hc as ->. rewrite decide_True by done.
    by rewrite turns_not_seated.
  - rewrite decide_False.
    + by apply (IH d j).
    + intros ->. apply Hr0. by eapply list_elem_of_lookup_2.
Qed.

Lemma funded_seats_NoDup g : NoDup (funded_seats g).
Proof. apply strictly_sorted_NoDup, seated_where_keys. Qed.

Lemma funded_seats_elem g (r : nat) :
  r ∈ funded_seats g ↔ ∃ p, players g !! r = Some p ∧ 0 < chips p.
Proof.
  unfold funded_seats. change (map fst ?l) with (l.*1).
  rewrite list_elem_of_fmap. split.
  - intros ([r' p] & -> & Hin). apply seated_where_elem in Hin as [Hp Hc].
    exists p. split; [done|]. lia.
  - intros (p & Hp & Hc). exists (r, p). split; [done|].
    apply seated_where_elem. split; [done|]. lia.
Qed.

Lemma _deal_hole_cards_spec (g : Game) :
  let seats := funded_seats g in
  let n := length seats in
  let size := length (deck g) in
  (2 * n ≤ size)%nat →
  let g' := _deal_hole_cards g in
  deck g' = take (size - 2 * n) (deck g)
  ∧ strip g' = strip g
  ∧ (∀ (j r : nat), seats !! j = Some r →
       ∃ p p' c1 c2,
         players g !! r = Some p ∧ players g' !! r = Some p'
         ∧ hole_cards p' = hole_cards p ++ [c1; c2]
         ∧ deck g !! (size - 1 - j)%nat = Some c1
         ∧ deck g !! (size - 1 - n - j)%nat = Some c2)
  ∧ (∀ (r : nat) p, players g !! r = Some p → chips p ≤ 0 →
       ∃ p', players g' !! r = Some p' ∧ hole_cards p' = hole_cards p).
Proof.
  intros seats n size Hsize g'.
  set (rest := take (size - 2 * n) (deck g)).
  set (top := drop (size - 2 * n) (deck g)).
  assert (length top = (2 * n)%nat) as Htop
    by (unfold top; rewrite length_drop; fold size; lia).
  set (d1 := take n (reverse top)). set (d2 := drop n (reverse top)).
  assert (length d1 = n ∧ length d2 = n) as [Hd1 Hd2].
  { unfold d1, d2. rewrite length_take, length_drop, length_reverse. lia. }
  assert (deck g = rest ++ reverse (d1 ++ d2)) as Hdeck.
  { unfold d1, d2. rewrite take_drop, reverse_involutive.
    unfold rest, top. by rewrite take_drop. }
  destruct (deal_all_spec (seats ++ seats) (d1 ++ d2) g rest) as [Hd Hh];
    [by rewrite !length_app, Hd1, Hd2|done|].
  fold (_deal_hole_cards g) in Hd, Hh. fold g' in Hd, Hh.
  split; [done|]. split; [apply strip_deal_all|].
  assert (zip (seats ++ seats) (d1 ++ d2) = zip seats d1 ++ zip seats d2)
    as Hzip by (by apply zip_with_app).
  assert (∀ i : nat, (i < 2 * n)%nat →
            deck g !! (size - 1 - i)%nat = (d1 ++ d2) !! i) as Hcard.
  { intros i Hi.
    assert (length rest = (size - 2 * n)%nat) as Hrest
      by (unfold rest; rewrite length_take; fold size; lia).
    rewrite Hdeck, (lookup_app_r rest) by lia. rewrite Hrest.
    rewrite reverse_lookup by (rewrite length_app; lia).
    rewrite length_app, Hd1, Hd2. f_equal. lia. }
  split.
  - intros j r Hj.
    assert (j < n)%nat as Hjn by (by apply lookup_lt_Some in Hj).
    destruct (lookup_lt_is_Some_2 d1 j) as [c1 Hc1]; [lia|].
    destruct (lookup_lt_is_Some_2 d2 j) as [c2 Hc2]; [lia|].
    assert (r ∈ funded_seats g) as Hr by (by eapply list_elem_of_lookup_2).
    apply funded_seats_elem in Hr as (p & Hp & _).
    specialize (Hh r). rewrite Hp in Hh. cbn [fmap option_fmap option_map] in Hh.
    rewrite Hzip, filter_app in Hh.
    rewrite (turns_seated seats d1 j r c1), (turns_seated seats d2 j r c2) in Hh
      by (done || apply funded_seats_NoDup).
    apply fmap_Some in Hh as (p' & Hp' & Hhole).
    exists p, p', c1, c2. split; [done|]. split; [done|]. split; [done|].
    split.
    + rewrite Hcard by lia. by rewrite lookup_app_l by lia.
    + replace (size - 1 - n - j)%nat with (size - 1 - (n + j))%nat by lia.
      rewrite Hcard by lia. rewrite lookup_app_r by lia.
      rewrite Hd1. by replace (n + j - n)%nat with j by lia.
  - intros r p Hp Hc.
    assert (r ∉ seats) as Hr.
    { intros (q & Hq & Hcq)%funded_seats_elem. rewrite Hp in Hq.
      injection Hq as <-. lia. }
    specialize (Hh r). rewrite Hp in Hh. cbn [fmap option_fmap option_map] in Hh.
    rewrite turns_not_seated in Hh by (rewrite elem_of_app; tauto).
    apply fmap_Some in Hh as (p' & Hp' & Hhole).
    exists p'. split; [done|]. simpl in Hhole. by rewrite app_nil_r in Hhole.
Qed.

(** X15: [_deal_hole_cards] deals two rounds, one card at a time in seat
    order, to the players with chips: with [n] such players and at least
    [2 n] cards in the deck, the player at place [j] among them receives
    the card [j] places from the end of the deck and then the card
    [n + j] places from the end; the deck loses its last [2 n] cards;
    players without chips get no card, and nothing but the deck and the
    hole cards changes. *)
Theorem X15_deal_hole_cards (g : Game) :
  let seats := funded_seats g in
  let n := length seats in
  let size := length (deck g) in
  (2 * n ≤ size)%nat →
  let g' := _deal_hole_cards g in
  deck g' = take (size - 2 * n) (deck g)
  ∧ strip g' = strip g
  ∧ (∀ (j r : nat), seats !! j = Some r →
       ∃ p p' c1 c2,
         players g !! r = Some p ∧ players g' !! r = Some p'
         ∧ hole_cards p' = hole_cards p ++ [c1; c2]
         ∧ deck g !! (size - 1 - j)%nat = Some c1
         ∧ deck g !! (size - 1 - n - j)%nat = Some c2)
  ∧ (∀ (r : nat) p, players g !! r = Some p → chips p ≤ 0 →
       ∃ p', players g' !! r = Some p' ∧ hole_cards p' = hole_cards p).
Proof. apply _deal_hole_cards_spec. Qed.
End dealing_facts.

Section new_hand_cards.
Import Card Player Game Dealing.

Lemma funded_seats_chips g g' :
  chips <$> players g' = chips <$> players g →
  funded_seats g' = funded_seats g.
Proof.
  unfold funded_seats, seated_where. intros Hc.
  assert (length (players g') = length (players g)) as Hlen
    by (rewrite <- (length_fmap chips (players g')), Hc; apply length_fmap).
  rewrite Hlen. generalize O. revert Hc Hlen.
  generalize (players g) (players g'). clear g g'.
  induction l as [|p ps IH]; intros [|q qs] Hc Hlen a; try done.
  rewrite !fmap_cons in Hc. injection Hc as Hpq Hc. injection Hlen as Hlen.
  cbn [length seq zip zip_with]. rewrite !filter_cons. cbn [snd]. rewrite Hpq.
  case_decide; cbn [map fst]; by rewrite (IH qs Hc Hlen).
Qed.

Lemma post_blind_at_cards (r : nat) amount g :
  deck (post_blind_at r amount g) = deck g
  ∧ hole_cards <$> players (post_blind_at r amount g)
    = hole_cards <$> players g.
Proof.
  unfold post_blind_at.
  destruct (players g !! r) as [player|] eqn:Hp; [|done].
  assert (hole_cards (post_blind amount player).2 = hole_cards player) as Hh
    by (unfold post_blind; by case_match).
  destruct (post_blind amount player) as [actual player'].
  split; [done|]. cbn [players set_pot set_players snd] in *.
  rewrite list_fmap_insert, Hh. apply list_insert_id.
  by rewrite list_lookup_fmap, Hp.
Qed.

Lemma _post_blinds_cards g g' :
  _post_blinds g = Ok g' →
  deck g' = deck g ∧ hole_cards <$> players g' = hole_cards <$> players g.
Proof.
  unfold _post_blinds. case_match; [by intros [= <-]|].
  destruct (seat_at (_get_small_blind_position g) g) as [sb|];
    cbn [mbind result_bind]; [|done].
  destruct (post_blind_at_cards sb (small_blind g) g) as [Hd1 Hh1].
  set (g1 := post_blind_at sb (small_blind g) g) in *. clearbody g1.
  destruct (seat_at (_get_big_blind_position g) g1) as [bb|];
    cbn [mbind result_bind]; [|done].
  destruct (post_blind_at_cards bb (big_blind g1) g1) as [Hd2 Hh2].
  intros [= <-]. cbn [deck players set_betting]. split; congruence.
Qed.

Lemma start_new_hand_cards (shuffled : Deck) (g g' : Game) :
  start_new_hand shuffled g = Ok g' →
  (2 * length (funded_seats g) ≤ length shuffled)%nat →
  deck g'
  = take (length shuffled - 2 * length (funded_seats g)) shuffled
  ∧ (∀ (j r : nat), funded_seats g !! j = Some r →
       ∃ p' c1 c2,
         players g' !! r = Some p' ∧ hole_cards p' = [c1; c2]
         ∧ shuffled !! (length shuffled - 1 - j)%nat = Some c1
         ∧ shuffled !! (length shuffled - 1 - length (funded_seats g) - j)%nat
           = Some c2)
  ∧ (∀ (r : nat) p', players g' !! r = Some p' → r ∉ funded_seats g →
       hole_cards p' = []).
Proof.
  unfold start_new_hand. destruct (can_start_game g); cbn [negb]; [|done].
  set (g1 := mkGame _ _ _ _ _ _ _ _ _ _ _ _ _).
  set (g3 := set_cards shuffled _ (_move_dealer_button g1)).
  assert (players g3 = (λ p, add_hand_played (new_hand p)) <$> players g)
    as Hp3.
  { unfold g3. cbn [players set_cards].
    destruct (_move_dealer_button_spec g1) as [Hnone Hsome].
    cbn zeta in Hnone, Hsome. unfold _move_dealer_button.
    repeat case_match; done. }
  assert (funded_seats g3 = funded_seats g) as Hf3.
  { apply funded_seats_chips. rewrite Hp3. by rewrite <- list_fmap_compose. }
  assert (deck g3 = shuffled) as Hd3 by done.
  destruct (_post_blinds (_deal_hole_cards g3)) as [g5|] eqn:Hpost;
    cbn [mbind result_bind]; [|done].
  intros [= <-] Hsize.
  destruct (_post_blinds_cards _ _ Hpost) as [Hd5 Hh5].
  destruct (_deal_hole_cards_spec g3) as (Hd4 & _ & Hfunded & Hother).
  { by rewrite Hf3, Hd3. }
  rewrite Hf3, Hd3 in Hd4, Hfunded.
  rewrite _set_first_player_to_act_index. cbn [deck players set_current_player_index].
  split; [by rewrite Hd5|]. split.
  - intros j r Hj.
    destruct (Hfunded j r Hj) as (p & p' & c1 & c2 & Hp & Hp' & Hhole & Hc1 & Hc2).
    assert (hole_cards <$> players g5 !! r = Some (hole_cards p')) as Hl.
    { by rewrite <- list_lookup_fmap, Hh5, list_lookup_fmap, Hp'. }
    apply fmap_Some in Hl as (p5 & Hp5 & Hh).
    exists p5, c1, c2. split; [done|]. split; [|done].
    rewrite <- Hh, Hhole. rewrite Hp3, list_lookup_fmap in Hp.
    apply fmap_Some in Hp as (p0 & _ & ->). done.
  - intros r p5 Hp5 Hr.
    assert (is_Some (players g3 !! r)) as [p Hp].
    { apply lookup_lt_is_Some. apply lookup_lt_Some in Hp5.
      rewrite <- (length_fmap hole_cards (players g5)), Hh5 in Hp5.
      rewrite length_fmap in Hp5.
      destruct (_deal_hole_cards_spec g3) as (_ & Hs & _);
        [by rewrite Hf3, Hd3|].
      apply strip_frame in Hs as (_&_&_&_&_&_&_&_&_&_&Hc).
      rewrite <- (length_fmap chips (players g3)), <- Hc, length_fmap. done. }
    destruct (Hother r p Hp) as (p' & Hp' & Hhole).
    { destruct (decide (0 < chips p)) as [Hc|Hc]; [|lia].
      exfalso. apply Hr. rewrite <- Hf3. apply funded_seats_elem. by exists p. }
    assert (hole_cards <$> players g5 !! r = Some (hole_cards p')) as Hl.
    { by rewrite <- list_lookup_fmap, Hh5, list_lookup_fmap, Hp'. }
    rewrite Hp5 in Hl. injection Hl as ->. rewrite Hhole.
    rewrite Hp3, list_lookup_fmap in Hp.
    apply fmap_Some in Hp as (p0 & _ & ->). done.
Qed.

(** X16: after [start_new_hand], given a shuffled deck with at least two
    cards for each player with chips, each such player holds exactly two
    cards, the one at place [j] among them the cards [j] and [n + j]
    places from the end of the shuffled deck; the other players hold
    none; and the deck is the shuffled deck without its last [2 n]
    cards. *)
Theorem X16_start_new_hand_cards (shuffled : Deck) (g g' : Game) :
  start_new_hand shuffled g = Ok g' →
  (2 * length (funded_seats g) ≤ length shuffled)%nat →
  deck g'
  = take (length shuffled - 2 * length (funded_seats g)) shuffled
  ∧ (∀ (j r : nat), funded_seats g !! j = Some r →
       ∃ p' c1 c2,
         players g' !! r = Some p' ∧ hole_cards p' = [c1; c2]
         ∧ shuffled !! (length shuffled - 1 - j)%nat = Some c1
         ∧ shuffled !! (length shuffled - 1 - length (funded_seats g) - j)%nat
           = Some c2)
  ∧ (∀ (r : nat) p', players g' !! r = Some p' → r ∉ funded_seats g →
       hole_cards p' = []).
Proof. apply start_new_hand_cards. Qed.
End new_hand_cards.

Section new_hand_witness.
Import Card Player Game Dealing.

Lemma X15_deal_hole_cards_witness :
  deck (_deal_hole_cards heads_up)
  = take (length (deck heads_up) - 2 * length (funded_seats heads_up))
         (deck heads_up).
Proof.
  refine (proj1 (X15_deal_hole_cards heads_up _)). vm_compute. lia.
Defined.

Lemma X16_start_new_hand_cards_witness :
  deck first_hand
  = take (length reset - 2 * length (funded_seats heads_up)) reset.
Proof.
  refine (proj1 (X16_start_new_hand_cards reset heads_up first_hand _ _)).
  - by vm_compute.
  - vm_compute. lia.
Defined.
End new_hand_witness.
(** * Further properties: who acts first *)

Section first_to_act.
Import Player Game.

Lemma first_seat_from_first start lo hi n active k0 :
  lo ≤ k0 < hi → (start + k0) `mod` n ∈ active →
  ∃ k, lo ≤ k ≤ k0
    ∧ first_seat_from start lo hi n active = Some ((start + k) `mod` n)
    ∧ (start + k) `mod` n ∈ active
    ∧ ∀ k', lo ≤ k' < k → (start + k') `mod` n ∉ active.
Proof.
  intros Hk0 Hin. unfold first_seat_from.
  set (f := λ pos : Z, bool_decide (pos ∈ active)).
  set (l := map (λ i, (start + i) `mod` n) (seqZ lo (hi - lo))).
  assert (∀ (j : nat) y, l !! j = Some y
            ↔ y = (start + (lo + Z.of_nat j)) `mod` n ∧ Z.of_nat j < hi - lo)
    as Hl.
  { intros j y. unfold l. change (map ?g ?l) with (g <$> l).
    rewrite list_lookup_fmap, fmap_Some. setoid_rewrite lookup_seqZ.
    split; [intros (x & [-> ?] & ->); done|intros [-> ?]; eauto]. }
  destruct (find_first f l) as (i & x & Hi & Hfx & Hfind & Hmin).
  { exists ((start + k0) `mod` n). split; [|by apply bool_decide_eq_true_2].
    apply (list_elem_of_lookup_2 _ (Z.to_nat (k0 - lo))). apply Hl.
    rewrite Z2Nat.id by lia. split; [f_equal; lia|lia]. }
  pose proof Hi as Hi'. apply Hl in Hi as [-> Hlt].
  apply bool_decide_eq_true_1 in Hfx.
  assert (lo + Z.of_nat i ≤ k0) as Hle.
  { destruct (Z.le_gt_cases (lo + Z.of_nat i) k0) as [|Hgt]; [done|].
    specialize (Hmin (Z.to_nat (k0 - lo)) ((start + k0) `mod` n)).
    unfold f in Hmin. rewrite bool_decide_eq_false in Hmin.
    exfalso. apply Hmin; [lia| |done].
    apply Hl. rewrite Z2Nat.id by lia. split; [f_equal; lia|lia]. }
  exists (lo + Z.of_nat i). split; [lia|]. split; [done|]. split; [done|].
  intros k' Hk' Hin'.
  specialize (Hmin (Z.to_nat (k' - lo)) ((start + k') `mod` n)).
  unfold f in Hmin. rewrite bool_decide_eq_false in Hmin.
  apply Hmin; [lia| |done].
  apply Hl. rewrite Z2Nat.id by lia. split; [f_equal; lia|lia].
Qed.

Lemma first_seat_from_none start lo hi n active :
  (∀ k, lo ≤ k < hi → (start + k) `mod` n ∉ active) →
  first_seat_from start lo hi n active = None.
Proof.
  intros Hnone. unfold first_seat_from.
  destruct (List.find _ _) as [x|] eqn:Hfind; [|done].
  apply find_some in Hfind as [Hin Hx]. exfalso.
  apply bool_decide_eq_true_1 in Hx.
  apply list_elem_of_In in Hin. change (map ?g ?l) with (g <$> l) in Hin.
  apply list_elem_of_fmap in Hin as (k & -> & Hk).
  apply elem_of_seqZ in Hk. apply (Hnone k); [lia|done].
Qed.

Lemma can_act_seat g pos :
  pos ∈ seats_where can_act (players g)
  ↔ 0 ≤ pos ∧ ∃ p, players g !! Z.to_nat pos = Some p ∧ can_act p = true.
Proof. apply seats_where_elem. Qed.

Lemma _set_first_player_to_act_spec (g : Game) :
  let n := nplayers g in
  let d := dealer_position g in
  let g' := _set_first_player_to_act g in
  let acts pos := pos ∈ seats_where can_act (players g) in
  g' = set_current_player_index (current_player_index g') g
  ∧ ((∀ p, p ∈ players g → can_act p = false) → g' = g)
  ∧ ((∃ p, p ∈ players g ∧ can_act p = true) →
     (phase g = PRE_FLOP → n = 2 → g' = set_current_player_index d g)
     ∧ (phase g ≠ PRE_FLOP → n = 2 →
        (acts ((d + 1) `mod` n) →
         g' = set_current_player_index ((d + 1) `mod` n) g)
        ∧ (¬ acts ((d + 1) `mod` n) → g' = set_current_player_index d g))
     ∧ (phase g = PRE_FLOP → n ≠ 2 →
        let bb := _get_big_blind_position g in
        (∃ k, 1 ≤ k < n ∧ acts ((bb + k) `mod` n)
              ∧ g' = set_current_player_index ((bb + k) `mod` n) g
              ∧ ∀ k', 1 ≤ k' < k → ¬ acts ((bb + k') `mod` n))
        ∨ (g' = g ∧ ∀ k, 1 ≤ k < n → ¬ acts ((bb + k) `mod` n)))
     ∧ (phase g ≠ PRE_FLOP → n ≠ 2 →
        let sb := _get_small_blind_position g in
        ∃ k, 0 ≤ k < n ∧ acts ((sb + k) `mod` n)
             ∧ g' = set_current_player_index ((sb + k) `mod` n) g
             ∧ ∀ k', 0 ≤ k' < k → ¬ acts ((sb + k') `mod` n))
     ∧ (phase g ≠ PRE_FLOP → 0 ≤ d < n →
        acts (current_player_index g'))).
Proof.
  cbn zeta. split; [apply _set_first_player_to_act_index|]. split.
  { intros Hnone%seats_where_nil. unfold _set_first_player_to_act.
    by rewrite Hnone. }
  intros (p0 & Hp0 & Hc0).
  apply list_elem_of_lookup in Hp0 as [i0 Hi0].
  assert (Z.of_nat i0 ∈ seats_where can_act (players g)) as Hs0.
  { apply seats_where_elem. split; [lia|]. exists p0. by rewrite Nat2Z.id. }
  pose proof (seats_where_range _ _ _ Hs0) as Hr0. fold (nplayers g) in Hr0.
  unfold _set_first_player_to_act.
  destruct (seats_where can_act (players g)) as [|a l] eqn:Hact;
    [by apply elem_of_nil in Hs0|].
  rewrite <- Hact in *. clear Hact.
  assert (∀ start, ∃ k, 0 ≤ k < nplayers g
            ∧ (start + k) `mod` nplayers g = Z.of_nat i0) as Hreach.
  { intros start. exists ((Z.of_nat i0 - start) `mod` nplayers g).
    split; [apply Z.mod_pos_bound; lia|].
    rewrite Zplus_mod_idemp_r.
    replace (start + (Z.of_nat i0 - start)) with (Z.of_nat i0) by lia.
    apply Z.mod_small. lia. }
  split; [|split; [|split; [|split]]].
  - intros -> Hn. rewrite bool_decide_eq_true_2 by done.
    by rewrite (proj2 (Z.eqb_eq _ _) Hn).
  - intros Hph Hn. rewrite bool_decide_eq_false_2 by done.
    rewrite (proj2 (Z.eqb_eq _ _) Hn).
    split; intros Hnd; [by rewrite bool_decide_eq_true_2
                       |by rewrite bool_decide_eq_false_2].
  - intros -> Hn. rewrite bool_decide_eq_true_2 by done.
    rewrite (proj2 (Z.eqb_neq _ _) Hn).
    set (bb := _get_big_blind_position g).
    destruct (first_seat_from bb 1 (nplayers g) (nplayers g)
                (seats_where can_act (players g))) as [pos|] eqn:Hfind.
    + left.
      assert (∃ k0, 1 ≤ k0 < nplayers g
                ∧ (bb + k0) `mod` nplayers g
                  ∈ seats_where can_act (players g)) as (k0 & Hk0 & Hin0).
      { unfold first_seat_from in Hfind.
        apply find_some in Hfind as [Hin Hx].
        apply bool_decide_eq_true_1 in Hx.
        apply list_elem_of_In in Hin. change (map ?g ?l) with (g <$> l) in Hin.
        apply list_elem_of_fmap in Hin as (k & -> & Hk).
        apply elem_of_seqZ in Hk. exists k. split; [lia|done]. }
      destruct (first_seat_from_first bb 1 (nplayers g) (nplayers g) _ k0 Hk0 Hin0)
        as (k & Hk & Hfk & Hink & Hmin).
      rewrite Hfk in Hfind. injection Hfind as <-.
      exists k. split; [lia|]. by split.
    + right. split; [done|]. intros k Hk Hin.
      destruct (first_seat_from_first bb 1 (nplayers g) (nplayers g) _ k Hk Hin)
        as (k1 & _ & Hfk & _). congruence.
  - intros Hph Hn. rewrite bool_decide_eq_false_2 by done.
    rewrite (proj2 (Z.eqb_neq _ _) Hn).
    set (sb := _get_small_blind_position g).
    destruct (Hreach sb) as (k0 & Hk0 & Hk0eq).
    destruct (first_seat_from_first sb 0 (nplayers g) (nplayers g)
                (seats_where can_act (players g)) k0 Hk0)
      as (k & Hk & Hfk & Hink & Hmin); [by rewrite Hk0eq|].
    rewrite Hfk. exists k. split; [lia|]. by split.
  - intros Hph Hd. rewrite bool_decide_eq_false_2 by done.
    destruct (Z.eqb_spec (nplayers g) 2) as [Hn|Hn].
    + case_bool_decide as Hnd; [done|].
      cbn [current_player_index set_current_player_index].
      assert (Z.of_nat i0 = dealer_position g) as <-; [|done].
      destruct (decide (Z.of_nat i0 = dealer_position g)) as [|Hne]; [done|].
      exfalso. apply Hnd. rewrite Hn in *.
      replace ((dealer_position g + 1) `mod` 2) with (Z.of_nat i0); [done|].
      assert (dealer_position g = 0 ∨ dealer_position g = 1) as Hd01 by lia.
      destruct Hd01 as [Hd0|Hd1].
      * rewrite Hd0 in *. change ((0 + 1) `mod` 2) with 1. lia.
      * rewrite Hd1 in *. change ((1 + 1) `mod` 2) with 0. lia.
    + set (sb := _get_small_blind_position g).
      destruct (Hreach sb) as (k0 & Hk0 & Hk0eq).
      destruct (first_seat_from_first sb 0 (nplayers g) (nplayers g)
                  (seats_where can_act (players g)) k0 Hk0)
        as (k & Hk & Hfk & Hink & Hmin); [by rewrite Hk0eq|].
      by rewrite Hfk.
Qed.

(** X17: [_set_first_player_to_act] changes nothing but the actor index,
    in every case, and leaves the game untouched when nobody can act.
    Otherwise, after the flop with exactly two seats the turn goes to the
    seat after the button when that player can act and to the button
    when not; after the flop and with more than two seats, the
    turn goes to the nearest seat that can act, clockwise from the small
    blind position inclusive; after the flop, with the button on a seat,
    the player whose turn it is can always act.  Before the flop, with
    more than two seats, the turn goes to the nearest seat that can act
    strictly after the big blind position, and stays where it was when
    there is none; heads-up it goes to the button whether or not that
    player can act. *)
Theorem X17_set_first_player_to_act (g : Game) :
  let n := nplayers g in
  let d := dealer_position g in
  let g' := _set_first_player_to_act g in
  let acts pos := pos ∈ seats_where can_act (players g) in
  g' = set_current_player_index (current_player_index g') g
  ∧ ((∀ p, p ∈ players g → can_act p = false) → g' = g)
  ∧ ((∃ p, p ∈ players g ∧ can_act p = true) →
     (phase g = PRE_FLOP → n = 2 → g' = set_current_player_index d g)
     ∧ (phase g ≠ PRE_FLOP → n = 2 →
        (acts ((d + 1) `mod` n) →
         g' = set_current_player_index ((d + 1) `mod` n) g)
        ∧ (¬ acts ((d + 1) `mod` n) → g' = set_current_player_index d g))
     ∧ (phase g = PRE_FLOP → n ≠ 2 →
        let bb := _get_big_blind_position g in
        (∃ k, 1 ≤ k < n ∧ acts ((bb + k) `mod` n)
              ∧ g' = set_current_player_index ((bb + k) `mod` n) g
              ∧ ∀ k', 1 ≤ k' < k → ¬ acts ((bb + k') `mod` n))
        ∨ (g' = g ∧ ∀ k, 1 ≤ k < n → ¬ acts ((bb + k) `mod` n)))
     ∧ (phase g ≠ PRE_FLOP → n ≠ 2 →
        let sb := _get_small_blind_position g in
        ∃ k, 0 ≤ k < n ∧ acts ((sb + k) `mod` n)
             ∧ g' = set_current_player_index ((sb + k) `mod` n) g
             ∧ ∀ k', 0 ≤ k' < k → ¬ acts ((sb + k') `mod` n))
     ∧ (phase g ≠ PRE_FLOP → 0 ≤ d < n →
        acts (current_player_index g'))).
Proof. apply _set_first_player_to_act_spec. Qed.
End first_to_act.

Section blinds.
Import Player Game.

Lemma index_of_elem (x : Z) (l : list Z) :
  x ∈ l → ∃ i : nat, index_of x l = Some i ∧ l !! i = Some x.
Proof.
  induction l as [|y l IH]; intros Hin; [by apply elem_of_nil in Hin|].
  simpl. destruct (decide (y = x)) as [->|Hne]; [by exists O|].
  apply elem_of_cons in Hin as [->|Hin]; [done|].
  destruct (IH Hin) as (i & -> & Hi). by exists (S i).
Qed.

Lemma seats_where_NoDup P ps : NoDup (seats_where P ps).
Proof.
  unfold seats_where. change (map fst ?l) with (l.*1). apply NoDup_fmap_fst.
  - intros x p q Hp Hq.
    apply list_elem_of_filter in Hp as [_ Hp].
    apply list_elem_of_filter in Hq as [_ Hq].
    apply list_elem_of_lookup in Hp as [i Hi].
    apply list_elem_of_lookup in Hq as [j Hj].
    apply lookup_zip_Some in Hi as [Hi1 Hi2].
    apply lookup_zip_Some in Hj as [Hj1 Hj2].
    simpl in *. apply lookup_seqZ in Hi1 as [Hi1 _].
    apply lookup_seqZ in Hj1 as [Hj1 _].
    assert (i = j) as -> by lia. congruence.
  - apply NoDup_filter, NoDup_zip_l, NoDup_seqZ.
Qed.

Lemma mod_step i c :
  0 ≤ i < c → 2 ≤ c →
  0 ≤ (i + 1) `mod` c < c ∧ 0 ≤ (i + 2) `mod` c < c
  ∧ (i + 1) `mod` c ≠ i ∧ (i + 2) `mod` c ≠ (i + 1) `mod` c.
Proof.
  intros Hi Hc.
  assert ((i + 1) `mod` c = i + 1 ∧ i + 1 < c
          ∨ (i + 1) `mod` c = 0 ∧ i + 1 = c) as H1.
  { destruct (decide (i + 1 < c)); [left|right]; (split; [|lia]).
    - apply Z.mod_small. lia.
    - replace (i + 1) with c by lia. apply Z_mod_same_full. }
  assert ((i + 2) `mod` c = i + 2 ∧ i + 2 < c
          ∨ (i + 2) `mod` c = i + 2 - c ∧ c ≤ i + 2) as H2.
  { destruct (decide (i + 2 < c)); [left|right]; (split; [|lia]).
    - apply Z.mod_small. lia.
    - symmetry. apply (Z.mod_unique _ _ 1); lia. }
  lia.
Qed.

Lemma post_blind_amount amount p :
  (post_blind amount p).1 = Z.min (chips p) amount.
Proof. unfold post_blind. case_match; simpl; lia. Qed.

Lemma post_blind_at_seat (r : nat) amount g p :
  players g !! r = Some p →
  post_blind_at r amount g
  = set_pot (Pot.add_bet r (Z.min (chips p) amount) (pot g))
      (set_players (<[r := (post_blind amount p).2]> (players g)) g).
Proof.
  intros Hp. unfold post_blind_at. rewrite Hp.
  pose proof (post_blind_amount amount p) as Ha.
  destruct (post_blind amount p) as [a p']. simpl in Ha. by rewrite Ha.
Qed.

Lemma _post_blinds_spec (g : Game) :
  let funded := seats_where (λ p, 0 <? chips p) (players g) in
  (2 ≤ length funded)%nat →
  dealer_position g ∈ funded →
  ∃ (sb bb : nat) psb pbb g',
    _get_small_blind_position g = Z.of_nat sb
    ∧ _get_big_blind_position g = Z.of_nat bb
    ∧ sb ≠ bb
    ∧ players g !! sb = Some psb ∧ 0 < chips psb
    ∧ players g !! bb = Some pbb ∧ 0 < chips pbb
    ∧ (length funded = 2%nat → Z.of_nat sb = dealer_position g)
    ∧ _post_blinds g = Ok g'
    ∧ players g'
      = <[bb := (post_blind (big_blind g) pbb).2]>
          (<[sb := (post_blind (small_blind g) psb).2]> (players g))
    ∧ Pot.get_total_pot (pot g')
      = Pot.get_total_pot (pot g)
        + Z.min (chips psb) (small_blind g) + Z.min (chips pbb) (big_blind g)
    ∧ current_bet g' = big_blind g.
Proof.
  intros funded Hcount Hdealer.
  destruct (index_of_elem _ _ Hdealer) as (i & Hidx & Hi).
  pose proof (lookup_lt_Some _ _ _ Hi) as Hilt.
  pose proof (seats_where_NoDup (λ p, 0 <? chips p) (players g)) as Hnd.
  fold funded in Hnd.
  destruct (mod_step (Z.of_nat i) (Z.of_nat (length funded)))
    as (Hm1 & Hm2 & Hm3 & Hm4); [lia|lia|].
  (* two seats of the list, one and two places after the button *)
  set (i1 := Z.to_nat ((Z.of_nat i + 1) `mod` Z.of_nat (length funded))).
  set (i2 := Z.to_nat ((Z.of_nat i + 2) `mod` Z.of_nat (length funded))).
  assert (i1 < length funded ∧ i1 ≠ i)%nat as [Hi1 Hi1i] by (unfold i1; lia).
  assert (i2 < length funded ∧ i2 ≠ i1)%nat as [Hi2 Hi21]
    by (unfold i1, i2; lia).
  destruct (lookup_lt_is_Some_2 funded i1 Hi1) as [s1 Hs1].
  destruct (lookup_lt_is_Some_2 funded i2 Hi2) as [s2 Hs2].
  assert (∀ (j : nat) s, funded !! j = Some s →
            0 ≤ s ∧ ∃ p, players g !! Z.to_nat s = Some p ∧ 0 < chips p)
    as Hseat.
  { intros j s Hj. apply list_elem_of_lookup_2 in Hj.
    apply seats_where_elem in Hj as (H0 & p & Hp & Hc).
    split; [done|]. exists p. split; [done|]. lia. }
  (* the positions *)
  assert (∃ sbz bbz, _get_small_blind_position g = sbz
            ∧ _get_big_blind_position g = bbz ∧ sbz ≠ bbz
            ∧ sbz ∈ funded ∧ bbz ∈ funded
            ∧ (length funded = 2%nat → sbz = dealer_position g))
    as (sbz & bbz & Hsbz & Hbbz & Hne & Hsin & Hbin & Hheads).
  { unfold _get_small_blind_position, _get_big_blind_position.
    fold funded. rewrite Hidx. change (default O (Some i)) with i.
    fold i1 i2.
    rewrite Hs1, Hs2. cbn [default].
    destruct (Z.ltb_spec (Z.of_nat (length funded)) 2); [lia|].
    destruct (Z.eqb_spec (Z.of_nat (length funded)) 2) as [H2|H2].
    - exists (dealer_position g), s1. repeat split; try done.
      + intros <-. apply Hi1i. by eapply NoDup_lookup.
      + by eapply list_elem_of_lookup_2.
    - exists s1, s2. repeat split; try done.
      + intros <-. apply Hi21. by eapply NoDup_lookup.
      + by eapply list_elem_of_lookup_2.
      + by eapply list_elem_of_lookup_2.
      + lia. }
  apply seats_where_elem in Hsin as (Hsb0 & psb & Hpsb & Hcsb).
  apply seats_where_elem in Hbin as (Hbb0 & pbb & Hpbb & Hcbb).
  exists (Z.to_nat sbz), (Z.to_nat bbz), psb, pbb.
  assert (Z.to_nat sbz ≠ Z.to_nat bbz) as Hne' by lia.
  pose proof (lookup_lt_Some _ _ _ Hpsb) as Hsblt.
  pose proof (lookup_lt_Some _ _ _ Hpbb) as Hbblt.
  eexists. rewrite !Z2Nat.id by done.
  split; [done|]. split; [done|]. split; [done|].
  split; [done|]. split; [lia|]. split; [done|]. split; [lia|].
  split; [done|].
  unfold _post_blinds. fold funded.
  rewrite (proj2 (Nat.ltb_ge _ _)) by done.
  rewrite Hsbz, Hbbz.
  rewrite seat_at_in_range by (unfold nplayers; lia).
  cbn [mbind result_bind].
  rewrite (post_blind_at_seat _ _ _ psb Hpsb).
  set (g1 := set_pot _ _).
  rewrite seat_at_in_range
    by (unfold nplayers, g1; cbn [players set_pot set_players];
        rewrite length_insert; lia).
  cbn [mbind result_bind].
  assert (players g1 !! Z.to_nat bbz = Some pbb) as Hpbb1.
  { unfold g1. cbn [players set_pot set_players].
    by rewrite list_lookup_insert_ne. }
  rewrite (post_blind_at_seat _ _ _ pbb Hpbb1).
  split; [reflexivity|].
  unfold g1, Pot.get_total_pot.
  cbn [players pot current_bet big_blind small_blind set_betting set_pot
       set_players Pot.main_pot Pot.add_bet].
  repeat split; lia || done.
Qed.

(** X18: with at least two players with chips and the button on one of
    them, the two blind positions are seats of two different players
    with chips (heads-up the small blind is the button); [_post_blinds]
    takes from each of the two the blind or, if the stack is not larger,
    the whole stack, adds both amounts to the pot, and sets the bet to
    match to the full big blind whatever was posted. *)
Theorem X18_post_blinds (g : Game) :
  let funded := seats_where (λ p, 0 <? chips p) (players g) in
  (2 ≤ length funded)%nat →
  dealer_position g ∈ funded →
  ∃ (sb bb : nat) psb pbb g',
    _get_small_blind_position g = Z.of_nat sb
    ∧ _get_big_blind_position g = Z.of_nat bb
    ∧ sb ≠ bb
    ∧ players g !! sb = Some psb ∧ 0 < chips psb
    ∧ players g !! bb = Some pbb ∧ 0 < chips pbb
    ∧ (length funded = 2%nat → Z.of_nat sb = dealer_position g)
    ∧ _post_blinds g = Ok g'
    ∧ players g'
      = <[bb := (post_blind (big_blind g) pbb).2]>
          (<[sb := (post_blind (small_blind g) psb).2]> (players g))
    ∧ Pot.get_total_pot (pot g')
      = Pot.get_total_pot (pot g)
        + Z.min (chips psb) (small_blind g) + Z.min (chips pbb) (big_blind g)
    ∧ current_bet g' = big_blind g.
Proof. apply _post_blinds_spec. Qed.
End blinds.

Section blinds_witness.
Import Player Game Dealing.

Lemma X18_post_blinds_witness :
  ∃ (sb bb : nat) psb pbb g',
    _get_small_blind_position heads_up = Z.of_nat sb
    ∧ _get_big_blind_position heads_up = Z.of_nat bb
    ∧ sb ≠ bb
    ∧ players heads_up !! sb = Some psb ∧ 0 < chips psb
    ∧ players heads_up !! bb = Some pbb ∧ 0 < chips pbb
    ∧ (length (seats_where (λ p, 0 <? chips p) (players heads_up)) = 2%nat →
       Z.of_nat sb = dealer_position heads_up)
    ∧ _post_blinds heads_up = Ok g'
    ∧ players g'
      = <[bb := (post_blind (big_blind heads_up) pbb).2]>
          (<[sb := (post_blind (small_blind heads_up) psb).2]>
             (players heads_up))
    ∧ Pot.get_total_pot (pot g')
      = Pot.get_total_pot (pot heads_up)
        + Z.min (chips psb) (small_blind heads_up)
        + Z.min (chips pbb) (big_blind heads_up)
    ∧ current_bet g' = big_blind heads_up.
Proof.
  apply (X18_post_blinds heads_up).
  - vm_compute. lia.
  - vm_compute. apply list_elem_of_here.
Defined.
End blinds_witness.
(** * Further properties: the board *)

Section board.
Import Card Player Game.

Lemma deal_community_spec (n : nat) (g : Game) :
  let g' := deal_community n g in
  ∃ burn cs,
    deck g = deck g' ++ reverse cs ++ burn
    ∧ community_cards g' = community_cards g ++ cs
    ∧ length burn = Nat.min 1 (length (deck g))
    ∧ length cs = Nat.min n (length (deck g) - 1)
    ∧ g' = set_cards (deck g') (community_cards g') g.
Proof.
  cbn zeta. unfold deal_community.
  destruct (deck g) as [|c d _] eqn:Hdeck using rev_ind.
  - rewrite deal_card_empty.
    destruct (deal_cards_spec n []) as [Hd Hlen].
    destruct (deal_cards n []) as [cs d'] eqn:Hdeal. cbn [fst snd] in *.
    exists [], cs. cbn [deck community_cards set_cards].
    split; [by rewrite app_nil_r|]. split; [done|]. split; [done|].
    split; [|done]. rewrite Hlen. simpl. lia.
  - rewrite deal_card_top.
    destruct (deal_cards_spec n d) as [Hd Hlen].
    destruct (deal_cards n d) as [cs d'] eqn:Hdeal. cbn [fst snd] in *.
    exists [c], cs. cbn [deck community_cards set_cards].
    split; [by rewrite app_assoc, <- Hd|]. split; [done|].
    split; [rewrite length_app; cbn [length]; lia|].
    split; [|done]. rewrite Hlen, length_app. cbn [length]. lia.
Qed.

(** X19: [_deal_flop], [_deal_turn] and [_deal_river] burn the last card
    of the deck and move the next 3, 1 and 1 cards from the end of the
    deck to the board, in the order dealt; a deck that runs short gives
    what it has; nothing else in the game changes. *)
Theorem X19_deal_community (g : Game) :
  ∀ deal n, (deal, n) ∈ [(_deal_flop, 3%nat); (_deal_turn, 1%nat);
                          (_deal_river, 1%nat)] →
  ∃ burn cs,
    deck g = deck (deal g) ++ reverse cs ++ burn
    ∧ community_cards (deal g) = community_cards g ++ cs
    ∧ length burn = Nat.min 1 (length (deck g))
    ∧ length cs = Nat.min n (length (deck g) - 1)
    ∧ deal g = set_cards (deck (deal g)) (community_cards (deal g)) g.
Proof.
  intros deal n Hin. rewrite !elem_of_cons, elem_of_nil in Hin.
  destruct Hin as [[= -> ->]|[[= -> ->]|[[= -> ->]|[]]]];
    apply deal_community_spec.
Qed.
End board.

Section board_witness.
Import Card Player Game Dealing.

Lemma X19_deal_community_witness :
  ∃ burn cs,
    deck first_hand = deck (_deal_flop first_hand) ++ reverse cs ++ burn
    ∧ community_cards (_deal_flop first_hand)
      = community_cards first_hand ++ cs
    ∧ length burn = Nat.min 1 (length (deck first_hand))
    ∧ length cs = Nat.min 3 (length (deck first_hand) - 1)
    ∧ _deal_flop first_hand
      = set_cards (deck (_deal_flop first_hand))
          (community_cards (_deal_flop first_hand)) first_hand.
Proof.
  apply (X19_deal_community first_hand _deal_flop 3). apply list_elem_of_here.
Defined.
End board_witness.
(** * Further properties: the winners of a showdown *)

Section winners.
Import Player Game HandEvaluator.

Lemma best_of_max rest : ∀ first (seen : list HandResult),
  (∀ s, s ∈ seen → lt first s = false) →
  ∀ h, h ∈ seen ++ first :: rest → lt (best_of first rest) h = false.
Proof.
  unfold best_of.
  induction rest as [|h0 rest IH]; intros first seen Hseen h Hin; simpl.
  - apply elem_of_app in Hin as [Hin|Hin]; [by apply Hseen|].
    apply list_elem_of_singleton in Hin as ->. apply lt_irrefl.
  - change (gt h0 first) with (lt first h0). destruct (lt first h0) eqn:Hlt.
    + apply (IH h0 (seen ++ [first])).
      * intros s [Hs|Hs]%elem_of_app.
        -- destruct (lt h0 s) eqn:Hs0; [|done].
           pose proof (Hseen s Hs) as Hfs.
           by rewrite (lt_trans _ _ _ Hlt Hs0) in Hfs.
        -- apply list_elem_of_singleton in Hs as ->. by apply lt_asym.
      * rewrite <- app_assoc. simpl.
        rewrite !elem_of_app, !elem_of_cons in *. tauto.
    + apply (IH first (seen ++ [h0])).
      * intros s [Hs|Hs]%elem_of_app; [by apply Hseen|].
        by apply list_elem_of_singleton in Hs as ->.
      * rewrite <- app_assoc. simpl.
        rewrite !elem_of_app, !elem_of_cons in *. tauto.
Qed.

Lemma eq_lt a b h : eq a b = true → lt a h = lt b h.
Proof.
  unfold eq, lt. intros [Hr Hv]%andb_prop.
  apply bool_decide_eq_true_1 in Hr. apply bool_decide_eq_true_1 in Hv.
  by rewrite Hr, Hv.
Qed.

Lemma eq_sym_trans a b c : eq a c = true → eq b c = true → eq a b = true.
Proof.
  unfold eq. intros [Hr Hv]%andb_prop [Hr' Hv']%andb_prop.
  apply bool_decide_eq_true_1 in Hr, Hv, Hr', Hv'.
  rewrite Hr, Hv, Hr', Hv'. by rewrite !bool_decide_eq_true_2.
Qed.

Lemma _determine_winners_spec (player_hands : list (nat * HandResult)) :
  let winners := _determine_winners player_hands in
  (player_hands ≠ [] → winners ≠ [])
  ∧ (∀ w, w ∈ winners →
       ∃ hw, (w, hw) ∈ player_hands
         ∧ (∀ r h, (r, h) ∈ player_hands → lt hw h = false)
         ∧ (∀ r h, (r, h) ∈ player_hands → eq h hw = true → r ∈ winners))
  ∧ (∀ w1 w2, w1 ∈ winners → w2 ∈ winners →
       ∃ h1 h2, (w1, h1) ∈ player_hands ∧ (w2, h2) ∈ player_hands
                ∧ eq h1 h2 = true).
Proof.
  cbn zeta. split; [apply _determine_winners_nonempty|].
  unfold _determine_winners.
  destruct player_hands as [|[r0 h0] rest].
  { split; [intros w Hw|intros w1 w2 Hw]; by apply elem_of_nil in Hw. }
  set (hands := (r0, h0) :: rest).
  set (best := best_of h0 (map snd rest)).
  assert (∀ r h, (r, h) ∈ hands → lt best h = false) as Hmax.
  { intros r h Hin. apply (best_of_max _ h0 []); [by intros ? ?%elem_of_nil|].
    simpl. change (h0 :: map snd rest) with (hands.*2).
    apply list_elem_of_fmap. by exists (r, h). }
  assert (∀ w, w ∈ map fst (filter (λ ph, eq ph.2 best = true) hands)
               ↔ ∃ h, (w, h) ∈ hands ∧ eq h best = true) as Hwin.
  { intros w. change (map fst ?l) with (l.*1). rewrite list_elem_of_fmap.
    split.
    - intros ([w' h] & -> & Hin). apply list_elem_of_filter in Hin as [He Hin].
      by exists h.
    - intros (h & Hin & He). exists (w, h). split; [done|].
      by apply list_elem_of_filter. }
  split.
  - intros w (hw & Hin & He)%Hwin. exists hw. split; [done|]. split.
    + intros r h Hrh. rewrite (eq_lt _ _ _ He). by eapply Hmax.
    + intros r h Hrh Heq. apply Hwin. exists h. split; [done|].
      unfold eq in *. apply andb_prop in He as [Hr Hv].
      apply andb_prop in Heq as [Hr' Hv'].
      apply bool_decide_eq_true_1 in Hr, Hv, Hr', Hv'.
      rewrite Hr', Hv', Hr, Hv. by rewrite !bool_decide_eq_true_2.
  - intros w1 w2 (h1 & Hin1 & He1)%Hwin (h2 & Hin2 & He2)%Hwin.
    exists h1, h2. split; [done|]. split; [done|].
    by eapply eq_sym_trans.
Qed.

(** X20: [_determine_winners] names at least one winner when there are
    hands to compare; no hand at the showdown is above a winner's hand;
    every player whose hand equals a winner's hand is a winner too; and
    the winners' hands are all equal. *)
Theorem X20_determine_winners (player_hands : list (nat * HandResult)) :
  let winners := _determine_winners player_hands in
  (player_hands ≠ [] → winners ≠ [])
  ∧ (∀ w, w ∈ winners →
       ∃ hw, (w, hw) ∈ player_hands
         ∧ (∀ r h, (r, h) ∈ player_hands → lt hw h = false)
         ∧ (∀ r h, (r, h) ∈ player_hands → eq h hw = true → r ∈ winners))
  ∧ (∀ w1 w2, w1 ∈ winners → w2 ∈ winners →
       ∃ h1 h2, (w1, h1) ∈ player_hands ∧ (w2, h2) ∈ player_hands
                ∧ eq h1 h2 = true).
Proof. apply _determine_winners_spec. Qed.
End winners.
